(** * unbnd: target selection, wire names and the outbound-query engine

    A shallow embedding of
    - [iterator/iter_utils.c]: the target-selection policy
      ([iter_filter_unsuitable], [iter_fill_rtt], [iter_filter_order],
      [iter_server_selection]);
    - [util/data/dname.c]: [query_dname_compare], [query_dname_tolower],
      [loopcheck] and [pkt_dname_len];
    - [services/outside_network.h]: the TCP wait queue and the serviced-query
      index, whose implementation file is not part of the sources and is
      modelled from the specification.

    C [int] values are integers of [Z] with the 32-bit two's-complement
    wrap-around written out ([wrap_int]); a singly linked list threaded
    through [next_result] is the Rocq list of its nodes in link order, every
    node carrying its own identity. *)

From Stdlib Require Import ZArith List Bool Lia Permutation Arith Relations.
From Stdlib Require Strings.Byte.
Import ListNotations.

Local Open Scope Z_scope.

(** ** C integers *)

Definition INT_MAX : Z := 2147483647.
Definition INT_MIN : Z := -2147483648.

(** Value of a mathematical integer once stored in a 32-bit [int]. *)
Definition wrap_int (z : Z) : Z := (z + 2147483648) mod 4294967296 - 2147483648.

Definition int_range (z : Z) : Prop := INT_MIN <= z <= INT_MAX.

Lemma wrap_int_id z : int_range z -> wrap_int z = z.
Proof.
  unfold int_range, INT_MIN, INT_MAX, wrap_int; intros H.
  rewrite Z.mod_small; lia.
Qed.

(** ** Generic list facts used by several components *)

Section ListFacts.
Context {A : Type}.

Lemma filter_none (f : A -> bool) (l : list A) :
  (forall x, In x l -> f x = false) -> filter f l = [].
Proof.
  induction l as [|x l IH]; intros H; simpl; [reflexivity|].
  rewrite (H x (or_introl eq_refl)). apply IH. intros y Hy. apply H. now right.
Qed.

End ListFacts.

(** ** iterator/iter_utils.c *)

Module Iter.

(** The tuning macros of the iterator come from headers that are not among
    the sources; they are parameters of the development. *)
Class iter_constants := {
  USEFUL_SERVER_TOP_TIMEOUT : Z;
  RTT_BAND : Z;
  OUTBOUND_MSG_RETRY : Z;
  UNKNOWN_SERVER_NICENESS : Z
}.

(** [struct sockaddr_storage] with its length: the family, the host and the
    port. *)
Inductive sockaddr : Type :=
| ip4 (host : Z) (port : Z)
| ip6 (host : Z) (port : Z).

(** Modelled from the spec: [addr_is_ip6] of util/net_help.c, which is not
    among the sources ("the address is IPv6"). *)
Definition addr_is_ip6 (a : sockaddr) : bool :=
  match a with ip6 _ _ => true | ip4 _ _ => false end.

(** [struct delegpt_addr]: [node] is the address of the struct itself and
    identifies the candidate; [next_result] is the position in the list. *)
Record delegpt_addr := mk_addr {
  node : positive;
  addr : sockaddr;
  attempts : Z;
  sel_rtt : Z
}.

Definition set_sel_rtt (a : delegpt_addr) (v : Z) : delegpt_addr :=
  {| node := node a; addr := addr a; attempts := attempts a; sel_rtt := v |}.

Definition set_attempts (a : delegpt_addr) (v : Z) : delegpt_addr :=
  {| node := node a; addr := addr a; attempts := v; sel_rtt := sel_rtt a |}.

(** [struct delegpt], restricted to the list that selection works on. *)
Record delegpt := mk_dp { result_list : list delegpt_addr }.

(** [struct iter_env]: the do-not-query set, by its lookup function, and the
    IPv6 switch. *)
Record iter_env := mk_iter_env {
  donotq : sockaddr -> bool;
  supports_ipv6 : bool
}.

Definition donotq_lookup (d : sockaddr -> bool) (a : sockaddr) : bool := d a.

(** Out-parameters of [infra_get_lame_rtt]. *)
Record lame_rtt := mk_lame_rtt {
  lame : bool;
  dnsseclame : bool;
  rtt : Z
}.

(** Modelled from the spec: [ub_random] of util/random.c, which is not among
    the sources ("uniform u32()"): the state is the sequence of draws still
    to come and the number already consumed. *)
Record ub_randstate := mk_rand {
  draws : nat -> N;
  consumed : nat
}.

Definition ub_random (s : ub_randstate) : Z * ub_randstate :=
  (Z.of_N (draws s (consumed s)),
   {| draws := draws s; consumed := S (consumed s) |}).

(** [struct module_env]: the infra cache by its lookup (address, zone name,
    query type, time), the random state and the clock. *)
Record module_env := mk_module_env {
  infra_cache : sockaddr -> list Z -> Z -> Z -> option lame_rtt;
  rnd : ub_randstate;
  now : Z
}.

Definition infra_get_lame_rtt
  (c : sockaddr -> list Z -> Z -> Z -> option lame_rtt)
  (a : sockaddr) (name : list Z) (qtype : Z) (timenow : Z) : option lame_rtt :=
  c a name qtype timenow.

Definition set_rnd (env : module_env) (s : ub_randstate) : module_env :=
  {| infra_cache := infra_cache env; rnd := s; now := now env |}.

Section Selection.
Context {K : iter_constants}.

(** filter out unsuitable targets, return rtt or -1 *)
Definition iter_filter_unsuitable (ie : iter_env) (env : module_env)
    (name : list Z) (qtype : Z) (timenow : Z) (a : delegpt_addr) : Z :=
  if donotq_lookup (donotq ie) (addr a) then -1
  else if negb (supports_ipv6 ie) && addr_is_ip6 (addr a) then -1
  else match infra_get_lame_rtt (infra_cache env) (addr a) name qtype timenow with
       | Some i =>
           if lame i then -1
           else if USEFUL_SERVER_TOP_TIMEOUT <=? rtt i then -1
           else if dnsseclame i
                then wrap_int (rtt i + USEFUL_SERVER_TOP_TIMEOUT)
                else rtt i
       | None => UNKNOWN_SERVER_NICENESS
       end.

(** The loop of [iter_fill_rtt] from node [l] on, with the current values
    of [got_it] and [*best_rtt]; returns the nodes with [sel_rtt] stored. *)
Fixpoint iter_fill_rtt_loop (ie : iter_env) (env : module_env)
    (name : list Z) (qtype : Z) (timenow : Z)
    (l : list delegpt_addr) (got_it : bool) (best_rtt : Z)
    : list delegpt_addr * bool * Z :=
  match l with
  | [] => ([], got_it, best_rtt)
  | a :: next =>
      let a' := set_sel_rtt a (iter_filter_unsuitable ie env name qtype timenow a) in
      let '(got_it', best_rtt') :=
        if sel_rtt a' =? -1 then (got_it, best_rtt)
        else if negb got_it then (true, sel_rtt a')
        else if sel_rtt a' <? best_rtt then (got_it, sel_rtt a')
        else (got_it, best_rtt) in
      let '(next', g, b) :=
        iter_fill_rtt_loop ie env name qtype timenow next got_it' best_rtt' in
      (a' :: next', g, b)
  end.

(** lookup RTT information, and also store fastest rtt (if any) *)
Definition iter_fill_rtt (ie : iter_env) (env : module_env)
    (name : list Z) (qtype : Z) (timenow : Z) (dp : delegpt) (best_rtt : Z)
    : bool * delegpt * Z :=
  let '(l, got_it, best) :=
    iter_fill_rtt_loop ie env name qtype timenow (result_list dp) false best_rtt in
  (got_it, mk_dp l, best).

(** The classification of one suitable server in [iter_filter_order]. *)
Definition swap_to_front (low_rtt : Z) (a : delegpt_addr) : bool :=
  if (low_rtt <=? sel_rtt a) && (wrap_int (sel_rtt a - low_rtt) <=? RTT_BAND)
  then true
  else if (sel_rtt a <? low_rtt) && (wrap_int (low_rtt - sel_rtt a) <=? RTT_BAND)
  then true
  else false.

(** The [while(a)] loop of [iter_filter_order].  The list is
    [done ++ todo]: [todo] starts at [a], [done] ends at [prev]
    ([prev] is NULL exactly when [done] is empty). *)
Fixpoint iter_filter_order_loop (low_rtt : Z)
    (done todo : list delegpt_addr) (got_num : Z)
    : list delegpt_addr * Z :=
  match todo with
  | [] => (done, got_num)
  | a :: n =>
      if sel_rtt a =? -1 then
        iter_filter_order_loop low_rtt (done ++ [a]) n got_num
      else
        let swap := swap_to_front low_rtt a in
        let got_num' := if swap then wrap_int (got_num + 1) else got_num in
        match swap, done with
        | true, _ :: _ =>
            iter_filter_order_loop low_rtt (a :: done) n got_num'
        | _, _ =>
            iter_filter_order_loop low_rtt (done ++ [a]) n got_num'
        end
  end.

(** filter the address list, putting best targets at front, returns number
    of best targets (or 0, no suitable targets); the third component is
    [*selected_rtt], written only when a suitable target exists. *)
Definition iter_filter_order (ie : iter_env) (env : module_env)
    (name : list Z) (qtype : Z) (timenow : Z) (dp : delegpt)
    : Z * delegpt * option Z :=
  let '(got_it, dp1, low_rtt) := iter_fill_rtt ie env name qtype timenow dp 0 in
  if negb got_it then (0, dp1, None)
  else
    let '(l, got_num) := iter_filter_order_loop low_rtt [] (result_list dp1) 0 in
    (got_num, mk_dp l, Some low_rtt).

(** What a call of [iter_server_selection] leaves behind: the returned
    node (NULL is [None]), the delegation point, [*dnssec_expected] and
    the random state. *)
Record selection := mk_selection {
  sel_ret : option delegpt_addr;
  sel_dp : delegpt;
  sel_dnssec_expected : Z;
  sel_rnd : ub_randstate
}.

(** The [while(sel > 0 && a)] walk: [before] ends at [prev], [a] is the
    rest of the list. *)
Fixpoint selection_walk (sel : Z) (before a : list delegpt_addr)
    : list delegpt_addr * list delegpt_addr :=
  match a with
  | [] => (before, [])
  | x :: next =>
      if 0 <? sel then selection_walk (sel - 1) (before ++ [x]) next
      else (before, a)
  end.

(** [++a->attempts] *)
Definition incr_attempts (a : delegpt_addr) : delegpt_addr :=
  set_attempts a (wrap_int (attempts a + 1)).

(** [iter_server_selection]; [None] stands for the dereference of a NULL
    [a], which the C code would perform on an empty list with [num == 1]. *)
Definition iter_server_selection (ie : iter_env) (env : module_env)
    (dp : delegpt) (name : list Z) (qtype : Z) (dnssec_expected : Z)
    : option selection :=
  let '(num, dp1, selrtt) := iter_filter_order ie env name qtype (now env) dp in
  if num =? 0 then Some (mk_selection None dp1 dnssec_expected (rnd env))
  else
    let dnssec_expected' :=
      match selrtt with
      | Some s => if USEFUL_SERVER_TOP_TIMEOUT <=? s then 0 else dnssec_expected
      | None => dnssec_expected
      end in
    if num =? 1 then
      match result_list dp1 with
      | [] => None
      | a :: next =>
          let a' := incr_attempts a in
          if attempts a' <? OUTBOUND_MSG_RETRY
          then Some (mk_selection (Some a') (mk_dp (a' :: next))
                       dnssec_expected' (rnd env))
          else Some (mk_selection (Some a') (mk_dp next)
                       dnssec_expected' (rnd env))
      end
    else
      let '(r, rnd') := ub_random (rnd env) in
      let sel := Z.rem r num in
      match selection_walk sel [] (result_list dp1) with
      | (_, []) => Some (mk_selection None dp1 dnssec_expected' rnd')
      | (before, a :: next) =>
          let a' := incr_attempts a in
          if attempts a' <? OUTBOUND_MSG_RETRY
          then Some (mk_selection (Some a') (mk_dp (before ++ a' :: next))
                       dnssec_expected' rnd')
          else
            match before with
            | _ :: _ => Some (mk_selection (Some a') (mk_dp (before ++ next))
                                dnssec_expected' rnd')
            | [] => Some (mk_selection (Some a') (mk_dp next)
                            dnssec_expected' rnd')
            end
      end.

(** *** Specification-side notions *)

(** The list once [iter_fill_rtt] has stored every [sel_rtt]. *)
Definition filled (ie : iter_env) (env : module_env) (name : list Z)
    (qtype timenow : Z) (l : list delegpt_addr) : list delegpt_addr :=
  map (fun a => set_sel_rtt a (iter_filter_unsuitable ie env name qtype timenow a)) l.

(** A survivor is a candidate whose [sel_rtt] is not the marker -1. *)
Definition suitable (a : delegpt_addr) : bool := negb (sel_rtt a =? -1).

(** Minimum [sel_rtt] over the survivors, if there is a survivor. *)
Fixpoint low_rtt_of (l : list delegpt_addr) : option Z :=
  match l with
  | [] => None
  | a :: l' =>
      if suitable a then
        Some (match low_rtt_of l' with
              | Some m => Z.min (sel_rtt a) m
              | None => sel_rtt a
              end)
      else low_rtt_of l'
  end.

(** Survivor whose [sel_rtt] is within [RTT_BAND] of [low]. *)
Definition in_band (low : Z) (a : delegpt_addr) : bool :=
  suitable a && (Z.abs (sel_rtt a - low) <=? RTT_BAND).

Definition in_best (low : option Z) (a : delegpt_addr) : bool :=
  match low with Some m => in_band m a | None => false end.

(** The best set of a list with stored [sel_rtt], in list order. *)
Definition best_set (l : list delegpt_addr) : list delegpt_addr :=
  filter (in_best (low_rtt_of l)) l.

(** The candidates outside the best set, in list order. *)
Definition rest_set (l : list delegpt_addr) : list delegpt_addr :=
  filter (fun a => negb (in_best (low_rtt_of l) a)) l.

(** Ranges within which the C arithmetic does not overflow. *)
Definition constants_ok : Prop :=
  0 <= USEFUL_SERVER_TOP_TIMEOUT <= 1073741824 /\
  0 <= UNKNOWN_SERVER_NICENESS <= INT_MAX.

Definition infra_ok (env : module_env) : Prop :=
  forall a name qtype timenow i,
    infra_cache env a name qtype timenow = Some i -> 0 <= rtt i <= INT_MAX.

Definition rtt_ok (l : list delegpt_addr) : Prop :=
  Forall (fun a => sel_rtt a = -1 \/ 0 <= sel_rtt a <= INT_MAX) l.


(** A well-formed result list: pairwise distinct nodes, and few enough of
    them for an [int] counter. *)
Definition list_ok (l : list delegpt_addr) : Prop :=
  NoDup (map node l) /\ Z.of_nat (length l) <= INT_MAX.

(** Index that [iter_server_selection] walks to among [n] best targets
    when the random draw is [r]. *)
Definition chosen_index (n : nat) (r : Z) : nat :=
  if Z.of_nat n =? 1 then 0%nat else Z.to_nat (Z.rem r (Z.of_nat n)).

(** *** The fill pass *)

Lemma filled_length ie env name qtype t l :
  length (filled ie env name qtype t l) = length l.
Proof. apply length_map. Qed.

Lemma filled_nodes ie env name qtype t l :
  map node (filled ie env name qtype t l) = map node l.
Proof. unfold filled; rewrite map_map; reflexivity. Qed.

Lemma iter_fill_rtt_loop_spec ie env name qtype t l :
  forall got best,
    iter_fill_rtt_loop ie env name qtype t l got best =
    (filled ie env name qtype t l,
     got || existsb suitable (filled ie env name qtype t l),
     match low_rtt_of (filled ie env name qtype t l) with
     | Some m => if got then Z.min best m else m
     | None => best
     end).
Proof.
  induction l as [|a l IH]; intros got best; simpl.
  - now rewrite orb_false_r.
  - set (v := iter_filter_unsuitable ie env name qtype t a).
    unfold suitable at 1 3; simpl.
    destruct (v =? -1) eqn:Ev; simpl.
    + rewrite IH. reflexivity.
    + destruct got; simpl.
      * destruct (v <? best) eqn:Elt; rewrite IH; simpl;
          (apply Z.ltb_lt in Elt || apply Z.ltb_ge in Elt);
          destruct (low_rtt_of _); apply f_equal; lia.
      * rewrite IH; simpl. destruct (low_rtt_of _); reflexivity.
Qed.

Lemma existsb_suitable_low l :
  existsb suitable l = match low_rtt_of l with Some _ => true | None => false end.
Proof.
  induction l as [|a l IH]; simpl; [reflexivity|].
  destruct (suitable a); simpl; [reflexivity | exact IH].
Qed.

Lemma low_rtt_of_lower l m :
  low_rtt_of l = Some m ->
  forall a, In a l -> suitable a = true -> m <= sel_rtt a.
Proof.
  revert m; induction l as [|x l IH]; simpl; intros m Hm a Ha Hs; [tauto|].
  destruct (suitable x) eqn:Ex.
  - injection Hm as <-. destruct Ha as [<- | Ha].
    + destruct (low_rtt_of l); lia.
    + destruct (low_rtt_of l) as [m'|] eqn:El.
      * specialize (IH m' eq_refl a Ha Hs); lia.
      * assert (H : existsb suitable l = true)
          by (apply existsb_exists; now exists a).
        rewrite existsb_suitable_low, El in H; discriminate.
  - destruct Ha as [<- | Ha]; [congruence | eauto].
Qed.

Lemma low_rtt_of_attained l m :
  low_rtt_of l = Some m ->
  exists a, In a l /\ suitable a = true /\ sel_rtt a = m.
Proof.
  revert m; induction l as [|x l IH]; simpl; intros m Hm; [discriminate|].
  destruct (suitable x) eqn:Ex.
  - injection Hm as <-. destruct (low_rtt_of l) as [m'|].
    + destruct (Z.min_spec (sel_rtt x) m') as [[_ ->] | [_ ->]].
      * exists x; auto.
      * destruct (IH m' eq_refl) as (a & ? & ? & ?); exists a; auto.
    + exists x; auto.
  - destruct (IH m Hm) as (a & ? & ? & ?); exists a; auto.
Qed.

(** *** Range of the stored RTTs *)

Lemma iter_filter_unsuitable_range ie env name qtype t a :
  constants_ok -> infra_ok env ->
  let v := iter_filter_unsuitable ie env name qtype t a in
  v = -1 \/ 0 <= v <= INT_MAX.
Proof.
  intros [HU HN] Hi; unfold iter_filter_unsuitable, infra_get_lame_rtt; simpl.
  destruct (donotq_lookup _ _); [now left|].
  destruct (negb _ && _); [now left|].
  destruct (infra_cache env (addr a) name qtype t) as [i|] eqn:Ei; [|now right].
  specialize (Hi _ _ _ _ _ Ei).
  destruct (lame i); [now left|].
  destruct (USEFUL_SERVER_TOP_TIMEOUT <=? rtt i) eqn:Eu; [now left|].
  apply Z.leb_gt in Eu. right.
  destruct (dnsseclame i); [|lia].
  rewrite wrap_int_id; unfold int_range, INT_MIN, INT_MAX in *; lia.
Qed.

Lemma filled_rtt_ok ie env name qtype t l :
  constants_ok -> infra_ok env -> rtt_ok (filled ie env name qtype t l).
Proof.
  intros Hc Hi; unfold rtt_ok, filled.
  apply Forall_forall; intros a Ha.
  apply in_map_iff in Ha as (a0 & <- & _); simpl.
  now apply iter_filter_unsuitable_range.
Qed.

Lemma rtt_ok_suitable l a :
  rtt_ok l -> In a l -> suitable a = true -> 0 <= sel_rtt a <= INT_MAX.
Proof.
  intros Hl Ha Hs. unfold rtt_ok in Hl; rewrite Forall_forall in Hl.
  destruct (Hl a Ha) as [E|]; [|assumption].
  unfold suitable in Hs; rewrite E in Hs; discriminate.
Qed.

Lemma rtt_ok_low l m :
  rtt_ok l -> low_rtt_of l = Some m -> 0 <= m <= INT_MAX.
Proof.
  intros Hl Hm. destruct (low_rtt_of_attained _ _ Hm) as (a & Ha & Hs & <-).
  eapply rtt_ok_suitable; eauto.
Qed.

(** *** The ordering pass *)

(** Away from overflow, the two-sided test of [iter_filter_order] is the
    distance test of the band. *)
Lemma swap_to_front_band low a :
  0 <= low <= INT_MAX -> 0 <= sel_rtt a <= INT_MAX ->
  swap_to_front low a = (Z.abs (sel_rtt a - low) <=? RTT_BAND).
Proof.
  intros Hl Ha; unfold swap_to_front.
  rewrite !wrap_int_id by (unfold int_range, INT_MIN, INT_MAX in *; lia).
  destruct (low <=? sel_rtt a) eqn:E1; simpl.
  - apply Z.leb_le in E1. rewrite Z.abs_eq by lia.
    destruct (sel_rtt a - low <=? RTT_BAND) eqn:E2; [reflexivity|].
    assert (E3 : (sel_rtt a <? low) = false) by (apply Z.ltb_ge; lia).
    now rewrite E3.
  - apply Z.leb_gt in E1.
    assert (E3 : (sel_rtt a <? low) = true) by (apply Z.ltb_lt; lia).
    rewrite E3; simpl. rewrite Z.abs_neq by lia.
    replace (- (sel_rtt a - low)) with (low - sel_rtt a) by lia.
    now destruct (low - sel_rtt a <=? RTT_BAND).
Qed.

Lemma iter_filter_order_loop_spec low :
  0 <= low <= INT_MAX ->
  forall todo done got,
    rtt_ok todo -> 0 <= got -> got + Z.of_nat (length todo) <= INT_MAX ->
    iter_filter_order_loop low done todo got =
    (rev (filter (in_band low) todo) ++ done
       ++ filter (fun a => negb (in_band low a)) todo,
     got + Z.of_nat (length (filter (in_band low) todo))).
Proof.
  intros Hlow; induction todo as [|a n IH]; intros done got Hok Hg Hlen.
  - simpl. now rewrite app_nil_r, Z.add_0_r.
  - inversion Hok as [|? ? Ha Hn]; subst.
    cbn [iter_filter_order_loop filter length] in *.
    pose proof (Zle_0_nat (length n)) as Hn0.
    destruct (sel_rtt a =? -1) eqn:Em.
    + assert (Hb : in_band low a = false)
        by (unfold in_band, suitable; now rewrite Em).
      rewrite Hb; cbn [negb]. rewrite IH by (auto; lia).
      now rewrite <- app_assoc.
    + apply Z.eqb_neq in Em. destruct Ha as [Ha|Ha]; [contradiction|].
      assert (Hb : in_band low a = swap_to_front low a).
      { rewrite swap_to_front_band by assumption. unfold in_band, suitable.
        apply Z.eqb_neq in Em. now rewrite Em. }
      rewrite Hb. destruct (swap_to_front low a); cbn [negb].
      * rewrite wrap_int_id by (unfold int_range, INT_MIN, INT_MAX in *; lia).
        assert (Hres :
          iter_filter_order_loop low
            (match done with [] => done ++ [a] | _ :: _ => a :: done end)
            n (got + 1) =
          (rev (a :: filter (in_band low) n) ++ done
             ++ filter (fun a0 => negb (in_band low a0)) n,
           got + Z.of_nat (length (a :: filter (in_band low) n)))).
        { cbn [rev length]. rewrite Nat2Z.inj_succ.
          destruct done; rewrite IH by (auto; lia); cbn [app];
            rewrite <- ?app_assoc; f_equal; lia. }
        destruct done; exact Hres.
      * rewrite IH by (auto; lia). now rewrite <- app_assoc.
Qed.

Lemma filter_in_best_none (l : list delegpt_addr) :
  filter (fun a => negb (in_best None a)) l = l.
Proof. induction l as [|a l IH]; simpl in *; [reflexivity | f_equal; exact IH]. Qed.

(** [iter_filter_order] puts the best set, reversed, in front of the other
    candidates, and returns its size and the lowest RTT. *)
Lemma iter_filter_order_spec ie env name qtype t dp :
  constants_ok -> infra_ok env ->
  Z.of_nat (length (result_list dp)) <= INT_MAX ->
  let f := filled ie env name qtype t (result_list dp) in
  iter_filter_order ie env name qtype t dp =
  (Z.of_nat (length (best_set f)), mk_dp (rev (best_set f) ++ rest_set f),
   low_rtt_of f).
Proof.
  intros Hc Hi Hlen f. unfold iter_filter_order, iter_fill_rtt.
  rewrite iter_fill_rtt_loop_spec; fold f. cbn [orb result_list].
  rewrite existsb_suitable_low. unfold best_set, rest_set.
  destruct (low_rtt_of f) as [m|] eqn:El; cbn [negb].
  - rewrite iter_filter_order_loop_spec.
    + reflexivity.
    + eapply rtt_ok_low; eauto. now apply filled_rtt_ok.
    + now apply filled_rtt_ok.
    + lia.
    + subst f; rewrite filled_length; lia.
  - rewrite filter_in_best_none.
    replace (filter (in_best None) f) with (@nil delegpt_addr)
      by (clear; induction f; simpl; auto).
    reflexivity.
Qed.

(** *** The selection *)

Lemma selection_walk_spec l :
  forall sel before,
    selection_walk sel before l =
    (before ++ firstn (Z.to_nat sel) l, skipn (Z.to_nat sel) l).
Proof.
  induction l as [|x l IH]; intros sel before; simpl.
  - now rewrite firstn_nil, skipn_nil, app_nil_r.
  - destruct (0 <? sel) eqn:E.
    + apply Z.ltb_lt in E. rewrite IH.
      replace (Z.to_nat sel) with (S (Z.to_nat (sel - 1))) by lia.
      simpl. now rewrite <- app_assoc.
    + apply Z.ltb_ge in E. replace (Z.to_nat sel) with 0%nat by lia.
      simpl. now rewrite app_nil_r.
Qed.

Lemma skipn_nth_error {A} (l : list A) k b :
  nth_error l k = Some b -> skipn k l = b :: skipn (S k) l.
Proof.
  revert k; induction l as [|x l IH]; intros [|k] H; simpl in *;
    try discriminate.
  - now injection H as ->.
  - now apply IH.
Qed.

Lemma chosen_index_lt n r :
  (0 < n)%nat -> 0 <= r -> (chosen_index n r < n)%nat.
Proof.
  intros Hn Hr; unfold chosen_index.
  destruct (Z.of_nat n =? 1); [lia|].
  pose proof (Z.rem_bound_pos r (Z.of_nat n) Hr ltac:(lia)). lia.
Qed.

(** Value of [*dnssec_expected] after a call that found [low] as lowest
    RTT. *)
Definition dnssec_after (low : option Z) (dnssec_expected : Z) : Z :=
  match low with
  | Some s => if USEFUL_SERVER_TOP_TIMEOUT <=? s then 0 else dnssec_expected
  | None => dnssec_expected
  end.

(** The result list after node [k] of [l] was returned as [a']. *)
Definition relink (l : list delegpt_addr) (k : nat) (a' : delegpt_addr)
    : list delegpt_addr :=
  if attempts a' <? OUTBOUND_MSG_RETRY
  then firstn k l ++ a' :: skipn (S k) l
  else firstn k l ++ skipn (S k) l.

(** Closed form of [iter_server_selection]: with [n] best targets and draw
    [r], the node at index [chosen_index n r] of the reordered list is
    returned. *)
Lemma iter_server_selection_spec ie env dp name qtype d :
  constants_ok -> infra_ok env ->
  Z.of_nat (length (result_list dp)) <= INT_MAX ->
  let f := filled ie env name qtype (now env) (result_list dp) in
  let l := rev (best_set f) ++ rest_set f in
  let n := length (best_set f) in
  let k := chosen_index n (fst (ub_random (rnd env))) in
  iter_server_selection ie env dp name qtype d =
  Some match nth_error (rev (best_set f)) k with
       | None => mk_selection None (mk_dp l) d (rnd env)
       | Some b =>
           mk_selection (Some (incr_attempts b))
             (mk_dp (relink l k (incr_attempts b)))
             (dnssec_after (low_rtt_of f) d)
             (if Z.of_nat n =? 1 then rnd env else snd (ub_random (rnd env)))
       end.
Proof.
  intros Hc Hi Hlen f l n k. unfold iter_server_selection.
  rewrite iter_filter_order_spec by assumption. fold f n l.
  cbn [result_list]. fold (dnssec_after (low_rtt_of f) d).
  destruct (Z.of_nat n =? 0) eqn:E0.
  { apply Z.eqb_eq in E0. assert (Hn : n = 0%nat) by lia.
    assert (Hb : best_set f = []) by (now apply length_zero_iff_nil).
    rewrite Hb; simpl. now destruct k. }
  apply Z.eqb_neq in E0. subst k; unfold chosen_index, relink.
  destruct (Z.of_nat n =? 1) eqn:E1.
  { apply Z.eqb_eq in E1. assert (Hn : n = 1%nat) by lia.
    subst n l. rewrite <- length_rev in Hn.
    destruct (rev (best_set f)) as [|b [|? ?]]; try discriminate.
    cbn [app nth_error firstn skipn].
    now destruct (attempts (incr_attempts b) <? OUTBOUND_MSG_RETRY). }
  apply Z.eqb_neq in E1.
  destruct (ub_random (rnd env)) as [r rnd'] eqn:Er. cbn [fst snd].
  assert (Hr : 0 <= r).
  { unfold ub_random in Er; injection Er as <- _. apply N2Z.is_nonneg. }
  pose proof (Z.rem_bound_pos r (Z.of_nat n) Hr ltac:(lia)) as Hk.
  set (k := Z.to_nat (Z.rem r (Z.of_nat n))).
  assert (Hkn : (k < length (rev (best_set f)))%nat)
    by (rewrite length_rev; fold n; lia).
  rewrite selection_walk_spec; cbn [app]. fold k.
  destruct (nth_error (rev (best_set f)) k) as [b|] eqn:Eb;
    [|apply nth_error_None in Eb; lia].
  assert (Ebl : nth_error l k = Some b)
    by (subst l; now rewrite nth_error_app1).
  rewrite (skipn_nth_error _ _ _ Ebl).
  destruct (attempts (incr_attempts b) <? OUTBOUND_MSG_RETRY); [reflexivity|].
  now destruct (firstn k l).
Qed.

(** *** Facts that hold whatever the ranges *)

Lemma iter_filter_order_loop_perm low todo :
  forall done got,
    Permutation (fst (iter_filter_order_loop low done todo got)) (done ++ todo).
Proof.
  induction todo as [|a n IH]; intros done got; simpl.
  - now rewrite app_nil_r.
  - assert (Hkeep : forall g,
      Permutation (fst (iter_filter_order_loop low (done ++ [a]) n g))
                  (done ++ a :: n)).
    { intros g. rewrite IH, <- app_assoc. reflexivity. }
    destruct (sel_rtt a =? -1); [apply Hkeep|].
    destruct (swap_to_front low a); [|apply Hkeep].
    destruct done as [|p done]; [apply Hkeep|].
    rewrite IH. apply (Permutation_middle (p :: done) n a).
Qed.

Lemma iter_filter_order_perm ie env name qtype t dp :
  Permutation (result_list (snd (fst (iter_filter_order ie env name qtype t dp))))
              (filled ie env name qtype t (result_list dp)).
Proof.
  unfold iter_filter_order, iter_fill_rtt.
  rewrite iter_fill_rtt_loop_spec. cbn [orb].
  destruct (negb _); cbn [fst snd result_list]; [reflexivity|].
  match goal with
  | |- context [iter_filter_order_loop ?m [] ?l 0] =>
      pose proof (iter_filter_order_loop_perm m l [] 0) as H;
      destruct (iter_filter_order_loop m [] l 0)
  end.
  exact H.
Qed.

(** The shapes in which [iter_server_selection] can leave the list that
    [iter_filter_order] produced. *)
Inductive selection_shape (l1 : list delegpt_addr) (s : selection) : Prop :=
| shape_none :
    sel_ret s = None -> result_list (sel_dp s) = l1 ->
    selection_shape l1 s
| shape_kept before a next :
    l1 = before ++ a :: next ->
    sel_ret s = Some (incr_attempts a) ->
    attempts (incr_attempts a) < OUTBOUND_MSG_RETRY ->
    result_list (sel_dp s) = before ++ incr_attempts a :: next ->
    selection_shape l1 s
| shape_unlinked before a next :
    l1 = before ++ a :: next ->
    sel_ret s = Some (incr_attempts a) ->
    OUTBOUND_MSG_RETRY <= attempts (incr_attempts a) ->
    result_list (sel_dp s) = before ++ next ->
    selection_shape l1 s.

Lemma iter_server_selection_shape ie env dp name qtype d s :
  iter_server_selection ie env dp name qtype d = Some s ->
  selection_shape
    (result_list (snd (fst (iter_filter_order ie env name qtype (now env) dp)))) s.
Proof.
  unfold iter_server_selection.
  destruct (iter_filter_order ie env name qtype (now env) dp)
    as [[num dp1] selrtt]. cbn [fst snd].
  destruct (num =? 0); [intros [= <-]; now apply shape_none|].
  destruct (num =? 1).
  - destruct (result_list dp1) as [|a next] eqn:El; [discriminate|].
    destruct (attempts (incr_attempts a) <? OUTBOUND_MSG_RETRY) eqn:Ea;
      intros [= <-].
    + apply Z.ltb_lt in Ea. now apply shape_kept with [] a next.
    + apply Z.ltb_ge in Ea. now apply shape_unlinked with [] a next.
  - destruct (ub_random (rnd env)) as [r rnd'].
    rewrite selection_walk_spec. cbn [app].
    set (k := Z.to_nat (Z.rem r num)).
    pose proof (firstn_skipn k (result_list dp1)) as Hsplit.
    destruct (skipn k (result_list dp1)) as [|a next];
      [intros [= <-]; now apply shape_none|].
    destruct (attempts (incr_attempts a) <? OUTBOUND_MSG_RETRY) eqn:Ea.
    + intros [= <-]. apply Z.ltb_lt in Ea.
      now apply shape_kept with (firstn k (result_list dp1)) a next.
    + apply Z.ltb_ge in Ea.
      destruct (firstn k (result_list dp1)) as [|p before] eqn:Ef;
        intros [= <-].
      * now apply shape_unlinked with [] a next.
      * now apply shape_unlinked with (p :: before) a next.
Qed.


Lemma incr_attempts_sel_rtt a : sel_rtt (incr_attempts a) = sel_rtt a.
Proof. reflexivity. Qed.

(** Nodes of the list after a call, against the nodes before it. *)
Lemma iter_server_selection_nodes ie env dp name qtype d s :
  iter_server_selection ie env dp name qtype d = Some s ->
  match sel_ret s with
  | Some a =>
      if attempts a <? OUTBOUND_MSG_RETRY
      then Permutation (map node (result_list (sel_dp s)))
                       (map node (result_list dp))
      else Permutation (node a :: map node (result_list (sel_dp s)))
                       (map node (result_list dp))
  | None => Permutation (map node (result_list (sel_dp s)))
                        (map node (result_list dp))
  end.
Proof.
  intros Hs. pose proof (iter_server_selection_shape _ _ _ _ _ _ _ Hs) as Hsh.
  pose proof (iter_filter_order_perm ie env name qtype (now env) dp) as Hp.
  apply (Permutation_map node) in Hp. rewrite filled_nodes in Hp.
  destruct Hsh as [Hr Hl | before a next Hl Hr Ha Hl' | before a next Hl Hr Ha Hl'];
    rewrite Hr.
  - now rewrite Hl.
  - apply Z.ltb_lt in Ha; rewrite Ha. rewrite <- Hp, Hl, Hl'.
    rewrite !map_app; reflexivity.
  - apply Z.ltb_ge in Ha; rewrite Ha. rewrite <- Hp, Hl, Hl'.
    rewrite !map_app. cbn [map]. apply Permutation_middle.
Qed.


(** *** Rejection of unsuitable candidates *)

(** The grounds on which target selection rejects a candidate: the
    do-not-query list, IPv6 without IPv6 support, lameness for the zone,
    a cached RTT at or above [USEFUL_SERVER_TOP_TIMEOUT]. *)
Definition excluded (ie : iter_env) (env : module_env) (name : list Z)
    (qtype timenow : Z) (a : delegpt_addr) : Prop :=
  donotq_lookup (donotq ie) (addr a) = true \/
  (supports_ipv6 ie = false /\ addr_is_ip6 (addr a) = true) \/
  (exists i, infra_get_lame_rtt (infra_cache env) (addr a) name qtype timenow = Some i
             /\ lame i = true) \/
  (exists i, infra_get_lame_rtt (infra_cache env) (addr a) name qtype timenow = Some i
             /\ USEFUL_SERVER_TOP_TIMEOUT <= rtt i).

Lemma iter_filter_unsuitable_excluded ie env name qtype t a :
  constants_ok -> infra_ok env ->
  (iter_filter_unsuitable ie env name qtype t a = -1 <->
   excluded ie env name qtype t a).
Proof.
  intros [HU HN] Hi; unfold iter_filter_unsuitable, excluded.
  destruct (donotq_lookup (donotq ie) (addr a)); [tauto|].
  destruct (negb (supports_ipv6 ie) && addr_is_ip6 (addr a)) eqn:E6.
  { apply andb_prop in E6 as [E6 ?]. apply negb_true_iff in E6. tauto. }
  assert (H6 : ~ (supports_ipv6 ie = false /\ addr_is_ip6 (addr a) = true)).
  { intros [E1 E2]. rewrite E1, E2 in E6. discriminate. }
  destruct (infra_get_lame_rtt (infra_cache env) (addr a) name qtype t)
    as [i|] eqn:Ei.
  - pose proof (Hi _ _ _ _ _ Ei) as Hr.
    destruct (lame i) eqn:El.
    { split; [intros _; right; right; left; now exists i | reflexivity]. }
    destruct (USEFUL_SERVER_TOP_TIMEOUT <=? rtt i) eqn:Eu.
    { apply Z.leb_le in Eu.
      split; [intros _; right; right; right; now exists i | reflexivity]. }
    apply Z.leb_gt in Eu.
    assert (Hv : (if dnsseclame i
                  then wrap_int (rtt i + USEFUL_SERVER_TOP_TIMEOUT)
                  else rtt i) <> -1).
    { destruct (dnsseclame i);
        [rewrite wrap_int_id; unfold int_range, INT_MIN, INT_MAX in *|]; lia. }
    split; [intros E; contradiction|].
    intros [H|[H|[(j & Hj & H)|(j & Hj & H)]]];
      try discriminate; try contradiction;
      injection Hj as <-; [congruence | lia].
  - split; [unfold INT_MAX in *; lia|].
    intros [H|[H|[(j & Hj & H)|(j & Hj & H)]]];
      try discriminate; contradiction.
Qed.

(** C2. The fill pass stores in every candidate's [sel_rtt] the verdict of
    [iter_filter_unsuitable]: the marker -1 exactly for the candidates that
    are on the do-not-query list, are IPv6 while IPv6 is off, are lame for
    the zone or have a cached RTT at or above [USEFUL_SERVER_TOP_TIMEOUT];
    for a dnssec-lame survivor the cached RTT plus
    [USEFUL_SERVER_TOP_TIMEOUT]; for a survivor without infra-cache entry
    [UNKNOWN_SERVER_NICENESS]. *)
Theorem iter_fill_rtt_marks_unsuitable ie env name qtype t dp best0 :
  constants_ok -> infra_ok env ->
  Forall2
    (fun a a' =>
       node a' = node a /\ addr a' = addr a /\ attempts a' = attempts a /\
       (sel_rtt a' = -1 <-> excluded ie env name qtype t a) /\
       (forall i, ~ excluded ie env name qtype t a ->
          infra_get_lame_rtt (infra_cache env) (addr a) name qtype t = Some i ->
          dnsseclame i = true ->
          sel_rtt a' = rtt i + USEFUL_SERVER_TOP_TIMEOUT) /\
       (forall i, ~ excluded ie env name qtype t a ->
          infra_get_lame_rtt (infra_cache env) (addr a) name qtype t = Some i ->
          dnsseclame i = false ->
          sel_rtt a' = rtt i) /\
       (~ excluded ie env name qtype t a ->
          infra_get_lame_rtt (infra_cache env) (addr a) name qtype t = None ->
          sel_rtt a' = UNKNOWN_SERVER_NICENESS))
    (result_list dp)
    (result_list (snd (fst (iter_fill_rtt ie env name qtype t dp best0)))).
Proof.
  intros Hc Hi. unfold iter_fill_rtt. rewrite iter_fill_rtt_loop_spec.
  cbn [fst snd result_list]. unfold filled.
  induction (result_list dp) as [|a l IH]; cbn [map]; constructor; [|exact IH].
  cbn [node addr attempts sel_rtt set_sel_rtt].
  pose proof (iter_filter_unsuitable_excluded ie env name qtype t a Hc Hi) as Hx.
  repeat split; try (apply Hx).
  - intros i Hn Ei Ed.
    assert (Hne : iter_filter_unsuitable ie env name qtype t a <> -1) by tauto.
    revert Hne. unfold iter_filter_unsuitable.
    destruct (donotq_lookup _ _); [congruence|].
    destruct (negb _ && _); [congruence|]. rewrite Ei.
    destruct (lame i); [congruence|].
    destruct (USEFUL_SERVER_TOP_TIMEOUT <=? rtt i) eqn:Eu; [congruence|].
    rewrite Ed. intros _. apply Z.leb_gt in Eu. pose proof (Hi _ _ _ _ _ Ei).
    destruct Hc as [HU _].
    rewrite wrap_int_id; unfold int_range, INT_MIN, INT_MAX in *; lia.
  - intros i Hn Ei Ed.
    assert (Hne : iter_filter_unsuitable ie env name qtype t a <> -1) by tauto.
    revert Hne. unfold iter_filter_unsuitable.
    destruct (donotq_lookup _ _); [congruence|].
    destruct (negb _ && _); [congruence|]. rewrite Ei.
    destruct (lame i); [congruence|].
    destruct (USEFUL_SERVER_TOP_TIMEOUT <=? rtt i) eqn:Eu; [congruence|].
    now rewrite Ed.
  - intros Hn Ei.
    assert (Hne : iter_filter_unsuitable ie env name qtype t a <> -1) by tauto.
    revert Hne. unfold iter_filter_unsuitable.
    destruct (donotq_lookup _ _); [congruence|].
    destruct (negb _ && _); [congruence|]. now rewrite Ei.
Qed.

(** *** Reordering *)

(** The reading under which the best set would keep its relative order:
    the front of the reordered list is the best set as it was ordered
    before the pass. *)
Definition front_keeps_order (ie : iter_env) (env : module_env)
    (name : list Z) (qtype timenow : Z) (dp : delegpt) : Prop :=
  let f := filled ie env name qtype timenow (result_list dp) in
  firstn (length (best_set f))
    (result_list (snd (fst (iter_filter_order ie env name qtype timenow dp))))
  = best_set f.

(** C4, as amended. After [iter_filter_order] the front of the list is the
    best set (the survivors whose [sel_rtt] is within [RTT_BAND] of the
    lowest survivor RTT) in the reverse of the order it had before the
    pass; behind it come all other candidates in their former order; the
    returned count is the size of the best set. *)
Theorem iter_filter_order_front_reversed ie env name qtype t dp :
  constants_ok -> infra_ok env ->
  Z.of_nat (length (result_list dp)) <= INT_MAX ->
  let f := filled ie env name qtype t (result_list dp) in
  let n := length (best_set f) in
  let res := iter_filter_order ie env name qtype t dp in
  fst (fst res) = Z.of_nat n /\
  firstn n (result_list (snd (fst res))) = rev (best_set f) /\
  skipn n (result_list (snd (fst res))) = rest_set f /\
  (forall a, In a (best_set f) <->
             In a f /\ suitable a = true /\
             exists low, low_rtt_of f = Some low /\
                         Z.abs (sel_rtt a - low) <= RTT_BAND).
Proof.
  intros Hc Hi Hlen f n res. subst res.
  rewrite iter_filter_order_spec by assumption. fold f. cbn [fst snd result_list].
  assert (Hn : n = length (rev (best_set f))) by (now rewrite length_rev).
  repeat split.
  - rewrite Hn, firstn_app, Nat.sub_diag, firstn_all. cbn [firstn].
    now rewrite app_nil_r.
  - rewrite Hn, skipn_app, Nat.sub_diag, skipn_all. reflexivity.
  - apply filter_In in H. tauto.
  - apply filter_In in H as [_ H]. destruct (low_rtt_of f); [|discriminate].
    apply andb_prop in H. tauto.
  - apply filter_In in H as [_ H].
    destruct (low_rtt_of f) as [low|]; [|discriminate].
    exists low; split; [reflexivity|].
    apply andb_prop in H as [_ H]. now apply Z.leb_le.
  - intros (Hin & Hs & low & Hl & Hb). apply filter_In; split; [assumption|].
    rewrite Hl. cbn [in_best]. unfold in_band. rewrite Hs.
    now apply Z.leb_le.
Qed.

(** C9. [iter_filter_order] leaves the result list a permutation of what
    it was (the same nodes, with only [sel_rtt] rewritten), and
    [iter_server_selection] leaves the nodes a permutation of the input
    unless it returns a candidate whose attempt counter has reached
    [OUTBOUND_MSG_RETRY]: then exactly the returned node is gone. *)
Theorem result_list_permutation ie env dp name qtype d :
  let ordered := snd (fst (iter_filter_order ie env name qtype (now env) dp)) in
  Permutation (result_list ordered)
              (filled ie env name qtype (now env) (result_list dp)) /\
  Permutation (map node (result_list ordered)) (map node (result_list dp)) /\
  forall s, iter_server_selection ie env dp name qtype d = Some s ->
    match sel_ret s with
    | Some a =>
        if attempts a <? OUTBOUND_MSG_RETRY
        then Permutation (map node (result_list (sel_dp s)))
                         (map node (result_list dp))
        else Permutation (node a :: map node (result_list (sel_dp s)))
                         (map node (result_list dp))
    | None => Permutation (map node (result_list (sel_dp s)))
                          (map node (result_list dp))
    end.
Proof.
  intros ordered. pose proof (iter_filter_order_perm ie env name qtype (now env) dp) as Hp.
  repeat split.
  - exact Hp.
  - apply (Permutation_map node) in Hp. now rewrite filled_nodes in Hp.
  - intros s Hs. exact (iter_server_selection_nodes _ _ _ _ _ _ _ Hs).
Qed.

(** *** The dnssec-expected flag *)

Lemma best_set_low_le f low b :
  rtt_ok f -> low_rtt_of f = Some low -> In b (best_set f) ->
  low <= sel_rtt b.
Proof.
  intros Hok Hl Hb. apply filter_In in Hb as [Hin Hb].
  rewrite Hl in Hb. apply andb_prop in Hb as [Hs _].
  eapply low_rtt_of_lower; eauto.
Qed.

(** The reading under which the flag would follow the chosen candidate:
    a call entered with the flag set returns with the flag cleared exactly
    when the returned candidate's [sel_rtt] is at or above the threshold. *)
Definition cleared_iff_chosen_slow (ie : iter_env) (env : module_env)
    (dp : delegpt) (name : list Z) (qtype : Z) : Prop :=
  forall s a,
    iter_server_selection ie env dp name qtype 1 = Some s ->
    sel_ret s = Some a ->
    (sel_dnssec_expected s = 0 <-> USEFUL_SERVER_TOP_TIMEOUT <= sel_rtt a).

(** C3, as amended. When a candidate is returned, [*dnssec_expected] is
    cleared exactly when the lowest survivor RTT reaches
    [USEFUL_SERVER_TOP_TIMEOUT], and is otherwise left as it was; the
    chosen candidate's own RTT is at least that lowest RTT, so a cleared
    flag implies a chosen RTT at or above the threshold, and a chosen RTT
    below the threshold implies an unchanged flag. *)
Theorem dnssec_expected_follows_low_rtt ie env dp name qtype d s a :
  constants_ok -> infra_ok env ->
  Z.of_nat (length (result_list dp)) <= INT_MAX ->
  iter_server_selection ie env dp name qtype d = Some s ->
  sel_ret s = Some a ->
  exists low,
    low_rtt_of (filled ie env name qtype (now env) (result_list dp)) = Some low /\
    low <= sel_rtt a /\
    (USEFUL_SERVER_TOP_TIMEOUT <= low ->
       sel_dnssec_expected s = 0 /\ USEFUL_SERVER_TOP_TIMEOUT <= sel_rtt a) /\
    (low < USEFUL_SERVER_TOP_TIMEOUT -> sel_dnssec_expected s = d) /\
    (sel_rtt a < USEFUL_SERVER_TOP_TIMEOUT -> sel_dnssec_expected s = d).
Proof.
  intros Hc Hi Hlen Hs Ha.
  rewrite (iter_server_selection_spec ie env dp name qtype d Hc Hi Hlen) in Hs.
  set (f := filled ie env name qtype (now env) (result_list dp)) in *.
  destruct (nth_error (rev (best_set f)) _) as [b|] eqn:Eb;
    injection Hs as <-; cbn [sel_ret sel_dnssec_expected] in *; [|discriminate].
  injection Ha as <-. rewrite incr_attempts_sel_rtt.
  apply nth_error_In, in_rev in Eb.
  destruct (low_rtt_of f) as [low|] eqn:El.
  - exists low. pose proof (best_set_low_le f low b
      (filled_rtt_ok _ _ _ _ _ _ Hc Hi) El Eb) as Hle.
    unfold dnssec_after.
    destruct (USEFUL_SERVER_TOP_TIMEOUT <=? low) eqn:Eu;
      [apply Z.leb_le in Eu | apply Z.leb_gt in Eu];
      repeat split; try reflexivity; intros; lia.
  - unfold best_set in Eb. rewrite El in Eb.
    apply filter_In in Eb as [_ Eb]. discriminate.
Qed.

(** *** Which candidate is returned *)

Definition returns_node (ie : iter_env) (env : module_env) (dp : delegpt)
    (name : list Z) (qtype d : Z) (p : positive) : Prop :=
  exists s a, iter_server_selection ie env dp name qtype d = Some s /\
              sel_ret s = Some a /\ node a = p.

Definition returns_none (ie : iter_env) (env : module_env) (dp : delegpt)
    (name : list Z) (qtype d : Z) : Prop :=
  exists s, iter_server_selection ie env dp name qtype d = Some s /\
            sel_ret s = None.

Lemma NoDup_map_filter {A B} (g : A -> B) (p : A -> bool) (l : list A) :
  NoDup (map g l) -> NoDup (map g (filter p l)).
Proof.
  induction l as [|x l IH]; simpl; intros H; [constructor|].
  inversion H as [|? ? Hx Hl]; subst.
  destruct (p x); simpl; [constructor|]; auto.
  intros Hin. apply Hx. apply in_map_iff in Hin as (y & <- & Hy).
  apply in_map. apply filter_In in Hy. tauto.
Qed.

Lemma nth_error_node_inj (l : list delegpt_addr) i j x y :
  NoDup (map node l) ->
  nth_error l i = Some x -> nth_error l j = Some y -> node x = node y ->
  i = j.
Proof.
  intros Hnd Hi Hj Hxy.
  apply (proj1 (NoDup_nth_error (map node l)) Hnd).
  - rewrite length_map. apply nth_error_Some. congruence.
  - rewrite !nth_error_map, Hi, Hj. simpl. congruence.
Qed.

Lemma best_set_rev_NoDup ie env name qtype t l :
  NoDup (map node l) ->
  NoDup (map node (rev (best_set (filled ie env name qtype t l)))).
Proof.
  intros H. rewrite map_rev. apply NoDup_rev.
  apply NoDup_map_filter. now rewrite filled_nodes.
Qed.

Lemma returns_node_iff ie env dp name qtype d p :
  constants_ok -> infra_ok env ->
  Z.of_nat (length (result_list dp)) <= INT_MAX ->
  let f := filled ie env name qtype (now env) (result_list dp) in
  returns_node ie env dp name qtype d p <->
  exists b, nth_error (rev (best_set f))
              (chosen_index (length (best_set f)) (fst (ub_random (rnd env))))
            = Some b /\ node b = p.
Proof.
  intros Hc Hi Hlen f. unfold returns_node.
  rewrite (iter_server_selection_spec ie env dp name qtype d Hc Hi Hlen).
  fold f. destruct (nth_error (rev (best_set f)) _) as [b|]; split.
  - intros (s & a & [= <-] & [= <-] & Hp). now exists b.
  - intros (b' & [= <-] & Hp). eexists; eexists; repeat split. exact Hp.
  - intros (s & a & [= <-] & Hr & _). discriminate.
  - intros (b' & Hb & _). discriminate.
Qed.

Lemma low_in_best f low :
  0 <= RTT_BAND -> low_rtt_of f = Some low ->
  exists b, In b (best_set f).
Proof.
  intros Hb Hl. destruct (low_rtt_of_attained _ _ Hl) as (a & Ha & Hs & Hv).
  exists a. apply filter_In; split; [assumption|]. rewrite Hl; cbn [in_best].
  unfold in_band. rewrite Hs, Hv, Z.sub_diag. cbn [andb Z.abs].
  now apply Z.leb_le.
Qed.

(** C1. [iter_server_selection] returns only candidates of the best set
    (the survivors whose selection RTT is within [RTT_BAND] of the lowest
    survivor RTT), and returns one as soon as there is a survivor; with an
    empty best set it returns NULL, with a best set of one it returns that
    one, and with [n >= 2] best candidates each of them is returned for
    exactly one residue of the random draw modulo [n]. *)
Theorem iter_server_selection_in_best_set ie env dp name qtype d :
  constants_ok -> infra_ok env -> list_ok (result_list dp) ->
  let f := filled ie env name qtype (now env) (result_list dp) in
  let best := best_set f in
  let n := Z.of_nat (length best) in
  (forall p, returns_node ie env dp name qtype d p -> In p (map node best)) /\
  (0 <= RTT_BAND -> existsb suitable f = true ->
     exists b, In b best /\ returns_node ie env dp name qtype d (node b)) /\
  (best = [] -> returns_none ie env dp name qtype d) /\
  (forall b, best = [b] -> returns_node ie env dp name qtype d (node b)) /\
  (2 <= n -> forall b, In b best ->
     exists! k, 0 <= k < n /\
       forall st, returns_node ie (set_rnd env st) dp name qtype d (node b) <->
                  fst (ub_random st) mod n = k).
Proof.
  intros Hc Hi [Hnd Hlen] f best n.
  assert (Hiff := fun e (H : infra_ok e) p =>
                    returns_node_iff ie e dp name qtype d p Hc H Hlen).
  assert (Hrnd : 0 <= fst (ub_random (rnd env))) by apply N2Z.is_nonneg.
  assert (Hbnd : NoDup (map node (rev best)))
    by (now apply best_set_rev_NoDup).
  repeat apply conj.
  - intros p Hp. apply (Hiff env Hi) in Hp as (b & Hb & <-).
    apply in_map. apply in_rev. eapply nth_error_In; eassumption.
  - intros Hband Hex. rewrite existsb_suitable_low in Hex.
    destruct (low_rtt_of f) as [low|] eqn:El; [|discriminate].
    destruct (low_in_best f low Hband El) as (b0 & Hb0).
    assert (Hpos : (0 < length best)%nat)
      by (subst best; destruct (best_set f); [destruct Hb0 | simpl; lia]).
    pose proof (chosen_index_lt _ _ Hpos Hrnd) as Hk.
    destruct (nth_error (rev best) (chosen_index (length best)
                (fst (ub_random (rnd env))))) as [b|] eqn:Eb;
      [|apply nth_error_None in Eb; rewrite length_rev in Eb; lia].
    exists b; split; [apply in_rev; eapply nth_error_In; eassumption|].
    apply (Hiff env Hi). now exists b.
  - intros Hnil. unfold returns_none.
    rewrite (iter_server_selection_spec ie env dp name qtype d Hc Hi Hlen).
    fold f best. rewrite Hnil. cbn [rev].
    rewrite (proj2 (nth_error_None (@nil delegpt_addr) _)) by (simpl; lia).
    eexists; split; reflexivity.
  - intros b Hb. apply (Hiff env Hi). fold f best. rewrite Hb.
    exists b; split; reflexivity.
  - intros Hn b Hb. apply in_rev in Hb.
    apply In_nth_error in Hb as (kb & Hkb).
    assert (Hkb_lt : (kb < length best)%nat)
      by (rewrite <- (length_rev best); apply nth_error_Some; congruence).
    assert (Hci : forall st,
              chosen_index (length best) (fst (ub_random st)) =
              Z.to_nat (fst (ub_random st) mod n)).
    { intros st. unfold chosen_index. fold n.
      destruct (n =? 1) eqn:E1; [apply Z.eqb_eq in E1; lia|].
      rewrite Z.rem_mod_nonneg by (try apply N2Z.is_nonneg; lia).
      reflexivity. }
    assert (Hone : forall st,
              returns_node ie (set_rnd env st) dp name qtype d (node b) <->
              fst (ub_random st) mod n = Z.of_nat kb).
    { intros st. rewrite (Hiff (set_rnd env st) Hi).
      change (filled ie (set_rnd env st) name qtype (now (set_rnd env st))
                (result_list dp)) with f.
      fold best. cbn [rnd set_rnd]. rewrite Hci.
      pose proof (Z.mod_pos_bound (fst (ub_random st)) n ltac:(lia)) as Hm.
      split.
      - intros (b' & Hb' & Hnode).
        assert (Z.to_nat (fst (ub_random st) mod n) = kb)
          by (eapply nth_error_node_inj; eauto).
        lia.
      - intros E. exists b. rewrite E, Nat2Z.id. now split. }
    exists (Z.of_nat kb). split.
    + split; [lia | exact Hone].
    + intros k' [Hk' Hall].
      set (st := mk_rand (fun _ => Z.to_N (Z.of_nat kb)) 0).
      assert (Est : fst (ub_random st) = Z.of_nat kb)
        by (cbn; rewrite Z2N.id; lia).
      pose proof (proj1 (Hone st)) as H1. pose proof (proj1 (Hall st)) as H2.
      rewrite Est, Z.mod_small in H1, H2 by lia.
      rewrite <- H2; [reflexivity|]. apply (Hone st).
      rewrite Est, Z.mod_small by lia. reflexivity.
Qed.

(** *** Attempt counters and retirement *)











End Selection.

(** *** Concrete delegation points *)

(** The constants of the specification's scenario: [RTT_BAND] = 50 and
    [USEFUL_SERVER_TOP_TIMEOUT] = 376. *)
#[local] Instance scenario_constants : iter_constants := {|
  USEFUL_SERVER_TOP_TIMEOUT := 376;
  RTT_BAND := 50;
  OUTBOUND_MSG_RETRY := 5;
  UNKNOWN_SERVER_NICENESS := 376
|}.

(** An infra cache given by a table from host to entry. *)
Definition cache_of (tbl : list (Z * lame_rtt))
    : sockaddr -> list Z -> Z -> Z -> option lame_rtt :=
  fun a _ _ _ =>
    let h := match a with ip4 h _ => h | ip6 h _ => h end in
    option_map snd (find (fun e => fst e =? h) tbl).

Lemma cache_of_ok tbl r t :
  Forall (fun e => 0 <= rtt (snd e) <= INT_MAX) tbl ->
  infra_ok (mk_module_env (cache_of tbl) r t).
Proof.
  intros Ht a name qtype timenow i. cbn [infra_cache]. unfold cache_of.
  destruct (find _ tbl) as [e|] eqn:Ef; [|discriminate].
  intros [= <-]. apply find_some in Ef as [Hin _].
  rewrite Forall_forall in Ht. now apply Ht.
Qed.

Definition scenario_ie : iter_env := mk_iter_env (fun _ => false) true.

(** Hosts 1, 2 and 3 answer in 20, 25 and 400 ms; host 4 is dnssec-lame with
    RTT 0; host 5 answers in 370 ms. *)
Definition scenario_cache : sockaddr -> list Z -> Z -> Z -> option lame_rtt :=
  cache_of [(1, mk_lame_rtt false false 20); (2, mk_lame_rtt false false 25);
            (3, mk_lame_rtt false false 400); (4, mk_lame_rtt false true 0);
            (5, mk_lame_rtt false false 370)].

Definition scenario_env (r : N) : module_env :=
  mk_module_env scenario_cache (mk_rand (fun _ => r) 0) 0.

Definition cand (n : positive) : delegpt_addr :=
  mk_addr n (ip4 (Z.pos n) 53) 0 0.

Definition dp_abc : delegpt := mk_dp [cand 1; cand 2; cand 3].
Definition dp_slow : delegpt := mk_dp [cand 5; cand 4].

Lemma scenario_constants_ok : constants_ok.
Proof. unfold constants_ok, INT_MAX; cbn; lia. Qed.

Lemma scenario_infra_ok r : infra_ok (scenario_env r).
Proof.
  apply cache_of_ok. unfold INT_MAX. repeat constructor; cbn; lia.
Qed.

Lemma dp_abc_ok : list_ok (result_list dp_abc).
Proof.
  split; [|unfold INT_MAX; cbn; lia].
  cbn. repeat constructor; cbn; intuition discriminate.
Qed.

(** Scenario 5 of the specification: among A (20 ms), B (25 ms) and
    C (400 ms), an even draw returns B, an odd draw returns A, C is never
    returned and the flag is left alone. *)
Example scenario_5 (r : N) :
  exists s a,
    iter_server_selection scenario_ie (scenario_env r) dp_abc [] 1 1 = Some s /\
    sel_ret s = Some a /\
    node a = (if N.even r then 2%positive else 1%positive) /\
    sel_dnssec_expected s = 1.
Proof.
  assert (Hm : Z.rem (Z.of_N r) 2 = if N.even r then 0 else 1).
  { rewrite Z.rem_mod_nonneg by (try apply N2Z.is_nonneg; lia).
    rewrite <- Z.bit0_mod, Z.bit0_odd.
    destruct r as [|[q|q|]]; reflexivity. }
  assert (Hfo : iter_filter_order scenario_ie (scenario_env r) [] 1 0 dp_abc =
                (2, mk_dp [set_sel_rtt (cand 2) 25; set_sel_rtt (cand 1) 20;
                           set_sel_rtt (cand 3) (-1)], Some 20))
    by (vm_compute; reflexivity).
  unfold iter_server_selection.
  change (now (scenario_env r)) with 0. rewrite Hfo.
  cbn [Z.eqb Pos.eqb ub_random scenario_env rnd draws consumed result_list].
  rewrite Hm. destruct (N.even r); vm_compute; eexists; eexists; repeat split.
Qed.

Lemma dp_abc_len : Z.of_nat (length (result_list dp_abc)) <= INT_MAX.
Proof. unfold INT_MAX; cbn; lia. Qed.

Lemma dp_slow_len : Z.of_nat (length (result_list dp_slow)) <= INT_MAX.
Proof. unfold INT_MAX; cbn; lia. Qed.

(** The selection theorem at the scenario: a survivor exists, so a member of
    the best set is returned. *)
Lemma iter_server_selection_in_best_set_witness :
  exists b,
    In b (best_set (filled scenario_ie (scenario_env 0) [] 1 0 (result_list dp_abc))) /\
    returns_node scenario_ie (scenario_env 0) dp_abc [] 1 1 (node b).
Proof.
  apply (proj1 (proj2 (iter_server_selection_in_best_set
                         scenario_ie (scenario_env 0) dp_abc [] 1 1
                         scenario_constants_ok (scenario_infra_ok 0) dp_abc_ok))).
  - cbn; lia.
  - reflexivity.
Defined.

(** The fill pass at the scenario. *)
Lemma iter_fill_rtt_marks_unsuitable_witness :
  Forall2
    (fun a a' => sel_rtt a' = -1 <-> excluded scenario_ie (scenario_env 0) [] 1 0 a)
    (result_list dp_abc)
    (result_list (snd (fst (iter_fill_rtt scenario_ie (scenario_env 0) [] 1 0 dp_abc 0)))).
Proof.
  eapply Forall2_impl;
    [|apply (iter_fill_rtt_marks_unsuitable scenario_ie (scenario_env 0) [] 1 0 dp_abc 0
               scenario_constants_ok (scenario_infra_ok 0))].
  intros a a' H. apply H.
Defined.

(** The reordering at the scenario: B and A, in this order, are in front. *)
Lemma iter_filter_order_front_reversed_witness :
  firstn 2 (result_list (snd (fst (iter_filter_order scenario_ie (scenario_env 0)
                                     [] 1 0 dp_abc))))
  = rev (best_set (filled scenario_ie (scenario_env 0) [] 1 0 (result_list dp_abc))).
Proof.
  exact (proj1 (proj2 (iter_filter_order_front_reversed
                         scenario_ie (scenario_env 0) [] 1 0 dp_abc
                         scenario_constants_ok (scenario_infra_ok 0) dp_abc_len))).
Defined.

(** With A before B in the list, the pass leaves B before A. *)
Lemma front_order_not_kept :
  ~ front_keeps_order scenario_ie (scenario_env 0) [] 1 0 dp_abc.
Proof. unfold front_keeps_order. vm_compute. discriminate. Qed.

(** Host 5 (370 ms) and the dnssec-lame host 4 (0 + 376 ms) are both in the
    band; draw 0 returns host 4, whose selection RTT is at the threshold,
    and the flag is still set: the lowest RTT, 370, is below the
    threshold. *)
Lemma flag_kept_for_slow_choice :
  ~ cleared_iff_chosen_slow scenario_ie (scenario_env 0) dp_slow [] 1.
Proof.
  unfold cleared_iff_chosen_slow. intros H.
  edestruct H as [_ H2]; [vm_compute; reflexivity | reflexivity |].
  assert (E : 1 = 0) by (apply H2; cbn; lia).
  discriminate E.
Qed.

Lemma dnssec_expected_follows_low_rtt_witness :
  exists s a,
    iter_server_selection scenario_ie (scenario_env 0) dp_slow [] 1 1 = Some s /\
    sel_ret s = Some a /\ node a = 4%positive /\ sel_rtt a = 376 /\
    sel_dnssec_expected s = 1.
Proof.
  eexists; eexists.
  split; [vm_compute; reflexivity|]. split; [reflexivity|].
  split; [reflexivity|]. split; [reflexivity|].
  edestruct (dnssec_expected_follows_low_rtt scenario_ie (scenario_env 0) dp_slow [] 1 1)
    as (low & Hlow & _ & _ & Hkeep & _);
    [ exact scenario_constants_ok | exact (scenario_infra_ok 0) | exact dp_slow_len
    | vm_compute; reflexivity | reflexivity | ].
  vm_compute in Hlow. injection Hlow as <-.
  apply Hkeep. cbn; lia.
Defined.

(** The permutation theorem at the scenario. *)
Lemma result_list_permutation_witness :
  Permutation
    (map node (result_list
       (snd (fst (iter_filter_order scenario_ie (scenario_env 0) [] 1 0 dp_abc)))))
    (map node (result_list dp_abc)).
Proof.
  exact (proj1 (proj2 (result_list_permutation scenario_ie (scenario_env 0)
                         dp_abc [] 1 1))).
Defined.



End Iter.

(** ** util/data/dname.c *)

Module Dname.

(** Value of a [uint8_t]. *)
Definition u8 (b : Byte.byte) : Z := Z.of_N (Byte.to_N b).

(** The byte with value [z mod 256]. *)
Definition byte_of_Z (z : Z) : Byte.byte :=
  match Byte.of_N (Z.to_N (z mod 256)) with
  | Some b => b
  | None => Byte.x00
  end.

(** [tolower] of the C locale, on the value of an [unsigned char]. *)
Definition tolower (c : Z) : Z :=
  if (65 <=? c) && (c <=? 90) then c + 32 else c.

(** *** query_dname_compare

    A [uint8_t*] is the list of the bytes from the pointer on; reading past
    the end of the list is a fault ([None]). *)

(** The [while(lab1--)] loop: either a return value, or the two pointers
    after the label. *)
Fixpoint compare_label (lab1 : nat) (d1 d2 : list Byte.byte)
    : option (Z + list Byte.byte * list Byte.byte) :=
  match lab1 with
  | O => Some (inr (d1, d2))
  | S lab1' =>
      match d1, d2 with
      | c1 :: d1', c2 :: d2' =>
          if negb (tolower (u8 c1) =? tolower (u8 c2)) then
            if tolower (u8 c1) <? tolower (u8 c2) then Some (inl (-1))
            else Some (inl 1)
          else compare_label lab1' d1' d2'
      | _, _ => None
      end
  end.

(** The outer loop, entered with the two label lengths already read; [fuel]
    bounds the number of labels. *)
Fixpoint query_dname_compare_loop (fuel : nat) (lab1 lab2 : Z)
    (d1 d2 : list Byte.byte) : option Z :=
  match fuel with
  | O => None
  | S fuel' =>
      if negb (lab1 =? 0) || negb (lab2 =? 0) then
        if negb (lab1 =? lab2) then
          if lab1 <? lab2 then Some (-1) else Some 1
        else
          match compare_label (Z.to_nat lab1) d1 d2 with
          | None => None
          | Some (inl r) => Some r
          | Some (inr (l1 :: d1', l2 :: d2')) =>
              query_dname_compare_loop fuel' (u8 l1) (u8 l2) d1' d2'
          | Some (inr _) => None
          end
      else Some 0
  end.

Definition query_dname_compare (d1 d2 : list Byte.byte) : option Z :=
  match d1, d2 with
  | l1 :: d1', l2 :: d2' =>
      query_dname_compare_loop (length d1) (u8 l1) (u8 l2) d1' d2'
  | _, _ => None
  end.

(** *** query_dname_tolower *)

(** The [while(labellen--)] loop: the lowercased label and what follows. *)
Fixpoint tolower_label (labellen : nat) (dname : list Byte.byte)
    : list Byte.byte * list Byte.byte :=
  match labellen, dname with
  | S n, c :: rest =>
      let '(low, after) := tolower_label n rest in
      (byte_of_Z (tolower (u8 c)) :: low, after)
  | _, _ => ([], dname)
  end.

Fixpoint query_dname_tolower_loop (fuel : nat) (dname : list Byte.byte)
    : list Byte.byte :=
  match fuel, dname with
  | S fuel', l :: rest =>
      if u8 l =? 0 then dname
      else
        let '(low, after) := tolower_label (Z.to_nat (u8 l)) rest in
        l :: low ++ query_dname_tolower_loop fuel' after
  | _, _ => dname
  end.

Definition query_dname_tolower (dname : list Byte.byte) : list Byte.byte :=
  query_dname_tolower_loop (length dname) dname.

(** *** Uncompressed wire-format names *)

(** An uncompressed name at the start of [d]: labels, each a length byte
    and that many bytes, up to the root label; memory may go on after it. *)
Inductive dname_wf : list Byte.byte -> Prop :=
| wf_root l rest : u8 l = 0 -> dname_wf (l :: rest)
| wf_label l label rest :
    u8 l <> 0 -> Z.of_nat (length label) = u8 l -> dname_wf rest ->
    dname_wf (l :: label ++ rest).

(** Two bytes that differ at most in ASCII case. *)
Definition same_nocase (c1 c2 : Byte.byte) : Prop :=
  tolower (u8 c1) = tolower (u8 c2).

(** Two names are equal up to the ASCII case of their label bytes. *)
Inductive dname_eq_nocase : list Byte.byte -> list Byte.byte -> Prop :=
| eq_root l1 l2 rest1 rest2 :
    u8 l1 = 0 -> u8 l2 = 0 -> dname_eq_nocase (l1 :: rest1) (l2 :: rest2)
| eq_label l1 l2 label1 label2 rest1 rest2 :
    u8 l1 <> 0 -> u8 l1 = u8 l2 ->
    Z.of_nat (length label1) = u8 l1 ->
    Forall2 same_nocase label1 label2 ->
    dname_eq_nocase rest1 rest2 ->
    dname_eq_nocase (l1 :: label1 ++ rest1) (l2 :: label2 ++ rest2).

(** *** Comparison of uncompressed names *)

Lemma u8_nonneg b : 0 <= u8 b.
Proof. apply N2Z.is_nonneg. Qed.

Lemma u8_bound b : 0 <= u8 b < 256.
Proof.
  split; [apply u8_nonneg|]. unfold u8.
  pose proof (Byte.to_N_bounded b). lia.
Qed.

Lemma app_eq_same_length {A} (l1 l2 r1 r2 : list A) :
  l1 ++ r1 = l2 ++ r2 -> length l1 = length l2 -> l1 = l2 /\ r1 = r2.
Proof.
  revert l2; induction l1 as [|x l1 IH]; intros [|y l2] E Hl;
    try discriminate; simpl in *.
  - now split.
  - injection E as -> E. injection Hl as Hl.
    destruct (IH _ E Hl) as [-> ->]. now split.
Qed.

(** The inner loop on two labels of the same length: it runs through when
    the labels agree up to case, and otherwise returns 1 or -1, with the
    opposite value for the labels in the other order. *)
Lemma compare_label_cases label1 :
  forall label2 rest1 rest2,
    length label1 = length label2 ->
    (Forall2 same_nocase label1 label2 /\
     compare_label (length label1) (label1 ++ rest1) (label2 ++ rest2)
       = Some (inr (rest1, rest2)) /\
     compare_label (length label1) (label2 ++ rest2) (label1 ++ rest1)
       = Some (inr (rest2, rest1)))
    \/
    (~ Forall2 same_nocase label1 label2 /\
     exists r, (r = 1 \/ r = -1) /\
       compare_label (length label1) (label1 ++ rest1) (label2 ++ rest2)
         = Some (inl r) /\
       compare_label (length label1) (label2 ++ rest2) (label1 ++ rest1)
         = Some (inl (- r))).
Proof.
  induction label1 as [|c1 label1 IH]; intros [|c2 label2] rest1 rest2 Hl;
    try discriminate.
  - left. repeat split. constructor.
  - injection Hl as Hl. cbn [length app compare_label].
    destruct (tolower (u8 c1) =? tolower (u8 c2)) eqn:Ec.
    + apply Z.eqb_eq in Ec. rewrite <- Ec, Z.eqb_refl. cbn [negb].
      destruct (IH label2 rest1 rest2 Hl) as [(Hf & H1 & H2) | (Hf & r & Hr & H1 & H2)].
      * left. repeat split; try assumption. now constructor.
      * right. split; [|exists r; auto].
        intros Hc. inversion Hc; subst. contradiction.
    + right. apply Z.eqb_neq in Ec.
      assert (Ec' : (tolower (u8 c2) =? tolower (u8 c1)) = false)
        by (apply Z.eqb_neq; congruence).
      rewrite Ec'. cbn [negb]. split.
      * intros Hc. inversion Hc; subst. contradiction.
      * destruct (tolower (u8 c1) <? tolower (u8 c2)) eqn:Elt.
        -- apply Z.ltb_lt in Elt. exists (-1). split; [now right|].
           assert (Egt : (tolower (u8 c2) <? tolower (u8 c1)) = false)
             by (apply Z.ltb_ge; lia).
           now rewrite Egt.
        -- apply Z.ltb_ge in Elt. exists 1. split; [now left|].
           assert (Egt : (tolower (u8 c2) <? tolower (u8 c1)) = true)
             by (apply Z.ltb_lt; lia).
           now rewrite Egt.
Qed.

Lemma dname_eq_nocase_label_inv l1 l2 label1 label2 rest1 rest2 :
  u8 l1 <> 0 ->
  Z.of_nat (length label1) = u8 l1 -> Z.of_nat (length label2) = u8 l2 ->
  dname_eq_nocase (l1 :: label1 ++ rest1) (l2 :: label2 ++ rest2) ->
  u8 l1 = u8 l2 /\ Forall2 same_nocase label1 label2 /\
  dname_eq_nocase rest1 rest2.
Proof.
  intros Hl1 Hlen1 Hlen2 Hq.
  remember (l1 :: label1 ++ rest1) as a eqn:Ea.
  remember (l2 :: label2 ++ rest2) as b eqn:Eb.
  destruct Hq as [? ? ? ? H0 _ | m1 m2 lb1 lb2 r1 r2 _ Hm Hb1 Hfb Hq'].
  - injection Ea as -> _. contradiction.
  - injection Ea as -> Ea. injection Eb as -> Eb.
    assert (Hb2 : length lb2 = length label2)
      by (apply Forall2_length in Hfb; lia).
    apply app_eq_same_length in Ea as [-> ->]; [|lia].
    apply app_eq_same_length in Eb as [-> ->]; [|lia].
    auto.
Qed.

Lemma dname_wf_cons d : dname_wf d -> exists l rest, d = l :: rest.
Proof. intros [l rest _ | l label rest _ _ _]; eauto. Qed.

(** Outcome of the comparison loop on two well-formed names, with enough
    fuel on both sides. *)
Lemma query_dname_compare_loop_wf d1 :
  dname_wf d1 ->
  forall d2, dname_wf d2 ->
  forall f1 f2 l1 t1 l2 t2,
    d1 = l1 :: t1 -> d2 = l2 :: t2 ->
    (length d1 <= f1)%nat -> (length d2 <= f2)%nat ->
    exists r,
      query_dname_compare_loop f1 (u8 l1) (u8 l2) t1 t2 = Some r /\
      query_dname_compare_loop f2 (u8 l2) (u8 l1) t2 t1 = Some (- r) /\
      (r = -1 \/ r = 0 \/ r = 1) /\
      (r = 0 <-> dname_eq_nocase d1 d2).
Proof.
  induction 1 as [l rest Hl | l label rest Hl Hlen Hrest IH];
    intros d2 Hd2 f1 f2 l1 t1 l2 t2 E1 E2 Hf1 Hf2;
    injection E1 as <- <-; subst d2;
    destruct f1 as [|f1]; try (cbn in Hf1; lia);
    destruct f2 as [|f2]; try (cbn in Hf2; lia);
    cbn [query_dname_compare_loop].
  - (* d1 is the root *)
    rewrite Hl. inversion Hd2 as [? ? Hl2 | ? label2 rest2 Hl2 Hlen2 Hrest2]; subst.
    + rewrite Hl2. cbn. exists 0. repeat split; auto.
      intros _. now constructor.
    + pose proof (u8_nonneg l2).
      assert (E0 : (u8 l2 =? 0) = false) by (apply Z.eqb_neq; assumption).
      assert (E1 : (0 =? u8 l2) = false) by (apply Z.eqb_neq; lia).
      assert (E2 : (0 <? u8 l2) = true) by (apply Z.ltb_lt; lia).
      assert (E3 : (u8 l2 <? 0) = false) by (apply Z.ltb_ge; lia).
      rewrite E0, E1, E2, E3. cbn. exists (-1). repeat split; auto; try discriminate.
      intros Hq. exfalso. inversion Hq; subst; congruence.
  - (* d1 starts with a label *)
    pose proof (u8_nonneg l) as Hn.
    assert (E0 : (u8 l =? 0) = false) by (apply Z.eqb_neq; assumption).
    rewrite E0. cbn [negb orb].
    inversion Hd2 as [? ? Hl2 | ? label2 rest2 Hl2 Hlen2 Hrest2]; subst.
    + rewrite Hl2, E0.
      assert (E1 : (0 =? u8 l) = false) by (apply Z.eqb_neq; lia).
      assert (E2 : (u8 l <? 0) = false) by (apply Z.ltb_ge; lia).
      assert (E3 : (0 <? u8 l) = true) by (apply Z.ltb_lt; lia).
      rewrite E1, E2, E3. cbn. exists 1. repeat split; auto; try discriminate.
      intros Hq. exfalso. inversion Hq; subst; congruence.
    + assert (E0' : (u8 l2 =? 0) = false) by (apply Z.eqb_neq; assumption).
      rewrite E0'. cbn [negb orb].
      destruct (u8 l =? u8 l2) eqn:El.
      * apply Z.eqb_eq in El. rewrite <- El, Z.eqb_refl. cbn [negb].
        assert (Hll : length label = length label2) by lia.
        replace (Z.to_nat (u8 l)) with (length label) by lia.
        destruct (compare_label_cases label label2 rest rest2 Hll)
          as [(Hf & -> & ->) | (Hf & r & Hr & -> & ->)].
        -- destruct (dname_wf_cons _ Hrest) as (l1' & t1' & ->).
           destruct (dname_wf_cons _ Hrest2) as (l2' & t2' & ->).
           cbn [length] in Hf1, Hf2. rewrite length_app in Hf1, Hf2.
           cbn [length] in Hf1, Hf2.
           destruct (IH _ Hrest2 f1 f2 l1' t1' l2' t2' eq_refl eq_refl)
             as (r & H1 & H2 & Hr & Hiff); [cbn; lia | cbn; lia |].
           exists r. repeat split; try assumption.
           ++ intros Hz. apply Hiff in Hz. now apply eq_label.
           ++ intros Hq. apply Hiff.
              now apply dname_eq_nocase_label_inv in Hq.
        -- exists r. repeat split; try assumption.
           ++ destruct Hr as [-> | ->]; auto.
           ++ intros ->. destruct Hr; discriminate.
           ++ intros Hq. exfalso. apply Hf.
              now apply dname_eq_nocase_label_inv in Hq.
      * apply Z.eqb_neq in El.
        assert (El' : (u8 l2 =? u8 l) = false) by (apply Z.eqb_neq; congruence).
        rewrite El'. cbn [negb].
        assert (Hne : ~ dname_eq_nocase (l :: label ++ rest) (l2 :: label2 ++ rest2)).
        { intros Hq. apply dname_eq_nocase_label_inv in Hq; tauto. }
        destruct (u8 l <? u8 l2) eqn:Elt.
        -- apply Z.ltb_lt in Elt.
           assert (Egt : (u8 l2 <? u8 l) = false) by (apply Z.ltb_ge; lia).
           rewrite Egt. exists (-1). repeat split; auto; try discriminate.
           intros Hq; contradiction.
        -- apply Z.ltb_ge in Elt.
           assert (Egt : (u8 l2 <? u8 l) = true) by (apply Z.ltb_lt; lia).
           rewrite Egt. exists 1. repeat split; auto; try discriminate.
           intros Hq; contradiction.
Qed.

(** C10. On two uncompressed wire-format names [query_dname_compare]
    returns a value among -1, 0 and 1; the value is 0 exactly when the names
    are equal up to the ASCII case of their label bytes, and comparing in the
    other order returns the opposite value. *)
Theorem query_dname_compare_antisym d1 d2 :
  dname_wf d1 -> dname_wf d2 ->
  exists r,
    query_dname_compare d1 d2 = Some r /\
    query_dname_compare d2 d1 = Some (- r) /\
    (r = -1 \/ r = 0 \/ r = 1) /\
    (r = 0 <-> dname_eq_nocase d1 d2) /\
    Z.sgn r = - Z.sgn (- r).
Proof.
  intros H1 H2.
  destruct (dname_wf_cons _ H1) as (l1 & t1 & E1).
  destruct (dname_wf_cons _ H2) as (l2 & t2 & E2).
  destruct (query_dname_compare_loop_wf d1 H1 d2 H2 (length d1) (length d2)
              l1 t1 l2 t2 E1 E2 (le_n _) (le_n _)) as (r & Hr1 & Hr2 & Hr & Hiff).
  exists r. subst d1 d2. unfold query_dname_compare.
  repeat split; try assumption; try apply Hiff.
  destruct Hr as [-> | [-> | ->]]; reflexivity.
Qed.

(** The names "A." and "a." and the name "b.". *)
Definition name_A : list Byte.byte := map byte_of_Z [1; 65; 0].
Definition name_a : list Byte.byte := map byte_of_Z [1; 97; 0].
Definition name_b : list Byte.byte := map byte_of_Z [1; 98; 0].

Lemma name_wf c : dname_wf (map byte_of_Z [1; c; 0]).
Proof.
  apply (wf_label (byte_of_Z 1) [byte_of_Z c] [byte_of_Z 0]).
  - vm_compute; discriminate.
  - reflexivity.
  - apply wf_root. reflexivity.
Qed.

Example query_dname_compare_A_a : query_dname_compare name_A name_a = Some 0.
Proof. reflexivity. Qed.

Example query_dname_compare_A_b : query_dname_compare name_A name_b = Some (-1).
Proof. reflexivity. Qed.

Example query_dname_tolower_A : query_dname_tolower name_A = name_a.
Proof. reflexivity. Qed.

Lemma query_dname_compare_antisym_witness :
  exists r,
    query_dname_compare name_A name_b = Some r /\
    query_dname_compare name_b name_A = Some (- r) /\
    (r = -1 \/ r = 0 \/ r = 1) /\
    (r = 0 <-> dname_eq_nocase name_A name_b) /\
    Z.sgn r = - Z.sgn (- r).
Proof.
  exact (query_dname_compare_antisym name_A name_b (name_wf 65) (name_wf 98)).
Defined.

(** *** pkt_dname_len *)

(** [ldns_buffer] of the ldns library: the bytes, the read position and the
    limit. *)
Record ldns_buffer := mk_buffer {
  data : list Byte.byte;
  position : Z;
  limit : Z
}.

Definition buffer_ok (pkt : ldns_buffer) : Prop :=
  0 <= position pkt <= limit pkt /\ limit pkt <= Z.of_nat (length (data pkt)).

Definition ldns_buffer_at (pkt : ldns_buffer) (at_ : Z) : Z :=
  u8 (nth (Z.to_nat at_) (data pkt) Byte.x00).

Definition ldns_buffer_remaining (pkt : ldns_buffer) : Z :=
  limit pkt - position pkt.

Definition ldns_buffer_limit (pkt : ldns_buffer) : Z := limit pkt.

Definition ldns_buffer_position (pkt : ldns_buffer) : Z := position pkt.

Definition ldns_buffer_set_position (pkt : ldns_buffer) (mark : Z) : ldns_buffer :=
  {| data := data pkt; position := mark; limit := limit pkt |}.

Definition ldns_buffer_skip (pkt : ldns_buffer) (count : Z) : ldns_buffer :=
  ldns_buffer_set_position pkt (position pkt + count).

Definition ldns_buffer_read_u8 (pkt : ldns_buffer) : Z * ldns_buffer :=
  (ldns_buffer_at pkt (position pkt), ldns_buffer_skip pkt 1).

(** Modelled from the spec: [LABEL_IS_PTR] and [PTR_OFFSET] of
    util/data/msgparse.h and [LDNS_MAX_DOMAINLEN] of ldns, which are not
    among the sources: a length byte with its two top bits set starts a
    compression pointer, whose 14 remaining bits are an offset in "the
    16 KiB name-space"; a name has at most 255 octets. *)
Definition LABEL_IS_PTR (x : Z) : bool := Z.land x 192 =? 192.

Definition PTR_OFFSET (x y : Z) : Z := Z.lor (Z.shiftl (Z.land x 63) 8) y.

Definition LDNS_MAX_DOMAINLEN : Z := 255.

(** maximum compression pointer position pointed to *)
Definition MAX_COMPRESS_POS : Z := 16384.

(** size of bitmap for loop detection *)
Definition LOOP_BITMAP_SIZE : Z := MAX_COMPRESS_POS / 8.

(** [a[i] = v] on an array held as a list. *)
Fixpoint array_set (a : list Z) (i : nat) (v : Z) : list Z :=
  match a, i with
  | [], _ => []
  | _ :: rest, O => v :: rest
  | x :: rest, S i' => x :: array_set rest i' v
  end.

Definition bits : list Z := [1; 2; 4; 8; 16; 32; 64; 128].

(** check bit in bitmap for loop detection, then set it for next check *)
Definition loopcheck (loop : list Z) (pos : Z) : Z * list Z :=
  let byte := nth (Z.to_nat (pos / 8)) loop 0 in
  let bit := nth (Z.to_nat (pos mod 8)) bits 0 in
  (Z.land byte bit, array_set loop (Z.to_nat (pos / 8)) (Z.lor byte bit)).

(** The [while(1)] loop of [pkt_dname_len]; [None] when [fuel] iterations
    did not reach a [return] or the [break]. *)
Fixpoint pkt_dname_len_loop (fuel : nat) (pkt : ldns_buffer) (len : Z)
    (loop : list Z) (endpos : Z) : option (Z * ldns_buffer) :=
  match fuel with
  | O => None
  | S fuel' =>
      if ldns_buffer_remaining pkt <? 1 then Some (0, pkt)
      else
        let '(labellen, pkt1) := ldns_buffer_read_u8 pkt in
        if LABEL_IS_PTR labellen then
          if ldns_buffer_remaining pkt1 <? 1 then Some (0, pkt1)
          else
            let '(low, pkt2) := ldns_buffer_read_u8 pkt1 in
            let ptr := PTR_OFFSET labellen low in
            let '(seen, loop') := loopcheck loop ptr in
            if negb (seen =? 0) then Some (0, pkt2)
            else if ldns_buffer_limit pkt2 <=? ptr then Some (0, pkt2)
            else
              let endpos' :=
                if endpos =? 0 then ldns_buffer_position pkt2 else endpos in
              pkt_dname_len_loop fuel' (ldns_buffer_set_position pkt2 ptr)
                len loop' endpos'
        else
          if 63 <? labellen then Some (0, pkt1)
          else
            let len' := len + (1 + labellen) in
            if LDNS_MAX_DOMAINLEN <? len' then Some (0, pkt1)
            else if labellen =? 0 then
              Some (len', if negb (endpos =? 0)
                          then ldns_buffer_set_position pkt1 endpos
                          else pkt1)
            else if ldns_buffer_remaining pkt1 <? labellen then Some (0, pkt1)
            else
              pkt_dname_len_loop fuel' (ldns_buffer_skip pkt1 labellen)
                len' loop endpos
  end.

(** Iterations that [pkt_dname_len] can need: one per pointer position and
    one per octet of name. *)
Definition pkt_dname_len_fuel : nat :=
  Z.to_nat (MAX_COMPRESS_POS + LDNS_MAX_DOMAINLEN + 1).

(** [pkt_dname_len]: the length and the buffer with its new position. *)
Definition pkt_dname_len (pkt : ldns_buffer) : option (Z * ldns_buffer) :=
  pkt_dname_len_loop pkt_dname_len_fuel pkt 0
    (repeat 0 (Z.to_nat LOOP_BITMAP_SIZE)) 0.

(** *** The loop bitmap *)

Lemma land_pow2_eqb x b :
  0 <= b -> (Z.land x (2 ^ b) =? 0) = negb (Z.testbit x b).
Proof.
  intros Hb. destruct (Z.testbit x b) eqn:Et; cbn [negb].
  - apply Z.eqb_neq. intros E.
    assert (H : Z.testbit (Z.land x (2 ^ b)) b = true)
      by (rewrite Z.land_spec, Et, Z.pow2_bits_eqb, Z.eqb_refl by lia; reflexivity).
    rewrite E, Z.bits_0 in H. discriminate.
  - apply Z.eqb_eq. apply Z.bits_inj'. intros n Hn.
    rewrite Z.land_spec, Z.bits_0, Z.pow2_bits_eqb by lia.
    destruct (b =? n) eqn:Ebn; [|apply andb_false_r].
    apply Z.eqb_eq in Ebn. subst n. now rewrite Et.
Qed.

Lemma bits_pow2 m : 0 <= m < 8 -> nth (Z.to_nat m) bits 0 = 2 ^ m.
Proof.
  intros Hm.
  assert (H : m = 0 \/ m = 1 \/ m = 2 \/ m = 3 \/ m = 4 \/ m = 5 \/ m = 6 \/ m = 7)
    by lia.
  destruct H as [-> | [-> | [-> | [-> | [-> | [-> | [-> | ->]]]]]]]; reflexivity.
Qed.

Lemma array_set_length a : forall i v, length (array_set a i v) = length a.
Proof.
  induction a as [|x a IH]; intros [|i] v; simpl; auto.
Qed.

Lemma array_set_nth_same a : forall i v d,
  (i < length a)%nat -> nth i (array_set a i v) d = v.
Proof.
  induction a as [|x a IH]; intros [|i] v d Hi; simpl in *; try lia; auto.
  apply IH. lia.
Qed.

Lemma array_set_nth_other a : forall i j v d,
  i <> j -> nth j (array_set a i v) d = nth j a d.
Proof.
  induction a as [|x a IH]; intros [|i] [|j] v d Hij; simpl; auto;
    try contradiction.
Qed.

(** Whether [loopcheck] reports position [pos] as seen. *)
Definition seen (loop : list Z) (pos : Z) : bool :=
  negb (fst (loopcheck loop pos) =? 0).

Lemma seen_testbit loop pos :
  0 <= pos ->
  seen loop pos = Z.testbit (nth (Z.to_nat (pos / 8)) loop 0) (pos mod 8).
Proof.
  intros Hp. unfold seen, loopcheck. cbn [fst].
  pose proof (Z.mod_pos_bound pos 8 ltac:(lia)) as Hm.
  rewrite bits_pow2, land_pow2_eqb by lia. apply negb_involutive.
Qed.

(** After [loopcheck] of [p], exactly [p] is seen in addition. *)
Lemma loopcheck_seen loop p q :
  0 <= p -> 0 <= q -> (Z.to_nat (p / 8) < length loop)%nat ->
  seen (snd (loopcheck loop p)) q = seen loop q || (q =? p).
Proof.
  intros Hp Hq Hlen. rewrite !seen_testbit by assumption.
  unfold loopcheck. cbn [snd].
  pose proof (Z.mod_pos_bound p 8 ltac:(lia)) as Hpm.
  pose proof (Z.mod_pos_bound q 8 ltac:(lia)) as Hqm.
  pose proof (Z.div_pos p 8 Hp ltac:(lia)) as Hpd.
  pose proof (Z.div_pos q 8 Hq ltac:(lia)) as Hqd.
  pose proof (Z.div_mod p 8 ltac:(lia)) as Ep.
  pose proof (Z.div_mod q 8 ltac:(lia)) as Eq.
  destruct (Z.eq_dec (p / 8) (q / 8)) as [Ed | Ed].
  - rewrite <- Ed, array_set_nth_same by assumption.
    rewrite bits_pow2, Z.lor_spec, Z.pow2_bits_eqb by lia.
    f_equal. destruct (p mod 8 =? q mod 8) eqn:Em.
    + apply Z.eqb_eq in Em. symmetry. apply Z.eqb_eq. lia.
    + apply Z.eqb_neq in Em. symmetry. apply Z.eqb_neq. lia.
  - rewrite array_set_nth_other by lia.
    replace (q =? p) with false by (symmetry; apply Z.eqb_neq; congruence).
    now rewrite orb_false_r.
Qed.

Lemma loopcheck_length loop p :
  length (snd (loopcheck loop p)) = length loop.
Proof. apply array_set_length. Qed.

(** A position that [loopcheck] has been asked about is reported the next
    time. *)
Lemma loopcheck_revisit loop p :
  0 <= p < MAX_COMPRESS_POS -> Z.of_nat (length loop) = LOOP_BITMAP_SIZE ->
  fst (loopcheck (snd (loopcheck loop p)) p) <> 0.
Proof.
  intros Hp Hl.
  assert (Hs : seen (snd (loopcheck loop p)) p = true).
  { rewrite loopcheck_seen;
      [now rewrite Z.eqb_refl, orb_true_r | lia | lia |].
    unfold LOOP_BITMAP_SIZE, MAX_COMPRESS_POS in *.
      change (16384 / 8) with 2048 in Hl.
      assert (p / 8 < 2048) by (apply Z.div_lt_upper_bound; lia).
      pose proof (Z.div_pos p 8 ltac:(lia) ltac:(lia)). lia. }
  unfold seen in Hs. apply negb_true_iff, Z.eqb_neq in Hs. exact Hs.
Qed.

(** The pointer positions, and how many of them are not yet seen. *)
Definition positions : list nat := seq 0 (Z.to_nat MAX_COMPRESS_POS).

Definition unseen (loop : list Z) : nat :=
  length (filter (fun p => negb (seen loop (Z.of_nat p))) positions).

Lemma positions_length : length positions = Z.to_nat MAX_COMPRESS_POS.
Proof. apply length_seq. Qed.

Lemma filter_length_lt {A} (f g : A -> bool) (l : list A) (a : A) :
  (forall x, g x = true -> f x = true) ->
  In a l -> f a = true -> g a = false ->
  (length (filter g l) < length (filter f l))%nat.
Proof.
  intros Hgf. induction l as [|x l IH]; intros Hin Hfa Hga; [destruct Hin|].
  assert (Hle : forall l', (length (filter g l') <= length (filter f l'))%nat).
  { induction l' as [|y l' IH']; simpl; [lia|].
    destruct (g y) eqn:Eg; [rewrite (Hgf _ Eg); simpl; lia|].
    destruct (f y); simpl; lia. }
  simpl. destruct Hin as [-> | Hin].
  - rewrite Hfa, Hga. simpl. specialize (Hle l). lia.
  - specialize (IH Hin Hfa Hga).
    destruct (g x) eqn:Eg; [rewrite (Hgf _ Eg); simpl; lia|].
    destruct (f x); simpl; lia.
Qed.

Lemma unseen_bound loop : (unseen loop <= Z.to_nat MAX_COMPRESS_POS)%nat.
Proof.
  unfold unseen. rewrite <- positions_length. apply filter_length_le.
Qed.

Lemma unseen_loopcheck loop p :
  0 <= p < MAX_COMPRESS_POS -> Z.of_nat (length loop) = LOOP_BITMAP_SIZE ->
  seen loop p = false ->
  (unseen (snd (loopcheck loop p)) < unseen loop)%nat.
Proof.
  intros Hp Hl Hs. unfold unseen.
  assert (Hidx : (Z.to_nat (p / 8) < length loop)%nat).
  { unfold LOOP_BITMAP_SIZE, MAX_COMPRESS_POS in *.
    change (16384 / 8) with 2048 in Hl.
    assert (p / 8 < 2048) by (apply Z.div_lt_upper_bound; lia).
    pose proof (Z.div_pos p 8 ltac:(lia) ltac:(lia)). lia. }
  apply filter_length_lt with (a := Z.to_nat p).
  - intros x Hx. rewrite loopcheck_seen in Hx by (try assumption; lia).
    apply negb_true_iff in Hx. apply orb_false_elim in Hx as [Hx _].
    now rewrite Hx.
  - unfold positions. apply in_seq. lia.
  - rewrite Z2Nat.id by lia. now rewrite Hs.
  - rewrite Z2Nat.id by lia. rewrite loopcheck_seen by (try assumption; lia).
    now rewrite Z.eqb_refl, orb_true_r.
Qed.

Lemma PTR_OFFSET_range x y :
  0 <= y < 256 -> 0 <= PTR_OFFSET x y < MAX_COMPRESS_POS.
Proof.
  intros Hy. unfold PTR_OFFSET, MAX_COMPRESS_POS.
  change 63 with (Z.ones 6). rewrite Z.land_ones, Z.shiftl_mul_pow2 by lia.
  pose proof (Z.mod_pos_bound x (2 ^ 6) ltac:(lia)) as Hx.
  set (a := x mod 2 ^ 6 * 2 ^ 8).
  assert (Ha : 0 <= a < 2 ^ 14) by (subst a; lia).
  assert (Hnn : 0 <= Z.lor a y) by (apply Z.lor_nonneg; lia).
  split; [assumption|].
  destruct (Z.eq_dec (Z.lor a y) 0) as [-> | Hne]; [lia|].
  change 16384 with (2 ^ 14). apply Z.log2_lt_pow2; [lia|].
  rewrite Z.log2_lor by lia.
  assert (Z.log2 a < 14).
  { destruct (Z.eq_dec a 0) as [-> | ?]; [cbn; lia|].
    apply Z.log2_lt_pow2; lia. }
  assert (Z.log2 y < 14).
  { destruct (Z.eq_dec y 0) as [-> | ?]; [cbn; lia|].
    apply Z.log2_lt_pow2; lia. }
  lia.
Qed.

(** *** Termination of pkt_dname_len *)

Lemma ldns_buffer_at_range pkt p : 0 <= ldns_buffer_at pkt p < 256.
Proof. apply u8_bound. Qed.

(** Every iteration either marks a pointer position that was not marked or
    adds at least one octet to [len], which stays within
    [LDNS_MAX_DOMAINLEN]. *)
Lemma pkt_dname_len_loop_terminates fuel :
  forall pkt len loop endpos,
    Z.of_nat (length loop) = LOOP_BITMAP_SIZE ->
    0 <= len <= LDNS_MAX_DOMAINLEN ->
    (unseen loop + Z.to_nat (LDNS_MAX_DOMAINLEN - len) < fuel)%nat ->
    exists r, pkt_dname_len_loop fuel pkt len loop endpos = Some r.
Proof.
  induction fuel as [|fuel IH]; intros pkt len loop endpos Hl Hlen Hf; [lia|].
  cbn [pkt_dname_len_loop].
  destruct (ldns_buffer_remaining pkt <? 1); [eauto|].
  unfold ldns_buffer_read_u8 at 1.
  set (labellen := ldns_buffer_at pkt (position pkt)).
  set (pkt1 := ldns_buffer_skip pkt 1).
  pose proof (ldns_buffer_at_range pkt (position pkt)) as Hb. fold labellen in Hb.
  destruct (LABEL_IS_PTR labellen).
  - destruct (ldns_buffer_remaining pkt1 <? 1); [eauto|].
    unfold ldns_buffer_read_u8.
    set (low := ldns_buffer_at pkt1 (position pkt1)).
    pose proof (PTR_OFFSET_range labellen low (ldns_buffer_at_range _ _)) as Hp.
    set (ptr := PTR_OFFSET labellen low) in *.
    destruct (loopcheck loop ptr) as [sn loop'] eqn:Elc.
    destruct (sn =? 0) eqn:Esn; cbn [negb]; [|eauto].
    destruct (ldns_buffer_limit _ <=? ptr); [eauto|].
    assert (Hseen : seen loop ptr = false)
      by (unfold seen; rewrite Elc; cbn [fst]; now rewrite Esn).
    pose proof (unseen_loopcheck loop ptr Hp Hl Hseen) as Hdec.
    pose proof (loopcheck_length loop ptr) as Hll.
    rewrite Elc in Hdec, Hll. cbn [snd] in Hdec, Hll.
    apply IH; [now rewrite Hll | assumption | lia].
  - destruct (63 <? labellen); [eauto|].
    destruct (LDNS_MAX_DOMAINLEN <? len + (1 + labellen)) eqn:Emax; [eauto|].
    apply Z.ltb_ge in Emax.
    destruct (labellen =? 0) eqn:E0; [eauto|]. apply Z.eqb_neq in E0.
    destruct (ldns_buffer_remaining pkt1 <? labellen); [eauto|].
    apply IH; [assumption | lia | lia].
Qed.

Lemma repeat_bitmap_length :
  Z.of_nat (length (repeat 0 (Z.to_nat LOOP_BITMAP_SIZE))) = LOOP_BITMAP_SIZE.
Proof. rewrite repeat_length. reflexivity. Qed.

Lemma pkt_dname_len_unfold pkt :
  pkt_dname_len pkt =
  pkt_dname_len_loop pkt_dname_len_fuel pkt 0
    (repeat 0 (Z.to_nat LOOP_BITMAP_SIZE)) 0.
Proof. reflexivity. Qed.

Lemma pkt_dname_len_terminates pkt : exists r, pkt_dname_len pkt = Some r.
Proof.
  rewrite pkt_dname_len_unfold. apply pkt_dname_len_loop_terminates.
  - apply repeat_bitmap_length.
  - unfold LDNS_MAX_DOMAINLEN; lia.
  - pose proof (unseen_bound (repeat 0 (Z.to_nat LOOP_BITMAP_SIZE))) as Hu.
    unfold pkt_dname_len_fuel.
    unfold LDNS_MAX_DOMAINLEN, MAX_COMPRESS_POS in *. lia.
Qed.

(** *** Names on the wire *)

(** What stands at an offset of a message of [lim] octets: the root label,
    a label of [labellen] octets, a compression pointer to [target], or
    nothing that can be read as part of a name. *)
Inductive wire_item : Type :=
| End_of_name
| Label (labellen : Z)
| Pointer (target : Z)
| Malformed.

Definition octet (d : list Byte.byte) (pos : Z) : Z :=
  u8 (nth (Z.to_nat pos) d Byte.x00).

Definition wire_item_at (d : list Byte.byte) (lim : Z) (pos : Z) : wire_item :=
  if lim <=? pos then Malformed
  else
    let b := octet d pos in
    if LABEL_IS_PTR b then
      if lim <=? pos + 1 then Malformed
      else
        let t := PTR_OFFSET b (octet d (pos + 1)) in
        if lim <=? t then Malformed else Pointer t
    else if 63 <? b then Malformed
    else if b =? 0 then End_of_name
    else if lim <? pos + 1 + b then Malformed
    else Label b.

(** Reading a name at [pos] continues at [pos']. *)
Definition wire_next (d : list Byte.byte) (lim : Z) (pos pos' : Z) : Prop :=
  match wire_item_at d lim pos with
  | Label b => pos' = pos + 1 + b
  | Pointer t => pos' = t
  | _ => False
  end.

(** The name at [pos] is complete and takes [n] octets uncompressed. *)
Inductive wire_name (d : list Byte.byte) (lim : Z) : Z -> Z -> Prop :=
| name_end pos :
    wire_item_at d lim pos = End_of_name -> wire_name d lim pos 1
| name_label pos b n :
    wire_item_at d lim pos = Label b ->
    wire_name d lim (pos + 1 + b) n -> wire_name d lim pos (1 + b + n)
| name_pointer pos t n :
    wire_item_at d lim pos = Pointer t ->
    wire_name d lim t n -> wire_name d lim pos n.

(** Reading the name at [start] comes to [pos]. *)
Definition reaches (d : list Byte.byte) (lim : Z) (start pos : Z) : Prop :=
  clos_refl_trans Z (wire_next d lim) start pos.

(** The name at [start] runs into a cycle of compression pointers. *)
Definition ptr_loop (d : list Byte.byte) (lim : Z) (start : Z) : Prop :=
  exists pos, reaches d lim start pos /\ clos_trans Z (wire_next d lim) pos pos.

(** At [pos] stands a compression pointer to an offset outside the
    message. *)
Definition oob_pointer (d : list Byte.byte) (lim : Z) (pos : Z) : Prop :=
  pos + 1 < lim /\ LABEL_IS_PTR (octet d pos) = true /\
  lim <= PTR_OFFSET (octet d pos) (octet d (pos + 1)).

(** At [pos] stands a length byte above 0x3f that is not a pointer. *)
Definition long_label (d : list Byte.byte) (lim : Z) (pos : Z) : Prop :=
  pos < lim /\ LABEL_IS_PTR (octet d pos) = false /\ 63 < octet d pos.

Lemma wire_name_pos d lim pos n : wire_name d lim pos n -> 1 <= n.
Proof.
  induction 1 as [pos H | pos b n H _ IH | pos t n H _ IH]; try lia.
  revert H. unfold wire_item_at.
  repeat match goal with |- context [if ?c then _ else _] => destruct c eqn:? end;
    try discriminate.
  intros [= <-]. pose proof (u8_nonneg (nth (Z.to_nat pos) d Byte.x00)).
  unfold octet in *. lia.
Qed.

Lemma wire_name_unique d lim pos n :
  wire_name d lim pos n -> forall m, wire_name d lim pos m -> n = m.
Proof.
  induction 1 as [pos H | pos b n H _ IH | pos t n H _ IH]; intros m Hm;
    inversion Hm; subst; try congruence.
  - assert (b0 = b) by congruence. subst. f_equal. now apply IH.
  - assert (t0 = t) by congruence. subst. now apply IH.
Qed.

Lemma wire_name_next d lim pos n pos' :
  wire_name d lim pos n -> wire_next d lim pos pos' ->
  exists m, wire_name d lim pos' m.
Proof.
  unfold wire_next. intros Hn Hx.
  inversion Hn as [? H | ? b m H Hm | ? t m H Hm]; subst; rewrite H in Hx;
    [destruct Hx | subst pos'; eauto ..].
Qed.

Lemma wire_name_reaches d lim start pos :
  reaches d lim start pos ->
  forall n, wire_name d lim start n -> exists m, wire_name d lim pos m.
Proof.
  unfold reaches. intros Hr. apply clos_rt_rt1n in Hr.
  induction Hr as [x | x y z Hxy _ IH]; intros n Hn; [eauto|].
  destruct (wire_name_next _ _ _ _ _ Hn Hxy) as (m & Hm). eauto.
Qed.

Lemma wire_next_unique d lim pos a b :
  wire_next d lim pos a -> wire_next d lim pos b -> a = b.
Proof.
  unfold wire_next. destruct (wire_item_at d lim pos); intros; subst; tauto.
Qed.

(** A complete name does not lie on a cycle. *)
Lemma wire_name_no_cycle d lim pos n :
  wire_name d lim pos n -> clos_trans Z (wire_next d lim) pos pos -> False.
Proof.
  assert (Hstep : forall p q,
            wire_next d lim p q -> clos_trans Z (wire_next d lim) p p ->
            clos_trans Z (wire_next d lim) q q).
  { intros p q Hpq Hc. pose proof (clos_trans_t1n _ _ _ _ Hc) as Hc1.
    inversion Hc1 as [? Hpp | y z Hpy Hyp]; subst.
    - now rewrite (wire_next_unique _ _ _ _ _ Hpq Hpp).
    - rewrite (wire_next_unique _ _ _ _ _ Hpq Hpy) in *.
      apply clos_t1n_trans in Hyp.
      eapply t_trans; [exact Hyp | now apply t_step]. }
  induction 1 as [pos H | pos b n H _ IH | pos t n H _ IH]; intros Hc.
  - apply clos_trans_t1n in Hc.
    inversion Hc as [? Hx | y z Hx Hy]; subst;
      unfold wire_next in Hx; rewrite H in Hx; exact Hx.
  - apply IH. apply (Hstep pos); [|assumption].
    unfold wire_next. now rewrite H.
  - apply IH. apply (Hstep pos); [|assumption].
    unfold wire_next. now rewrite H.
Qed.

(** *** What a non-zero result of pkt_dname_len means *)

Lemma pkt_dname_len_loop_sound fuel :
  forall pkt len loop endpos n pkt',
    0 <= len ->
    pkt_dname_len_loop fuel pkt len loop endpos = Some (n, pkt') ->
    n <> 0 ->
    exists m, wire_name (data pkt) (limit pkt) (position pkt) m /\
              n = len + m /\ n <= LDNS_MAX_DOMAINLEN.
Proof.
  induction fuel as [|fuel IH]; intros pkt len loop endpos n pkt' Hlen Hr Hn;
    [discriminate|].
  cbn [pkt_dname_len_loop] in Hr.
  unfold ldns_buffer_remaining, ldns_buffer_read_u8, ldns_buffer_limit,
    ldns_buffer_position, ldns_buffer_skip, ldns_buffer_set_position,
    ldns_buffer_at in Hr.
  cbn [data position limit] in Hr.
  fold (octet (data pkt) (position pkt)) in Hr.
  fold (octet (data pkt) (position pkt + 1)) in Hr.
  set (pos := position pkt) in *. set (lim := limit pkt) in *.
  set (d := data pkt) in *.
  assert (Hitem : wire_item_at d lim pos =
            if lim <=? pos then Malformed
            else if LABEL_IS_PTR (octet d pos) then
              if lim <=? pos + 1 then Malformed
              else if lim <=? PTR_OFFSET (octet d pos) (octet d (pos + 1))
                   then Malformed
                   else Pointer (PTR_OFFSET (octet d pos) (octet d (pos + 1)))
            else if 63 <? octet d pos then Malformed
            else if octet d pos =? 0 then End_of_name
            else if lim <? pos + 1 + octet d pos then Malformed
            else Label (octet d pos)) by reflexivity.
  destruct (lim - pos <? 1) eqn:E1; [injection Hr as <- _; contradiction|].
  apply Z.ltb_ge in E1.
  replace (lim <=? pos) with false in Hitem by (symmetry; apply Z.leb_gt; lia).
  destruct (LABEL_IS_PTR (octet d pos)).
  - destruct (lim - (pos + 1) <? 1) eqn:E2; [injection Hr as <- _; contradiction|].
    apply Z.ltb_ge in E2.
    replace (lim <=? pos + 1) with false in Hitem
      by (symmetry; apply Z.leb_gt; lia).
    set (ptr := PTR_OFFSET (octet d pos) (octet d (pos + 1))) in *.
    destruct (loopcheck loop ptr) as [sn loop'].
    destruct (negb (sn =? 0)); [injection Hr as <- _; contradiction|].
    destruct (lim <=? ptr) eqn:E3; [injection Hr as <- _; contradiction|].
    apply IH in Hr; [|assumption..]. cbn [data position limit] in Hr.
    destruct Hr as (m & Hm & -> & Hmax).
    exists m. repeat split; try assumption. now apply name_pointer with ptr.
  - set (b := octet d pos) in *.
    destruct (63 <? b); [injection Hr as <- _; contradiction|].
    destruct (LDNS_MAX_DOMAINLEN <? len + (1 + b)) eqn:E4;
      [injection Hr as <- _; contradiction|].
    apply Z.ltb_ge in E4.
    pose proof (u8_nonneg (nth (Z.to_nat pos) d Byte.x00)) as Hb.
    fold (octet d pos) in Hb. fold b in Hb.
    destruct (b =? 0) eqn:E5.
    + assert (En : n = len + (1 + b)) by congruence.
      apply Z.eqb_eq in E5. exists 1.
      repeat split; [now apply name_end | lia | lia].
    + destruct (lim - (pos + 1) <? b) eqn:E6; [injection Hr as <- _; contradiction|].
      apply Z.ltb_ge in E6.
      replace (lim <? pos + 1 + b) with false in Hitem
        by (symmetry; apply Z.ltb_ge; lia).
      apply IH in Hr; [|lia | assumption]. cbn [data position limit] in Hr.
      destruct Hr as (m & Hm & -> & Hmax).
      exists (1 + b + m). repeat split; [|lia | lia].
      now apply name_label.
Qed.

Lemma oob_pointer_malformed d lim pos :
  oob_pointer d lim pos -> wire_item_at d lim pos = Malformed.
Proof.
  intros (Hp & Hptr & Ht). unfold wire_item_at. rewrite Hptr.
  replace (lim <=? pos) with false by (symmetry; apply Z.leb_gt; lia).
  replace (lim <=? pos + 1) with false by (symmetry; apply Z.leb_gt; lia).
  apply Z.leb_le in Ht. now rewrite Ht.
Qed.

Lemma long_label_malformed d lim pos :
  long_label d lim pos -> wire_item_at d lim pos = Malformed.
Proof.
  intros (Hp & Hptr & Hb). unfold wire_item_at. rewrite Hptr.
  replace (lim <=? pos) with false by (symmetry; apply Z.leb_gt; lia).
  apply Z.ltb_lt in Hb. now rewrite Hb.
Qed.

Lemma wire_name_not_malformed d lim pos n :
  wire_name d lim pos n -> wire_item_at d lim pos <> Malformed.
Proof. intros H; inversion H; congruence. Qed.

Lemma pkt_dname_len_sound pkt n pkt' :
  pkt_dname_len pkt = Some (n, pkt') -> n <> 0 ->
  wire_name (data pkt) (limit pkt) (position pkt) n /\ n <= LDNS_MAX_DOMAINLEN.
Proof.
  rewrite pkt_dname_len_unfold. intros Hr Hn.
  destruct (pkt_dname_len_loop_sound _ _ _ _ _ _ _ (Z.le_refl 0) Hr Hn)
    as (m & Hm & -> & Hmax).
  now split.
Qed.

(** C8. [pkt_dname_len] returns on every buffer, and it returns 0 when the
    name at the buffer's position runs into a cycle of compression
    pointers, comes to a pointer that points outside the message, comes to
    a length byte above 0x3f that is not a pointer, or is longer than
    [LDNS_MAX_DOMAINLEN]; a non-zero result is the uncompressed length of a
    complete name.  The cycle is caught by [loopcheck], which reports a
    position of the 16384-position bitmap the second time it is asked. *)
Theorem pkt_dname_len_rejects pkt :
  buffer_ok pkt ->
  let d := data pkt in
  let lim := limit pkt in
  let start := position pkt in
  (exists n pkt',
     pkt_dname_len pkt = Some (n, pkt') /\
     (ptr_loop d lim start -> n = 0) /\
     (forall pos, reaches d lim start pos -> oob_pointer d lim pos -> n = 0) /\
     (forall pos, reaches d lim start pos -> long_label d lim pos -> n = 0) /\
     (forall m, wire_name d lim start m -> LDNS_MAX_DOMAINLEN < m -> n = 0) /\
     (n <> 0 -> wire_name d lim start n /\ n <= LDNS_MAX_DOMAINLEN)) /\
  (forall loop p,
     Z.of_nat (length loop) = LOOP_BITMAP_SIZE -> 0 <= p < MAX_COMPRESS_POS ->
     fst (loopcheck (snd (loopcheck loop p)) p) <> 0).
Proof.
  intros _ d lim start. split; [|intros loop p Hl Hp; now apply loopcheck_revisit].
  destruct (pkt_dname_len_terminates pkt) as ([n pkt'] & Hr).
  exists n, pkt'. split; [exact Hr|].
  pose proof (pkt_dname_len_sound pkt n pkt' Hr) as Hsound.
  fold d lim start in Hsound.
  assert (Hzero : forall P : Prop, (forall m, wire_name d lim start m -> ~ P) ->
                                   P -> n = 0).
  { intros P HP Hp. destruct (Z.eq_dec n 0) as [E | E]; [exact E|].
    exfalso. apply (HP n); [now apply Hsound | exact Hp]. }
  repeat split; try (now apply Hsound).
  - apply Hzero. intros m Hm (pos & Hreach & Hcyc).
    destruct (wire_name_reaches _ _ _ _ Hreach _ Hm) as (k & Hk).
    exact (wire_name_no_cycle _ _ _ _ Hk Hcyc).
  - intros pos Hreach. apply Hzero. intros m Hm Hoob.
    destruct (wire_name_reaches _ _ _ _ Hreach _ Hm) as (k & Hk).
    exact (wire_name_not_malformed _ _ _ _ Hk (oob_pointer_malformed _ _ _ Hoob)).
  - intros pos Hreach. apply Hzero. intros m Hm Hlong.
    destruct (wire_name_reaches _ _ _ _ Hreach _ Hm) as (k & Hk).
    exact (wire_name_not_malformed _ _ _ _ Hk (long_label_malformed _ _ _ Hlong)).
  - intros m Hm Hmax. destruct (Z.eq_dec n 0) as [E | E]; [exact E|].
    destruct (Hsound E) as [Hn Hle].
    rewrite (wire_name_unique _ _ _ _ Hn _ Hm) in Hle. lia.
Qed.

(** *** Complete names are measured *)

Lemma wire_item_at_end d lim pos :
  wire_item_at d lim pos = End_of_name ->
  pos < lim /\ LABEL_IS_PTR (octet d pos) = false /\ octet d pos = 0.
Proof.
  unfold wire_item_at.
  destruct (lim <=? pos) eqn:E1; [discriminate|]. apply Z.leb_gt in E1.
  destruct (LABEL_IS_PTR (octet d pos)) eqn:Ep.
  - destruct (lim <=? pos + 1); [discriminate|].
    destruct (lim <=? _); discriminate.
  - destruct (63 <? octet d pos); [discriminate|].
    destruct (octet d pos =? 0) eqn:E0.
    + apply Z.eqb_eq in E0. intros _. repeat split; [lia | exact E0].
    + destruct (lim <? _); discriminate.
Qed.

Lemma wire_item_at_label d lim pos b :
  wire_item_at d lim pos = Label b ->
  pos < lim /\ LABEL_IS_PTR (octet d pos) = false /\ b = octet d pos /\
  b <= 63 /\ b <> 0 /\ pos + 1 + b <= lim.
Proof.
  unfold wire_item_at.
  destruct (lim <=? pos) eqn:E1; [discriminate|]. apply Z.leb_gt in E1.
  destruct (LABEL_IS_PTR (octet d pos)) eqn:Ep.
  - destruct (lim <=? pos + 1); [discriminate|].
    destruct (lim <=? _); discriminate.
  - destruct (63 <? octet d pos) eqn:E2; [discriminate|]. apply Z.ltb_ge in E2.
    destruct (octet d pos =? 0) eqn:E0; [discriminate|]. apply Z.eqb_neq in E0.
    destruct (lim <? pos + 1 + octet d pos) eqn:E3; [discriminate|].
    apply Z.ltb_ge in E3. intros [= <-]. repeat split; auto; lia.
Qed.

Lemma wire_item_at_pointer d lim pos t :
  wire_item_at d lim pos = Pointer t ->
  pos + 1 < lim /\ LABEL_IS_PTR (octet d pos) = true /\
  t = PTR_OFFSET (octet d pos) (octet d (pos + 1)) /\ t < lim.
Proof.
  unfold wire_item_at.
  destruct (lim <=? pos) eqn:E1; [discriminate|]. apply Z.leb_gt in E1.
  destruct (LABEL_IS_PTR (octet d pos)) eqn:Ep.
  - destruct (lim <=? pos + 1) eqn:E2; [discriminate|]. apply Z.leb_gt in E2.
    destruct (lim <=? _) eqn:E3; [discriminate|]. apply Z.leb_gt in E3.
    intros [= E]. subst t. repeat split; auto; lia.
  - destruct (63 <? octet d pos); [discriminate|].
    destruct (octet d pos =? 0); [discriminate|].
    destruct (lim <? _); discriminate.
Qed.

Lemma seen_empty n q : 0 <= q -> seen (repeat 0 n) q = false.
Proof.
  intros Hq. rewrite seen_testbit by assumption.
  rewrite nth_repeat. apply Z.bits_0.
Qed.

(** On a complete name that fits in [LDNS_MAX_DOMAINLEN] the loop, when it
    returns, returns the length: the positions marked in the bitmap lie
    behind on the way, so none of them comes up again. *)
Lemma pkt_dname_len_loop_complete d lim pos m :
  wire_name d lim pos m ->
  forall fuel pkt len loop endpos r,
    data pkt = d -> limit pkt = lim -> position pkt = pos ->
    0 <= len -> len + m <= LDNS_MAX_DOMAINLEN ->
    Z.of_nat (length loop) = LOOP_BITMAP_SIZE ->
    (forall q, 0 <= q < MAX_COMPRESS_POS -> seen loop q = true ->
               reaches d lim q pos) ->
    pkt_dname_len_loop fuel pkt len loop endpos = Some r ->
    fst r = len + m.
Proof.
  induction 1 as [pos H | pos b n H Hn IH | pos t n H Hn IH];
    intros [|fuel] pkt len loop endpos r Hd Hlim Hpos Hlen Hmax Hl Hseen Hr;
    try discriminate;
    cbn [pkt_dname_len_loop] in Hr;
    unfold ldns_buffer_remaining, ldns_buffer_read_u8, ldns_buffer_limit,
      ldns_buffer_position, ldns_buffer_skip, ldns_buffer_set_position,
      ldns_buffer_at in Hr;
    cbn [data position limit] in Hr;
    rewrite Hd, Hlim, Hpos in Hr;
    fold (octet d pos) in Hr; fold (octet d (pos + 1)) in Hr.
  - apply wire_item_at_end in H as (H1 & H2 & H3).
    replace (lim - pos <? 1) with false in Hr by (symmetry; apply Z.ltb_ge; lia).
    rewrite H2, H3 in Hr. cbn [Z.ltb Z.compare] in Hr.
    replace (LDNS_MAX_DOMAINLEN <? len + (1 + 0)) with false in Hr
      by (symmetry; apply Z.ltb_ge; lia).
    cbn [Z.eqb] in Hr. injection Hr as <-. cbn [fst]. lia.
  - pose proof (wire_name_pos _ _ _ _ Hn) as Hn1.
    apply wire_item_at_label in H as (H1 & H2 & -> & H4 & H5 & H6).
    pose proof (u8_nonneg (nth (Z.to_nat pos) d Byte.x00)) as Hb.
    fold (octet d pos) in Hb. set (b := octet d pos) in *.
    replace (lim - pos <? 1) with false in Hr by (symmetry; apply Z.ltb_ge; lia).
    rewrite H2 in Hr.
    replace (63 <? b) with false in Hr by (symmetry; apply Z.ltb_ge; lia).
    replace (LDNS_MAX_DOMAINLEN <? len + (1 + b)) with false in Hr
      by (symmetry; apply Z.ltb_ge; lia).
    replace (b =? 0) with false in Hr by (symmetry; apply Z.eqb_neq; lia).
    replace (lim - (pos + 1) <? b) with false in Hr
      by (symmetry; apply Z.ltb_ge; lia).
    apply IH in Hr;
      [lia | reflexivity | reflexivity | reflexivity | lia | lia | assumption |].
    intros q Hq Hs.
    + eapply rt_trans; [apply (Hseen q Hq Hs)|].
      apply rt_step. unfold wire_next. fold b.
      replace (wire_item_at d lim pos) with (Label b); [lia|].
      symmetry. unfold wire_item_at. fold b. rewrite H2.
      replace (lim <=? pos) with false by (symmetry; apply Z.leb_gt; lia).
      replace (63 <? b) with false by (symmetry; apply Z.ltb_ge; lia).
      replace (b =? 0) with false by (symmetry; apply Z.eqb_neq; lia).
      replace (lim <? pos + 1 + b) with false by (symmetry; apply Z.ltb_ge; lia).
      reflexivity.
  - pose proof H as Hitem.
    apply wire_item_at_pointer in H as (H1 & H2 & -> & H4).
    set (t := PTR_OFFSET (octet d pos) (octet d (pos + 1))) in *.
    assert (Ht : 0 <= t < MAX_COMPRESS_POS)
      by (apply PTR_OFFSET_range, u8_bound).
    assert (Hstep : wire_next d lim pos t)
      by (unfold wire_next; now rewrite Hitem).
    replace (lim - pos <? 1) with false in Hr by (symmetry; apply Z.ltb_ge; lia).
    rewrite H2 in Hr.
    replace (lim - (pos + 1) <? 1) with false in Hr
      by (symmetry; apply Z.ltb_ge; lia).
    assert (Hunseen : seen loop t = false).
    { destruct (seen loop t) eqn:Es; [|reflexivity]. exfalso.
      apply (wire_name_no_cycle _ _ _ _ Hn).
      eapply clos_rt_t; [apply (Hseen t Ht Es) | now apply t_step]. }
    pose proof (loopcheck_seen loop t) as Hafter.
    pose proof (loopcheck_length loop t) as Hlen'.
    unfold seen in Hunseen.
    destruct (loopcheck loop t) as [sn loop'] eqn:Elc. cbn [fst snd] in *.
    rewrite Hunseen in Hr.
    replace (lim <=? t) with false in Hr by (symmetry; apply Z.leb_gt; lia).
    assert (Hidx : (Z.to_nat (t / 8) < length loop)%nat).
    { unfold LOOP_BITMAP_SIZE, MAX_COMPRESS_POS in *.
      change (16384 / 8) with 2048 in Hl.
      assert (t / 8 < 2048) by (apply Z.div_lt_upper_bound; lia).
      pose proof (Z.div_pos t 8 ltac:(lia) ltac:(lia)). lia. }
    apply IH in Hr;
      [lia | reflexivity | reflexivity | reflexivity | lia | lia | lia |].
    intros q Hq Hs. rewrite Hafter in Hs by (try assumption; lia).
    apply orb_prop in Hs as [Hs | Hs].
    + eapply rt_trans; [apply (Hseen q Hq Hs) | now apply rt_step].
    + apply Z.eqb_eq in Hs. subst q. apply rt_refl.
Qed.

(** [pkt_dname_len] returns the uncompressed length of every complete name
    of at most [LDNS_MAX_DOMAINLEN] octets. *)
Lemma pkt_dname_len_complete pkt m :
  wire_name (data pkt) (limit pkt) (position pkt) m ->
  m <= LDNS_MAX_DOMAINLEN ->
  exists pkt', pkt_dname_len pkt = Some (m, pkt').
Proof.
  intros Hm Hmax. destruct (pkt_dname_len_terminates pkt) as ([n pkt'] & Hr).
  exists pkt'. rewrite Hr. f_equal. f_equal.
  rewrite pkt_dname_len_unfold in Hr.
  assert (Hnone : forall q, 0 <= q < MAX_COMPRESS_POS ->
            seen (repeat 0 (Z.to_nat LOOP_BITMAP_SIZE)) q = true ->
            reaches (data pkt) (limit pkt) q (position pkt)).
  { intros q Hq Hs. rewrite seen_empty in Hs by lia. discriminate. }
  assert (Hfit : 0 + m <= LDNS_MAX_DOMAINLEN) by lia.
  pose proof (pkt_dname_len_loop_complete _ _ _ _ Hm _ _ _ _ _ _
                eq_refl eq_refl eq_refl (Z.le_refl 0) Hfit
                repeat_bitmap_length Hnone Hr) as E.
  cbn [fst] in E. lia.
Qed.

(** A message of the given octets, read from [pos]. *)
Definition message (octets : list Z) (pos : Z) : ldns_buffer :=
  mk_buffer (map byte_of_Z octets) pos (Z.of_nat (length octets)).

(** The name "a." at offset 0 and a pointer to it at offset 3. *)
Example pkt_dname_len_pointer :
  option_map (fun r => (fst r, position (snd r)))
    (pkt_dname_len (message [1; 97; 0; 192; 0] 3)) = Some (3, 5).
Proof. vm_compute. reflexivity. Qed.

(** Two pointers that point at each other. *)
Definition message_loop : ldns_buffer := message [192; 2; 192; 0] 0.

Example pkt_dname_len_loop_example :
  option_map fst (pkt_dname_len message_loop) = Some 0.
Proof. vm_compute. reflexivity. Qed.

Lemma message_loop_ok : buffer_ok message_loop.
Proof. unfold buffer_ok; cbn; lia. Qed.

Lemma message_loop_cycle :
  ptr_loop (data message_loop) (limit message_loop) (position message_loop).
Proof.
  exists 0. split; [apply rt_refl|].
  apply t_trans with 2; apply t_step; reflexivity.
Qed.

Lemma pkt_dname_len_rejects_witness :
  exists pkt', pkt_dname_len message_loop = Some (0, pkt').
Proof.
  destruct (pkt_dname_len_rejects message_loop message_loop_ok)
    as [(n & pkt' & Hr & Hloop & _) _].
  exists pkt'. rewrite Hr, (Hloop message_loop_cycle). reflexivity.
Defined.

End Dname.

(** ** services/outside_network.h

    The header declares the TCP pool and the serviced-query index;
    outside_network.c, which implements them, is not among the sources. *)

Module Outnet.

(** *** The TCP pool *)

(** Discriminant handed to a callback. *)
Inductive status : Type := Reply | Network | Timeout.

(** [struct waiting_tcp]: [w_id] is the address of the struct; [w_pkt] is
    NULL once the packet has been handed to a slot; [w_deadline] is the time
    at which [timer] fires. *)
Record waiting_tcp := mk_waiting {
  w_id : nat;
  w_addr : Z;
  w_pkt : option (list Z);
  w_deadline : Z;
  w_cb : nat
}.

Definition take_pkt (w : waiting_tcp) : waiting_tcp :=
  {| w_id := w_id w; w_addr := w_addr w; w_pkt := None;
     w_deadline := w_deadline w; w_cb := w_cb w |}.

(** [struct pending_tcp] in use: the slot, the packet it writes and the
    query being serviced. *)
Record pending_tcp := mk_pending {
  slot : nat;
  slot_pkt : list Z;
  query : waiting_tcp
}.

(** The TCP part of [struct outside_network], with the clock of the event
    base, the callbacks delivered so far (request, callback, status) and the
    next address that an allocation returns. *)
Record outside_network := mk_outnet {
  tcp_free : list nat;
  tcp_busy : list pending_tcp;
  tcp_wait : list waiting_tcp;
  callbacks : list (nat * nat * status);
  next_id : nat;
  clock : Z
}.

(** Modelled from the spec: [outside_network_create] of outside_network.c,
    which is not among the sources ("Fixed pool of N slots, initially all on
    a singly linked freelist"). *)
Definition outside_network_create (num_tcp : nat) : outside_network :=
  mk_outnet (seq 0 num_tcp) [] [] [] 0 0.

(** Modelled from the spec: the hand-over of a waiting request to a free
    slot in outside_network.c ("pop a slot, transfer the packet bytes into
    the slot"); without a free slot or without the packet nothing happens. *)
Definition tcp_dispatch (w : waiting_tcp) (o : outside_network)
    : option outside_network :=
  match tcp_free o, w_pkt w with
  | s :: free, Some pkt =>
      Some (mk_outnet free (tcp_busy o ++ [mk_pending s pkt (take_pkt w)])
              (tcp_wait o) (callbacks o) (next_id o) (clock o))
  | _, _ => None
  end.

(** Modelled from the spec: [pending_tcp_query] of outside_network.c
    ("if freelist non-empty, pop a slot, ...; otherwise append the request
    (with its owned packet) to the wait queue. The request's timeout timer
    starts at submission, not at dispatch"); the header says of [timeout]:
    "in seconds from now. Timer starts running now." *)
Definition pending_tcp_query (o : outside_network) (packet : list Z)
    (addr : Z) (timeout : Z) (cb : nat) : outside_network :=
  let w := mk_waiting (next_id o) addr (Some packet) (clock o + timeout) cb in
  let o1 := mk_outnet (tcp_free o) (tcp_busy o) (tcp_wait o) (callbacks o)
              (S (next_id o)) (clock o) in
  match tcp_dispatch w o1 with
  | Some o2 => o2
  | None =>
      mk_outnet (tcp_free o1) (tcp_busy o1) (tcp_wait o1 ++ [w])
        (callbacks o1) (next_id o1) (clock o1)
  end.

(** Modelled from the spec: what outside_network.c does with a freed slot
    ("if the wait queue is non-empty pop its head and submit it to this
    now-free slot"). *)
Definition use_free_buffer (o : outside_network) : outside_network :=
  match tcp_wait o with
  | w :: rest =>
      match tcp_dispatch w
              (mk_outnet (tcp_free o) (tcp_busy o) rest (callbacks o)
                 (next_id o) (clock o)) with
      | Some o' => o'
      | None => o
      end
  | [] => o
  end.

(** Unlinking the first element that [f] selects, the one [find] returns. *)
Fixpoint unlink {A} (f : A -> bool) (l : list A) : list A :=
  match l with
  | [] => []
  | x :: rest => if f x then rest else x :: unlink f rest
  end.

(** Modelled from the spec: slot completion in outside_network.c ("dispatch
    the request's callback with the appropriate status, return the slot to
    the freelist, then if the wait queue is non-empty pop its head and submit
    it to this now-free slot"). *)
Definition tcp_slot_done (s : nat) (st : status) (o : outside_network)
    : outside_network :=
  match find (fun p => (slot p =? s)%nat) (tcp_busy o) with
  | Some p =>
      use_free_buffer
        (mk_outnet (s :: tcp_free o)
           (unlink (fun p => (slot p =? s)%nat) (tcp_busy o)) (tcp_wait o)
           (callbacks o ++ [(w_id (query p), w_cb (query p), st)])
           (next_id o) (clock o))
  | None => o
  end.

(** Modelled from the spec: the timer callback of a TCP request in
    outside_network.c ("if the head (or any) queued request's timer fires,
    signal Timeout to its callback and unlink it; free its packet. The slot
    state is unaffected"; "firing while the request is already terminal is a
    no-op"); the header says that the "timer keeps running whether the query
    is waiting for a buffer or the tcp reply is pending", so the timer of a
    request in a slot completes the slot with Timeout.  The timer of request
    [id] fires only once the clock has reached its deadline. *)
Definition outnet_tcptimer (id : nat) (o : outside_network) : outside_network :=
  match find (fun w => (w_id w =? id)%nat) (tcp_wait o) with
  | Some w =>
      if w_deadline w <=? clock o then
        mk_outnet (tcp_free o) (tcp_busy o)
          (unlink (fun w => (w_id w =? id)%nat) (tcp_wait o))
          (callbacks o ++ [(w_id w, w_cb w, Timeout)]) (next_id o) (clock o)
      else o
  | None =>
      match find (fun p => (w_id (query p) =? id)%nat) (tcp_busy o) with
      | Some p =>
          if w_deadline (query p) <=? clock o
          then tcp_slot_done (slot p) Timeout o
          else o
      | None => o
      end
  end.

(** What can happen to the pool. *)
Inductive event : Type :=
| Submit (packet : list Z) (addr : Z) (timeout : Z) (cb : nat)
| Slot_done (s : nat) (st : status)
| Timer (id : nat)
| Advance (t : Z).

Definition step (e : event) (o : outside_network) : outside_network :=
  match e with
  | Submit packet addr timeout cb => pending_tcp_query o packet addr timeout cb
  | Slot_done s st => tcp_slot_done s st o
  | Timer id => outnet_tcptimer id o
  | Advance t =>
      mk_outnet (tcp_free o) (tcp_busy o) (tcp_wait o) (callbacks o)
        (next_id o) (Z.max (clock o) t)
  end.

Definition run (evs : list event) (o : outside_network) : outside_network :=
  fold_left (fun o e => step e o) evs o.

Definition wait_ids (o : outside_network) : list nat := map w_id (tcp_wait o).

Definition busy_ids (o : outside_network) : list nat :=
  map (fun p => w_id (query p)) (tcp_busy o).

Definition busy_slots (o : outside_network) : list nat := map slot (tcp_busy o).

Definition callback_ids (o : outside_network) : list nat :=
  map (fun c => fst (fst c)) (callbacks o).

Definition live_ids (o : outside_network) : list nat :=
  wait_ids o ++ busy_ids o.

(** Requests are distinct, were allocated before [next_id], and have had no
    callback while they wait or are in a slot; no request has had two
    callbacks. *)
Definition pool_ok (o : outside_network) : Prop :=
  NoDup (live_ids o) /\
  (forall id, In id (live_ids o) \/ In id (callback_ids o) -> (id < next_id o)%nat) /\
  (forall id, In id (live_ids o) -> ~ In id (callback_ids o)) /\
  NoDup (callback_ids o).

(** The request is no longer in the queue or in a slot. *)
Definition gone (id : nat) (o : outside_network) : Prop :=
  (id < next_id o)%nat /\ ~ In id (live_ids o).

(** The request is no longer, or not, in the queue. *)
Definition left_queue (id : nat) (o : outside_network) : Prop :=
  (id < next_id o)%nat /\ ~ In id (wait_ids o).

(** The callbacks that request [id] has had. *)
Definition callbacks_of (id : nat) (o : outside_network)
    : list (nat * nat * status) :=
  filter (fun c => (fst (fst c) =? id)%nat) (callbacks o).

(** How an event changes the requests of the pool. *)
Inductive effect (o o' : outside_network) : Prop :=
| eff_none :
    wait_ids o' = wait_ids o -> busy_ids o' = busy_ids o ->
    callbacks o' = callbacks o -> next_id o' = next_id o ->
    effect o o'
| eff_move :
    Permutation (live_ids o') (live_ids o) ->
    incl (wait_ids o') (wait_ids o) ->
    callbacks o' = callbacks o -> next_id o' = next_id o ->
    effect o o'
| eff_submit :
    next_id o' = S (next_id o) -> callbacks o' = callbacks o ->
    Permutation (live_ids o') (next_id o :: live_ids o) ->
    incl (wait_ids o') (next_id o :: wait_ids o) ->
    effect o o'
| eff_finish id cb st :
    In id (live_ids o) ->
    callbacks o' = callbacks o ++ [(id, cb, st)] ->
    Permutation (live_ids o) (id :: live_ids o') ->
    incl (wait_ids o') (wait_ids o) ->
    next_id o' = next_id o ->
    effect o o'.

Lemma find_unlink {A} (f : A -> bool) (l : list A) (p : A) :
  find f l = Some p -> Permutation l (p :: unlink f l) /\ f p = true /\ In p l.
Proof.
  induction l as [|x l IH]; simpl; [discriminate|].
  destruct (f x) eqn:Ef.
  - intros [= <-]. repeat split; auto.
  - intros H. destruct (IH H) as (Hp & Hf & Hin). repeat split; auto.
    rewrite Hp at 1. apply perm_swap.
Qed.

Lemma unlink_incl {A} (f : A -> bool) (l : list A) : incl (unlink f l) l.
Proof.
  induction l as [|x l IH]; simpl; [apply incl_refl|].
  destruct (f x); [apply incl_tl, incl_refl|].
  apply incl_cons; [now left | now apply incl_tl].
Qed.

Lemma tcp_dispatch_some w o o' :
  tcp_dispatch w o = Some o' ->
  exists s free pkt,
    tcp_free o = s :: free /\ w_pkt w = Some pkt /\
    o' = mk_outnet free (tcp_busy o ++ [mk_pending s pkt (take_pkt w)])
           (tcp_wait o) (callbacks o) (next_id o) (clock o).
Proof.
  unfold tcp_dispatch. destruct (tcp_free o) as [|s free]; [discriminate|].
  destruct (w_pkt w) as [pkt|]; [|discriminate].
  intros [= <-]. now exists s, free, pkt.
Qed.

Lemma use_free_buffer_effect o :
  Permutation (live_ids (use_free_buffer o)) (live_ids o) /\
  incl (wait_ids (use_free_buffer o)) (wait_ids o) /\
  callbacks (use_free_buffer o) = callbacks o /\
  next_id (use_free_buffer o) = next_id o.
Proof.
  unfold use_free_buffer. destruct (tcp_wait o) as [|w rest] eqn:Ew.
  - repeat split; auto using incl_refl.
  - destruct (tcp_dispatch w _) as [o'|] eqn:Ed.
    + apply tcp_dispatch_some in Ed as (s & free & pkt & _ & _ & ->).
      unfold live_ids, wait_ids, busy_ids. cbn [tcp_wait tcp_busy callbacks next_id].
      rewrite Ew. repeat split; auto.
      * rewrite map_app. cbn [map query take_pkt w_id].
        rewrite app_assoc. symmetry.
        apply (Permutation_cons_app (map w_id rest ++ _) nil (w_id w)).
        now rewrite app_nil_r.
      * apply incl_tl, incl_refl.
    + repeat split; auto using incl_refl.
Qed.

Lemma tcp_slot_done_effect s st o : effect o (tcp_slot_done s st o).
Proof.
  unfold tcp_slot_done.
  destruct (find _ (tcp_busy o)) as [p|] eqn:Ef; [|now apply eff_none].
  apply find_unlink in Ef as (Hperm & _ & Hin).
  match goal with |- effect o (use_free_buffer ?x) => set (o1 := x) end.
  destruct (use_free_buffer_effect o1) as (Hl & Hw & Hc & Hn).
  apply eff_finish with (w_id (query p)) (w_cb (query p)) st.
  - unfold live_ids, busy_ids. apply in_or_app. right.
    now apply (in_map (fun p => w_id (query p))).
  - now rewrite Hc.
  - rewrite Hl. unfold o1, live_ids, wait_ids, busy_ids.
    cbn [tcp_wait tcp_busy].
    apply (Permutation_map (fun p => w_id (query p))) in Hperm. cbn [map] in Hperm.
    rewrite Hperm. symmetry. apply Permutation_middle.
  - exact Hw.
  - exact Hn.
Qed.

Lemma outnet_tcptimer_effect id o : effect o (outnet_tcptimer id o).
Proof.
  unfold outnet_tcptimer.
  destruct (find _ (tcp_wait o)) as [w|] eqn:Ef.
  - destruct (w_deadline w <=? clock o); [|now apply eff_none].
    apply find_unlink in Ef as (Hperm & _ & Hin).
    apply eff_finish with (w_id w) (w_cb w) Timeout; auto.
    + unfold live_ids, wait_ids. apply in_or_app. left. now apply in_map.
    + unfold live_ids, wait_ids, busy_ids. cbn [tcp_wait tcp_busy].
      apply (Permutation_map w_id) in Hperm. cbn [map] in Hperm.
      now rewrite Hperm.
    + unfold wait_ids. cbn [tcp_wait]. apply incl_map, unlink_incl.
  - destruct (find _ (tcp_busy o)) as [p|]; [|now apply eff_none].
    destruct (w_deadline (query p) <=? clock o); [|now apply eff_none].
    apply tcp_slot_done_effect.
Qed.

Lemma pending_tcp_query_effect o packet addr timeout cb :
  effect o (pending_tcp_query o packet addr timeout cb).
Proof.
  unfold pending_tcp_query.
  destruct (tcp_dispatch _ _) as [o2|] eqn:Ed.
  - apply tcp_dispatch_some in Ed as (s & free & pkt & _ & _ & ->).
    apply eff_submit; auto.
    + unfold live_ids, wait_ids, busy_ids. cbn [tcp_wait tcp_busy].
      rewrite map_app. cbn [map query take_pkt w_id]. rewrite app_assoc.
      symmetry. apply (Permutation_cons_app _ nil). now rewrite app_nil_r.
    + apply incl_tl, incl_refl.
  - apply eff_submit; auto.
    + unfold live_ids, wait_ids, busy_ids. cbn [tcp_wait tcp_busy].
      rewrite map_app. cbn [map w_id]. rewrite <- app_assoc. cbn [app].
      symmetry. apply Permutation_middle.
    + unfold wait_ids. cbn [tcp_wait]. rewrite map_app. cbn [map w_id].
      intros x Hx. apply in_app_or in Hx as [Hx | [<- | []]];
        [now right | now left].
Qed.

Lemma step_effect e o : effect o (step e o).
Proof.
  destruct e as [packet addr timeout cb | s st | id | t]; cbn [step].
  - apply pending_tcp_query_effect.
  - apply tcp_slot_done_effect.
  - apply outnet_tcptimer_effect.
  - now apply eff_none.
Qed.

Lemma effect_pool_ok o o' : pool_ok o -> effect o o' -> pool_ok o'.
Proof.
  intros (Hnd & Hlt & Hcb & Hcnd) [Hw Hb Hc Hn | Hp Hw Hc Hn | Hn Hc Hp Hw
                                  | id cb st Hin Hc Hp Hw Hn];
    unfold pool_ok, live_ids, callback_ids in *.
  - rewrite Hw, Hb, Hc, Hn. auto.
  - rewrite Hc, Hn. repeat split; auto.
    + now apply (Permutation_NoDup (Permutation_sym Hp)).
    + intros id [H | H]; apply Hlt; [left | now right].
      now apply (Permutation_in _ Hp).
    + intros id H. apply Hcb. now apply (Permutation_in _ Hp).
  - rewrite Hc, Hn. repeat split; auto.
    + apply (Permutation_NoDup (Permutation_sym Hp)). constructor; [|assumption].
      intros H. specialize (Hlt (next_id o) (or_introl H)). lia.
    + intros id [H | H].
      * apply (Permutation_in _ Hp) in H as [<- | H]; [lia|].
        specialize (Hlt id (or_introl H)). lia.
      * specialize (Hlt id (or_intror H)). lia.
    + intros id H Hcid. apply (Permutation_in _ Hp) in H as [<- | H].
      * specialize (Hlt _ (or_intror Hcid)). lia.
      * now apply (Hcb id).
  - rewrite Hc, Hn, map_app. cbn [map fst].
    pose proof (Permutation_NoDup Hp Hnd) as Hnd'.
    inversion Hnd' as [|? ? Hnotin Hnd'']; subst.
    repeat split; auto.
    + intros x [H | H].
      * apply Hlt. left. apply (Permutation_in _ (Permutation_sym Hp)). now right.
      * apply in_app_or in H as [H | [<- | []]]; apply Hlt; auto.
    + intros x H Hx. apply in_app_or in Hx as [Hx | [<- | []]].
      * apply (Hcb x); [|assumption].
        apply (Permutation_in _ (Permutation_sym Hp)). now right.
      * contradiction.
    + apply NoDup_app; [assumption | repeat constructor; intros [] |].
      intros x Hx [E | []]. subst x. now apply (Hcb id).
Qed.

Lemma callbacks_of_app o o' id c :
  callbacks o' = callbacks o ++ [c] -> fst (fst c) <> id ->
  callbacks_of id o' = callbacks_of id o.
Proof.
  unfold callbacks_of. intros -> Hne. rewrite filter_app. cbn [filter].
  apply Nat.eqb_neq in Hne. rewrite Hne. apply app_nil_r.
Qed.

Lemma effect_gone id o o' :
  gone id o -> effect o o' ->
  gone id o' /\ callbacks_of id o' = callbacks_of id o.
Proof.
  intros [Hlt Hnot] [Hw Hb Hc Hn | Hp Hw Hc Hn | Hn Hc Hp Hw
                    | id0 cb st Hin Hc Hp Hw Hn];
    unfold gone, callbacks_of, live_ids in *.
  - rewrite Hw, Hb, Hc, Hn. auto.
  - rewrite Hc, Hn. repeat split; auto.
    intros H. apply Hnot. now apply (Permutation_in _ Hp).
  - rewrite Hc, Hn. repeat split; auto.
    intros H. apply (Permutation_in _ Hp) in H as [E | H]; [lia | auto].
  - rewrite Hn. repeat split; auto.
    + intros H. apply Hnot.
      apply (Permutation_in _ (Permutation_sym Hp)). now right.
    + apply (callbacks_of_app o o' id _ Hc). cbn. intros ->. contradiction.
Qed.

Lemma effect_left_queue id o o' :
  left_queue id o -> effect o o' -> left_queue id o'.
Proof.
  intros [Hlt Hnot] [Hw Hb Hc Hn | Hp Hw Hc Hn | Hn Hc Hp Hw
                    | id0 cb st Hin Hc Hp Hw Hn];
    unfold left_queue in *.
  - rewrite Hw, Hn. auto.
  - rewrite Hn. split; auto.
  - rewrite Hn. split; [lia|]. intros H. apply Hw in H as [E | H]; [lia | auto].
  - rewrite Hn. split; auto.
Qed.

Lemma run_app evs1 evs2 o : run (evs1 ++ evs2) o = run evs2 (run evs1 o).
Proof. apply fold_left_app. Qed.

Lemma run_pool_ok evs : forall o, pool_ok o -> pool_ok (run evs o).
Proof.
  induction evs as [|e evs IH]; intros o Ho; [exact Ho|].
  apply IH. eapply effect_pool_ok; [exact Ho | apply step_effect].
Qed.

Lemma run_gone id evs :
  forall o, gone id o ->
    gone id (run evs o) /\ callbacks_of id (run evs o) = callbacks_of id o.
Proof.
  induction evs as [|e evs IH]; intros o Ho; [now split|].
  destruct (effect_gone id o (step e o) Ho (step_effect e o)) as [Hg Hc].
  destruct (IH _ Hg) as [Hg' Hc']. split; [exact Hg'|].
  change (run (e :: evs) o) with (run evs (step e o)). now rewrite Hc'.
Qed.

Lemma run_left_queue id evs :
  forall o, left_queue id o -> left_queue id (run evs o).
Proof.
  induction evs as [|e evs IH]; intros o Ho; [exact Ho|].
  apply IH. eapply effect_left_queue; [exact Ho | apply step_effect].
Qed.

Lemma outside_network_create_ok num_tcp : pool_ok (outside_network_create num_tcp).
Proof.
  unfold pool_ok, live_ids, wait_ids, busy_ids, callback_ids. cbn.
  repeat split; try constructor; intros id H; try tauto.
Qed.

Lemma NoDup_app_disjoint {A} (l1 l2 : list A) x :
  NoDup (l1 ++ l2) -> In x l1 -> In x l2 -> False.
Proof.
  induction l1 as [|y l1 IH]; cbn; intros Hnd H1 H2; [tauto|].
  inversion Hnd as [|? ? Hy Hnd']; subst.
  destruct H1 as [-> | H1]; [|eauto].
  apply Hy. apply in_or_app. now right.
Qed.

Lemma NoDup_map_eq {A B} (f : A -> B) (l : list A) x y :
  NoDup (map f l) -> In x l -> In y l -> f x = f y -> x = y.
Proof.
  induction l as [|z l IH]; cbn; intros Hnd Hx Hy E; [tauto|].
  inversion Hnd as [|? ? Hz Hnd']; subst.
  destruct Hx as [-> | Hx], Hy as [-> | Hy]; auto.
  - exfalso. apply Hz. rewrite E. now apply in_map.
  - exfalso. apply Hz. rewrite <- E. now apply in_map.
Qed.

Lemma pool_ok_wait_NoDup o : pool_ok o -> NoDup (wait_ids o).
Proof. intros (Hnd & _). unfold live_ids in Hnd. now apply NoDup_app_remove_r in Hnd. Qed.

Lemma find_wait_id o w :
  pool_ok o -> In w (tcp_wait o) ->
  find (fun w' => (w_id w' =? w_id w)%nat) (tcp_wait o) = Some w.
Proof.
  intros Hok Hin.
  destruct (find _ (tcp_wait o)) as [w0|] eqn:Ef.
  - apply find_some in Ef as [Hin0 E]. apply Nat.eqb_eq in E.
    f_equal. eapply NoDup_map_eq; eauto. now apply pool_ok_wait_NoDup.
  - exfalso. apply (find_none _ _ Ef) in Hin. now rewrite Nat.eqb_refl in Hin.
Qed.

(** Where a request that is in a slot after an event was before it. *)
Lemma use_free_buffer_busy o p :
  In p (tcp_busy (use_free_buffer o)) ->
  In p (tcp_busy o) \/ exists w, In w (tcp_wait o) /\ query p = take_pkt w.
Proof.
  unfold use_free_buffer. destruct (tcp_wait o) as [|w rest]; [auto|].
  destruct (tcp_dispatch w _) as [o'|] eqn:Ed; [|auto].
  apply tcp_dispatch_some in Ed as (s & free & pkt & _ & _ & ->).
  cbn [tcp_busy]. intros H. apply in_app_or in H as [H | [<- | []]]; [auto|].
  right. exists w. split; [now left | reflexivity].
Qed.

Lemma tcp_slot_done_busy s st o p :
  In p (tcp_busy (tcp_slot_done s st o)) ->
  In p (tcp_busy o) \/ exists w, In w (tcp_wait o) /\ query p = take_pkt w.
Proof.
  unfold tcp_slot_done. destruct (find _ (tcp_busy o)); [|auto].
  intros H. apply use_free_buffer_busy in H as [H | H]; [|right; exact H].
  left. cbn [tcp_busy] in H. now apply unlink_incl in H.
Qed.

Lemma step_busy e o p :
  In p (tcp_busy (step e o)) ->
  In p (tcp_busy o) \/
  (exists w, In w (tcp_wait o) /\ query p = take_pkt w) \/
  w_id (query p) = next_id o.
Proof.
  destruct e as [packet addr timeout cb | s st | id | t]; cbn [step].
  - unfold pending_tcp_query. destruct (tcp_dispatch _ _) as [o2|] eqn:Ed.
    + apply tcp_dispatch_some in Ed as (s & free & pkt & _ & _ & ->).
      cbn [tcp_busy]. intros H. apply in_app_or in H as [H | [<- | []]]; auto.
    + cbn [tcp_busy]. auto.
  - intros H. apply tcp_slot_done_busy in H. tauto.
  - unfold outnet_tcptimer. destruct (find _ (tcp_wait o)) as [w|].
    + destruct (w_deadline w <=? clock o); cbn [tcp_busy]; auto.
    + destruct (find _ (tcp_busy o)) as [q|]; [|auto].
      destruct (w_deadline (query q) <=? clock o); [|auto].
      intros H. apply tcp_slot_done_busy in H. tauto.
  - cbn [tcp_busy]. auto.
Qed.

(** The free list and the slots in use partition the slots of the pool. *)
Lemma tcp_dispatch_slots w o o' :
  tcp_dispatch w o = Some o' ->
  Permutation (tcp_free o' ++ busy_slots o') (tcp_free o ++ busy_slots o).
Proof.
  intros H. apply tcp_dispatch_some in H as (s & free & pkt & Hf & _ & ->).
  unfold busy_slots. cbn [tcp_free tcp_busy]. rewrite Hf, map_app.
  cbn [map slot app]. rewrite app_assoc. symmetry.
  apply (Permutation_cons_app _ nil). now rewrite app_nil_r.
Qed.

Lemma use_free_buffer_slots o :
  Permutation (tcp_free (use_free_buffer o) ++ busy_slots (use_free_buffer o))
              (tcp_free o ++ busy_slots o).
Proof.
  unfold use_free_buffer. destruct (tcp_wait o) as [|w rest]; [reflexivity|].
  destruct (tcp_dispatch w _) as [o'|] eqn:Ed; [|reflexivity].
  now apply tcp_dispatch_slots in Ed.
Qed.

Lemma tcp_slot_done_slots s st o :
  Permutation (tcp_free (tcp_slot_done s st o) ++ busy_slots (tcp_slot_done s st o))
              (tcp_free o ++ busy_slots o).
Proof.
  unfold tcp_slot_done.
  destruct (find _ (tcp_busy o)) as [p|] eqn:Ef; [|reflexivity].
  rewrite use_free_buffer_slots. unfold busy_slots. cbn [tcp_free tcp_busy].
  apply find_unlink in Ef as (Hperm & Hs & _). apply Nat.eqb_eq in Hs.
  apply (Permutation_map slot) in Hperm. cbn [map] in Hperm.
  rewrite Hperm, Hs. cbn [app]. apply Permutation_middle.
Qed.

Lemma step_slots e o :
  Permutation (tcp_free (step e o) ++ busy_slots (step e o))
              (tcp_free o ++ busy_slots o).
Proof.
  destruct e as [packet addr timeout cb | s st | id | t]; cbn [step].
  - unfold pending_tcp_query. destruct (tcp_dispatch _ _) as [o2|] eqn:Ed.
    + now apply tcp_dispatch_slots in Ed.
    + reflexivity.
  - apply tcp_slot_done_slots.
  - unfold outnet_tcptimer. destruct (find _ (tcp_wait o)) as [w|].
    + destruct (w_deadline w <=? clock o); reflexivity.
    + destruct (find _ (tcp_busy o)) as [p|]; [|reflexivity].
      destruct (w_deadline (query p) <=? clock o); [|reflexivity].
      apply tcp_slot_done_slots.
  - reflexivity.
Qed.

Lemma run_slots evs num_tcp :
  let o := run evs (outside_network_create num_tcp) in
  Permutation (tcp_free o ++ busy_slots o) (seq 0 num_tcp) /\
  NoDup (tcp_free o ++ busy_slots o).
Proof.
  cbn zeta.
  assert (H : forall o,
            Permutation (tcp_free (run evs o) ++ busy_slots (run evs o))
                        (tcp_free o ++ busy_slots o)).
  { induction evs as [|e evs IH]; intros o; [reflexivity|].
    change (run (e :: evs) o) with (run evs (step e o)).
    rewrite IH. apply step_slots. }
  specialize (H (outside_network_create num_tcp)).
  unfold busy_slots at 2 in H. cbn [outside_network_create tcp_free tcp_busy map] in H.
  rewrite app_nil_r in H. split; [exact H|].
  apply (Permutation_NoDup (Permutation_sym H)), seq_NoDup.
Qed.

(** C6. In every state that the pool reaches from its creation: a
    submitted request carries the deadline "clock at submission plus
    timeout", whether it gets a slot or joins the wait queue, and a later
    hand-over from the queue to a slot leaves that deadline as it is; when
    the timer of a queued request fires, exactly one callback, Timeout, is
    delivered for it, the free list and the slots in use are unchanged, and
    the request has never been in a slot before and is never in one
    afterwards. *)
Theorem tcp_timer_runs_from_submission (num_tcp : nat) (evs : list event) :
  let o := run evs (outside_network_create num_tcp) in
  (forall packet addr timeout cb,
     let o1 := pending_tcp_query o packet addr timeout cb in
     let w := mk_waiting (next_id o) addr (Some packet) (clock o + timeout) cb in
     (tcp_free o = [] /\ tcp_wait o1 = tcp_wait o ++ [w] /\
      tcp_busy o1 = tcp_busy o /\ tcp_free o1 = [])
     \/
     (exists s free,
        tcp_free o = s :: free /\ tcp_free o1 = free /\
        tcp_wait o1 = tcp_wait o /\
        tcp_busy o1 = tcp_busy o ++ [mk_pending s packet (take_pkt w)])) /\
  (forall e w p,
     In w (tcp_wait o) -> In p (tcp_busy (step e o)) ->
     w_id (query p) = w_id w -> w_deadline (query p) = w_deadline w) /\
  (forall w,
     In w (tcp_wait o) -> w_deadline w <= clock o ->
     let o' := outnet_tcptimer (w_id w) o in
     callbacks o' = callbacks o ++ [(w_id w, w_cb w, Timeout)] /\
     tcp_free o' = tcp_free o /\ tcp_busy o' = tcp_busy o /\
     (forall evs1 evs2, evs = evs1 ++ evs2 ->
        ~ In (w_id w) (busy_ids (run evs1 (outside_network_create num_tcp)))) /\
     (forall later,
        let o'' := run later o' in
        ~ In (w_id w) (busy_ids o'') /\ ~ In (w_id w) (wait_ids o'') /\
        callbacks_of (w_id w) o'' = [(w_id w, w_cb w, Timeout)])).
Proof.
  intros o.
  assert (Hok : pool_ok o)
    by (apply run_pool_ok, outside_network_create_ok).
  split; [|split].
  - intros packet addr timeout cb o1 w. subst o1. unfold pending_tcp_query.
    fold w. unfold tcp_dispatch. cbn [tcp_free w_pkt w].
    destruct (tcp_free o) as [|s free].
    + left. repeat split.
    + right. exists s, free. repeat split.
  - intros e w p Hw Hp Hid. destruct Hok as (Hnd & Hlt & _).
    apply step_busy in Hp as [Hp | [(w0 & Hw0 & Hq) | Hn]].
    + exfalso. apply (NoDup_app_disjoint _ _ (w_id w) Hnd).
      * now apply in_map.
      * rewrite <- Hid. now apply (in_map (fun p => w_id (query p))).
    + rewrite Hq in *. cbn [take_pkt w_id w_deadline] in *.
      f_equal. eapply NoDup_map_eq; eauto.
      now apply NoDup_app_remove_r in Hnd.
    + exfalso. assert (w_id w < next_id o)%nat; [|lia].
      apply Hlt. left. apply in_or_app. left. now apply in_map.
  - intros w Hw Hdl o'.
    assert (Eo' : o' = mk_outnet (tcp_free o) (tcp_busy o)
                         (unlink (fun w' => (w_id w' =? w_id w)%nat) (tcp_wait o))
                         (callbacks o ++ [(w_id w, w_cb w, Timeout)])
                         (next_id o) (clock o)).
    { subst o'. unfold outnet_tcptimer. rewrite (find_wait_id o w Hok Hw).
      apply Z.leb_le in Hdl. now rewrite Hdl. }
    pose proof Hok as (Hnd & Hlt & Hcb & _).
    assert (Hlive : In (w_id w) (wait_ids o)) by (now apply in_map).
    assert (Hgone : gone (w_id w) o').
    { rewrite Eo'. split; cbn [next_id].
      - apply Hlt. left. apply in_or_app. now left.
      - unfold live_ids, wait_ids, busy_ids. cbn [tcp_wait tcp_busy].
        destruct (find_unlink _ _ _ (find_wait_id o w Hok Hw)) as (Hperm & _).
        apply (Permutation_map w_id) in Hperm. cbn [map] in Hperm.
        unfold live_ids in Hnd. fold (busy_ids o).
        pose proof (Permutation_NoDup (Permutation_app_tail (busy_ids o) Hperm) Hnd)
          as Hnd'.
        cbn [app] in Hnd'. now inversion Hnd'. }
    assert (Hcbs : callbacks_of (w_id w) o' = [(w_id w, w_cb w, Timeout)]).
    { rewrite Eo'. unfold callbacks_of. cbn [callbacks].
      rewrite filter_app. cbn [filter fst]. rewrite Nat.eqb_refl.
      replace (filter _ (callbacks o)) with (@nil (nat * nat * status));
        [reflexivity|].
      symmetry. apply filter_none.
      intros c Hc. apply Nat.eqb_neq.
      intros E. apply (Hcb (w_id w)); [apply in_or_app; now left|].
      unfold callback_ids. rewrite <- E.
      now apply (in_map (fun c => fst (fst c))). }
    split; [now rewrite Eo'|]. split; [now rewrite Eo'|].
    split; [now rewrite Eo'|]. split.
    + intros evs1 evs2 E Hbusy.
      assert (Hok1 : pool_ok (run evs1 (outside_network_create num_tcp)))
        by (apply run_pool_ok, outside_network_create_ok).
      destruct Hok1 as (Hnd1 & Hlt1 & _).
      assert (Hleft : left_queue (w_id w) (run evs1 (outside_network_create num_tcp))).
      { split.
        - apply Hlt1. left. apply in_or_app. now right.
        - intros Hq. exact (NoDup_app_disjoint _ _ _ Hnd1 Hq Hbusy). }
      apply (run_left_queue _ evs2) in Hleft. rewrite <- run_app, <- E in Hleft.
      destruct Hleft as [_ Hnot]. now apply Hnot.
    + intros later o''. subst o''.
      destruct (run_gone (w_id w) later o' Hgone) as [[_ Hnot] Hc].
      repeat split.
      * intros H. apply Hnot. apply in_or_app. now right.
      * intros H. apply Hnot. apply in_or_app. now left.
      * now rewrite Hc.
Qed.

(** Scenario 4 of the specification: two slots, three requests, the third
    with a timeout of 1 s; the clock reaches 1 while the first two are still
    in their slots. *)
Definition scenario_4 : list event :=
  [Submit [1] 10 5 100%nat; Submit [2] 10 5 101%nat; Submit [3] 10 1 102%nat;
   Advance 1].

Example scenario_4_timeout :
  let o := run (scenario_4 ++ [Timer 2%nat]) (outside_network_create 2) in
  callbacks o = [(2%nat, 102%nat, Timeout)] /\ tcp_free o = [] /\
  busy_ids o = [0%nat; 1%nat] /\ tcp_wait o = [].
Proof. repeat split. Qed.

Lemma tcp_timer_runs_from_submission_witness :
  let o := run scenario_4 (outside_network_create 2) in
  let o' := outnet_tcptimer 2 o in
  callbacks o' = callbacks o ++ [(2%nat, 102%nat, Timeout)] /\
  tcp_free o' = tcp_free o /\ tcp_busy o' = tcp_busy o.
Proof.
  intros o o'.
  destruct (proj2 (proj2 (tcp_timer_runs_from_submission 2 scenario_4))
              (mk_waiting 2 10 (Some [3]) 1 102))
    as (H1 & H2 & H3 & _).
  - left. reflexivity.
  - cbn. lia.
  - auto.
Defined.

(** *** Serviced queries *)

(** [enum serviced_query_status] *)
Inductive serviced_query_status : Type :=
| serviced_initial
| serviced_query_UDP_EDNS
| serviced_query_UDP
| serviced_query_TCP_EDNS
| serviced_query_TCP.

(** [struct service_callback], the list being the Rocq list. *)
Record service_callback := mk_service_callback {
  cb : nat;
  cb_arg : nat
}.

(** [struct serviced_query]; [pending] is the handle of the outstanding UDP
    or TCP child, if any. *)
Record serviced_query := mk_serviced {
  qbuf : list Z;
  dnssec : bool;
  addr : Z;
  sq_status : serviced_query_status;
  to_be_deleted : bool;
  retry : Z;
  cblist : list service_callback;
  pending : option nat
}.

(** The key of the index: "sorted by qbuf, addr, dnssec". *)
Definition serviced_key : Type := list Z * Z * bool.

Definition key_of (sq : serviced_query) : serviced_key :=
  (qbuf sq, addr sq, dnssec sq).

Definition key_eqb (k1 k2 : serviced_key) : bool :=
  let '(q1, a1, d1) := k1 in
  let '(q2, a2, d2) := k2 in
  (if list_eq_dec Z.eq_dec q1 q2 then true else false) && (a1 =? a2) && eqb d1 d2.

(** A query put on the wire: the key it was built from and whether it
    carries EDNS. *)
Record wire_query := mk_wire_query {
  wq_key : serviced_key;
  wq_edns : bool
}.

(** The serviced part of [struct outside_network]: the entries of the
    [serviced] tree (lookup is by key; the order of the tree is not
    modelled) and the queries sent so far. *)
Record serviced_net := mk_serviced_net {
  serviced : list serviced_query;
  sent : list wire_query
}.

Definition lookup_serviced (o : serviced_net) (k : serviced_key)
    : option serviced_query :=
  find (fun sq => key_eqb (key_of sq) k) (serviced o).

Definition add_callback (sq : serviced_query) (c : service_callback)
    : serviced_query :=
  mk_serviced (qbuf sq) (dnssec sq) (addr sq) (sq_status sq) (to_be_deleted sq)
    (retry sq) (cblist sq ++ [c]) (pending sq).

Definition set_status (sq : serviced_query) (st : serviced_query_status)
    (child : option nat) : serviced_query :=
  mk_serviced (qbuf sq) (dnssec sq) (addr sq) st (to_be_deleted sq)
    (retry sq) (cblist sq) child.

(** Storing [sq'] in place of the entry with its key. *)
Definition store (sq' : serviced_query) (l : list serviced_query)
    : list serviced_query :=
  map (fun sq => if key_eqb (key_of sq) (key_of sq') then sq' else sq) l.

(** Modelled from the spec: what [outnet_serviced_query] of
    outside_network.c, which is not among the sources, does with a
    submission whose subscriber argument is already listed.  The
    specification allows two behaviours ("the new submission is rejected
    with Already-subscribed (or, equivalently, coalesced with no second
    callback)"), and the model takes the one in use as a parameter. *)
Inductive duplicate_policy : Type :=
| reject_duplicate
| coalesce_duplicate.

(** Modelled from the spec: the duplicate-subscriber test of
    outside_network.c ("the caller supplies an equality predicate over
    subscriber arguments; if a subscriber with an equal argument already
    exists"); outside_network.h gives the order of the arguments
    ("arg_compare ... is given the callback_arg and args that are
    listed"). *)
Definition duplicate_subscriber (sq : serviced_query) (callback_arg : nat)
    (arg_compare : nat -> nat -> bool) : bool :=
  existsb (fun c => arg_compare callback_arg (cb_arg c)) (cblist sq).

(** Modelled from the spec: the attach half of [outnet_serviced_query] of
    outside_network.c ("if an entry with the same key exists, append the
    new (callback, arg) to the subscriber list and return"), with the
    duplicate-subscriber rule in front of it.  The result is what
    outside_network.h declares, "0 on error, or pointer to serviced query":
    a rejected submission returns [None], a coalesced one the entry as it
    is. *)
Definition serviced_attach (dup : duplicate_policy) (o : serviced_net)
    (sq : serviced_query) (callback callback_arg : nat)
    (arg_compare : nat -> nat -> bool) : option serviced_query * serviced_net :=
  if duplicate_subscriber sq callback_arg arg_compare then
    (match dup with
     | reject_duplicate => None
     | coalesce_duplicate => Some sq
     end, o)
  else
    let sq' := add_callback sq (mk_service_callback callback callback_arg) in
    (Some sq', mk_serviced_net (store sq' (serviced o)) (sent o)).

(** Modelled from the spec: the create half of [outnet_serviced_query] of
    outside_network.c ("otherwise insert a new entry in state initial"). *)
Definition serviced_create (o : serviced_net) (k : serviced_key)
    (callback callback_arg : nat) : serviced_query * serviced_net :=
  let '(q, a, d) := k in
  let sq := mk_serviced q d a serviced_initial false 0
              [mk_service_callback callback callback_arg] None in
  (sq, mk_serviced_net (sq :: serviced o) (sent o)).

(** Modelled from the spec: the first transition of the transport state
    machine in outside_network.c ("initial --(dnssec? yes)--> UDP_EDNS",
    "initial --(dnssec? no)--> UDP_plain", "On each send the entry rebuilds
    its wire packet from (qbuf, dnssec)"): the entry with key [k], if in
    state initial, sends its first query; [child] is the handle of the
    pending request. *)
Definition serviced_udp_send (o : serviced_net) (k : serviced_key) (child : nat)
    : serviced_net :=
  match lookup_serviced o k with
  | Some sq =>
      match sq_status sq with
      | serviced_initial =>
          let st := if dnssec sq then serviced_query_UDP_EDNS
                    else serviced_query_UDP in
          mk_serviced_net (store (set_status sq st (Some child)) (serviced o))
            (sent o ++ [mk_wire_query k (dnssec sq)])
      | _ => o
      end
  | None => o
  end.

(** Modelled from the spec: [outnet_serviced_query] of outside_network.c
    ("The engine either attaches the caller to an existing entry or creates
    one, synthesizes a wire packet, and hands it to the port/ID pool").  The
    key [k] stands for the query bytes made of [flags], [qname], [qtype] and
    [qclass], with [addr] and [dnssec]; [child] is the handle of the request
    that the first send creates. *)
Definition outnet_serviced_query (dup : duplicate_policy) (o : serviced_net)
    (k : serviced_key) (callback callback_arg : nat)
    (arg_compare : nat -> nat -> bool) (child : nat)
    : option serviced_query * serviced_net :=
  match lookup_serviced o k with
  | Some sq => serviced_attach dup o sq callback callback_arg arg_compare
  | None =>
      let '(sq, o1) := serviced_create o k callback callback_arg in
      (Some sq, serviced_udp_send o1 k child)
  end.

(** A submission with its arguments. *)
Record request := mk_request {
  rq_key : serviced_key;
  rq_cb : nat;
  rq_arg : nat;
  rq_compare : nat -> nat -> bool;
  rq_child : nat
}.

Definition submit (dup : duplicate_policy) (o : serviced_net) (r : request)
    : serviced_net :=
  snd (outnet_serviced_query dup o (rq_key r) (rq_cb r) (rq_arg r)
         (rq_compare r) (rq_child r)).

Definition submit_all (dup : duplicate_policy) (rs : list request)
    (o : serviced_net) : serviced_net :=
  fold_left (submit dup) rs o.

Definition keys (o : serviced_net) : list serviced_key :=
  map key_of (serviced o).

(** The reading under which every submission for an existing key appends
    its subscriber. *)
Definition attach_appends (dup : duplicate_policy) (o : serviced_net)
    (r : request) : Prop :=
  forall sq, lookup_serviced o (rq_key r) = Some sq ->
    exists sq', lookup_serviced (submit dup o r) (rq_key r) = Some sq' /\
                cblist sq' = cblist sq ++ [mk_service_callback (rq_cb r) (rq_arg r)].

Lemma key_eqb_eq k1 k2 : key_eqb k1 k2 = true <-> k1 = k2.
Proof.
  destruct k1 as [[q1 a1] d1], k2 as [[q2 a2] d2]. unfold key_eqb.
  destruct (list_eq_dec Z.eq_dec q1 q2) as [-> | Hq]; cbn [andb].
  - rewrite andb_true_iff, Z.eqb_eq, eqb_true_iff.
    split; [intros [-> ->]; reflexivity | intros [= -> ->]; auto].
  - split; [discriminate | intros [= -> _ _]; contradiction].
Qed.

Lemma key_eqb_refl k : key_eqb k k = true.
Proof. now apply key_eqb_eq. Qed.

Lemma key_eqb_neq k1 k2 : k1 <> k2 -> key_eqb k1 k2 = false.
Proof.
  intros H. destruct (key_eqb k1 k2) eqn:E; [|reflexivity].
  apply key_eqb_eq in E. contradiction.
Qed.

Lemma lookup_serviced_key o k sq :
  lookup_serviced o k = Some sq -> key_of sq = k /\ In sq (serviced o).
Proof.
  unfold lookup_serviced. intros H. apply find_some in H as [Hin E].
  apply key_eqb_eq in E. now split.
Qed.

Lemma lookup_serviced_none o k :
  lookup_serviced o k = None -> ~ In k (keys o).
Proof.
  unfold lookup_serviced, keys. intros H Hin.
  apply in_map_iff in Hin as (sq & <- & Hsq).
  apply (find_none _ _ H) in Hsq. now rewrite key_eqb_refl in Hsq.
Qed.

Lemma store_keys sq' l : map key_of (store sq' l) = map key_of l.
Proof.
  unfold store. rewrite map_map. apply map_ext. intros sq.
  destruct (key_eqb (key_of sq) (key_of sq')) eqn:E; [|reflexivity].
  apply key_eqb_eq in E. now rewrite E.
Qed.

Lemma store_find sq' l k :
  find (fun sq => key_eqb (key_of sq) k) (store sq' l) =
  if key_eqb (key_of sq') k
  then match find (fun sq => key_eqb (key_of sq) k) l with
       | Some _ => Some sq'
       | None => None
       end
  else find (fun sq => key_eqb (key_of sq) k) l.
Proof.
  induction l as [|sq l IH]; cbn [store map find].
  - now destruct (key_eqb (key_of sq') k).
  - fold (store sq' l). destruct (key_eqb (key_of sq) (key_of sq')) eqn:E.
    + apply key_eqb_eq in E. rewrite E.
      destruct (key_eqb (key_of sq') k) eqn:Ek; [reflexivity|].
      rewrite IH. reflexivity.
    + destruct (key_eqb (key_of sq) k) eqn:Ek.
      * destruct (key_eqb (key_of sq') k) eqn:Ek'; [|reflexivity].
        apply key_eqb_eq in Ek, Ek'. rewrite <- Ek' in Ek.
        apply key_eqb_eq in Ek. congruence.
      * rewrite IH. reflexivity.
Qed.

Lemma serviced_udp_send_keys o k child :
  keys (serviced_udp_send o k child) = keys o.
Proof.
  unfold serviced_udp_send. destruct (lookup_serviced o k) as [sq|]; [|reflexivity].
  destruct (sq_status sq); try reflexivity.
  unfold keys. cbn [serviced]. apply store_keys.
Qed.

Lemma serviced_udp_send_other o k child k' :
  k' <> k ->
  lookup_serviced (serviced_udp_send o k child) k' = lookup_serviced o k'.
Proof.
  intros Hne. unfold serviced_udp_send.
  destruct (lookup_serviced o k) as [sq|] eqn:El; [|reflexivity].
  destruct (sq_status sq); try reflexivity.
  unfold lookup_serviced at 1. cbn [serviced]. rewrite store_find.
  apply lookup_serviced_key in El as [Ek _].
  change (key_of (set_status sq _ (Some child))) with (key_of sq).
  rewrite Ek, key_eqb_neq by congruence. reflexivity.
Qed.

Lemma serviced_udp_send_created sq l snt k child :
  key_of sq = k -> sq_status sq = serviced_initial ->
  serviced_udp_send (mk_serviced_net (sq :: l) snt) k child =
  mk_serviced_net
    (store (set_status sq (if dnssec sq then serviced_query_UDP_EDNS
                           else serviced_query_UDP) (Some child)) (sq :: l))
    (snt ++ [mk_wire_query k (dnssec sq)]).
Proof.
  intros Hk Hs. unfold serviced_udp_send, lookup_serviced.
  cbn [serviced find]. now rewrite Hk, key_eqb_refl, Hs.
Qed.

Lemma submit_keys_NoDup dup o r :
  NoDup (keys o) -> NoDup (keys (submit dup o r)).
Proof.
  intros Hnd. unfold submit, outnet_serviced_query.
  destruct (lookup_serviced o (rq_key r)) as [sq|] eqn:El.
  - unfold serviced_attach.
    destruct (duplicate_subscriber sq _ _); cbn [snd]; [exact Hnd|].
    unfold keys. cbn [serviced]. now rewrite store_keys.
  - unfold serviced_create.
    destruct (rq_key r) as [[q a] d] eqn:Ek. cbn [snd].
    rewrite serviced_udp_send_keys. unfold keys. cbn [serviced map].
    constructor; [|exact Hnd].
    change (key_of _) with (q, a, d). now apply lookup_serviced_none.
Qed.

Lemma submit_all_keys_NoDup dup rs :
  forall o, NoDup (keys o) -> NoDup (keys (submit_all dup rs o)).
Proof.
  induction rs as [|r rs IH]; intros o Ho; [exact Ho|].
  apply IH. now apply submit_keys_NoDup.
Qed.

(** C7, as amended. A submission whose key is in the index creates no
    second entry and sends no second wire query; it appends the (callback,
    arg) pair to the entry's subscriber list and returns the entry, unless a
    subscriber with an equal argument is already listed, in which case
    nothing is appended: the index is left as it is, and the submission is
    rejected or returns the entry, whichever of the two the engine does.  A
    submission whose key is not in the index inserts a new entry in state
    initial with this one subscriber, and the entry then sends its first
    query.  Entries of other keys are not touched, and at most one entry per
    key exists at any time. *)
Theorem outnet_serviced_query_attach_or_create
    (dup : duplicate_policy) (o : serviced_net) (k : serviced_key)
    (callback callback_arg : nat) (arg_compare : nat -> nat -> bool)
    (child : nat) :
  NoDup (keys o) ->
  let c := mk_service_callback callback callback_arg in
  let res :=
    outnet_serviced_query dup o k callback callback_arg arg_compare child in
  let o' := snd res in
  NoDup (keys o') /\
  (forall k', k' <> k -> lookup_serviced o' k' = lookup_serviced o k') /\
  (forall sq, lookup_serviced o k = Some sq ->
     keys o' = keys o /\ sent o' = sent o /\
     (duplicate_subscriber sq callback_arg arg_compare = false ->
        fst res = Some (add_callback sq c) /\
        lookup_serviced o' k = Some (add_callback sq c)) /\
     (duplicate_subscriber sq callback_arg arg_compare = true ->
        o' = o /\ (fst res = None \/ fst res = Some sq))) /\
  (lookup_serviced o k = None ->
     exists sq0,
       serviced_create o k callback callback_arg =
         (sq0, mk_serviced_net (sq0 :: serviced o) (sent o)) /\
       key_of sq0 = k /\ sq_status sq0 = serviced_initial /\
       cblist sq0 = [c] /\ pending sq0 = None /\
       fst res = Some sq0 /\
       keys o' = k :: keys o /\
       sent o' = sent o ++ [mk_wire_query k (dnssec sq0)]) /\
  (forall dup' rs, NoDup (keys (submit_all dup' rs (mk_serviced_net [] [])))).
Proof.
  intros Hnd c res o'.
  split; [apply (submit_keys_NoDup dup o
                   (mk_request k callback callback_arg arg_compare child) Hnd)|].
  split; [|split; [|split]].
  - intros k' Hne. subst o' res. unfold outnet_serviced_query.
    destruct (lookup_serviced o k) as [sq|] eqn:El.
    + unfold serviced_attach.
      destruct (duplicate_subscriber sq _ _); cbn [snd]; [reflexivity|].
      unfold lookup_serviced at 1. cbn [serviced]. rewrite store_find.
      apply lookup_serviced_key in El as [Ek _].
      change (key_of (add_callback sq _)) with (key_of sq).
      rewrite Ek, key_eqb_neq by congruence. reflexivity.
    + unfold serviced_create. destruct k as [[q a] d]. cbn [snd].
      rewrite serviced_udp_send_other by assumption.
      unfold lookup_serviced. cbn [serviced find].
      change (key_of _) with (q, a, d) at 1. now rewrite key_eqb_neq by congruence.
  - intros sq El. subst o' res.
    unfold outnet_serviced_query, serviced_attach. rewrite El.
    destruct (duplicate_subscriber sq _ _) eqn:Ex; cbn [fst snd].
    + repeat split; try discriminate. destruct dup; auto.
    + repeat split; try discriminate.
      * unfold keys. cbn [serviced]. apply store_keys.
      * unfold lookup_serviced. cbn [serviced]. rewrite store_find.
        pose proof (lookup_serviced_key _ _ _ El) as [Ek _].
        unfold lookup_serviced in El. rewrite El.
        change (key_of (add_callback sq _)) with (key_of sq).
        now rewrite Ek, key_eqb_refl.
  - intros El. subst o' res.
    unfold outnet_serviced_query, serviced_create. rewrite El.
    destruct k as [[q a] d]. eexists. cbn [fst snd].
    rewrite serviced_udp_send_created by reflexivity.
    unfold keys. cbn [serviced sent]. rewrite store_keys.
    repeat split.
  - intros dup' rs. apply submit_all_keys_NoDup. constructor.
Qed.

(** The question "example. A" for one server, asked with DNSSEC. *)
Definition example_key : serviced_key := ([7; 101; 120; 97; 109; 112; 108; 101; 0; 0; 1; 0; 1], 53, true).

(** The index after a first submission with subscriber argument 7; it is
    the same under both duplicate policies. *)
Definition one_subscriber : serviced_net :=
  submit coalesce_duplicate (mk_serviced_net [] [])
    (mk_request example_key 1 7 Nat.eqb 0).

Example one_subscriber_sent :
  sent one_subscriber = [mk_wire_query example_key true] /\
  map sq_status (serviced one_subscriber) = [serviced_query_UDP_EDNS] /\
  submit reject_duplicate (mk_serviced_net [] [])
    (mk_request example_key 1 7 Nat.eqb 0) = one_subscriber.
Proof. vm_compute. repeat split. Qed.

(** Scenario 2 of the specification: a second submission with another
    argument leaves one entry and one query on the wire, with two
    subscribers. *)
Example scenario_2 :
  forall dup,
  let o := submit dup one_subscriber (mk_request example_key 2 8 Nat.eqb 1) in
  length (serviced o) = 1%nat /\ sent o = sent one_subscriber /\
  map cblist (serviced o) =
    [[mk_service_callback 1 7; mk_service_callback 2 8]].
Proof. intros []; vm_compute; repeat split. Qed.

(** A second submission with the same argument 7 finds the entry and does
    not append, whether it is rejected or coalesced. *)
Lemma duplicate_subscriber_not_appended :
  ~ exists dup,
      attach_appends dup one_subscriber (mk_request example_key 2 7 Nat.eqb 1).
Proof.
  intros [dup H]. unfold attach_appends in H.
  edestruct H as (sq' & Hl & Hc); [vm_compute; reflexivity|].
  destruct dup; vm_compute in Hl; injection Hl as <-; vm_compute in Hc;
    discriminate Hc.
Qed.

Lemma one_subscriber_keys : NoDup (keys one_subscriber).
Proof. vm_compute. repeat constructor. intros []. Qed.

Lemma outnet_serviced_query_attach_or_create_witness :
  let res :=
    outnet_serviced_query reject_duplicate one_subscriber example_key 2 8
      Nat.eqb 1 in
  keys (snd res) = keys one_subscriber /\
  sent (snd res) = sent one_subscriber /\
  exists sq, fst res = Some sq /\
             cblist sq = [mk_service_callback 1 7; mk_service_callback 2 8].
Proof.
  intros res.
  destruct (outnet_serviced_query_attach_or_create reject_duplicate
              one_subscriber example_key 2 8 Nat.eqb 1 one_subscriber_keys)
    as (_ & _ & Hattach & _).
  edestruct Hattach as (Hk & Hs & Hnew & _); [vm_compute; reflexivity|].
  destruct Hnew as [Hr _]; [reflexivity|].
  split; [exact Hk|]. split; [exact Hs|].
  eexists. split; [exact Hr | reflexivity].
Defined.

End Outnet.

(** ** util/data/dname.c: the other functions *)

Module DnameMore.
Import Dname.

(** *** Length bytes *)

(** A property checked on each of the 256 values of a [uint8_t]. *)
Lemma u8_cases (P : Z -> bool) :
  forallb P (map Z.of_nat (seq 0 256)) = true ->
  forall b, 0 <= b < 256 -> P b = true.
Proof.
  intros H b Hb. rewrite forallb_forall in H. apply H.
  apply in_map_iff. exists (Z.to_nat b). split; [lia | apply in_seq; lia].
Qed.

(** [labellen & 0xc0] is zero exactly on the lengths up to 63. *)
Lemma land_192_zero b : 0 <= b < 256 -> (Z.land b 192 =? 0) = (b <=? 63).
Proof.
  intros Hb. apply eqb_prop.
  apply (u8_cases (fun b => eqb (Z.land b 192 =? 0) (b <=? 63)));
    [vm_compute; reflexivity | exact Hb].
Qed.

Lemma LABEL_IS_PTR_ge b : 0 <= b < 256 -> LABEL_IS_PTR b = (192 <=? b).
Proof.
  intros Hb. apply eqb_prop.
  apply (u8_cases (fun b => eqb (LABEL_IS_PTR b) (192 <=? b)));
    [vm_compute; reflexivity | exact Hb].
Qed.

Lemma octet_bound d pos : 0 <= octet d pos < 256.
Proof. apply u8_bound. Qed.

(** *** query_dname_len *)

(** The [while(1)] loop of [query_dname_len]; [None] when [fuel] iterations
    did not reach a [return]. *)
Fixpoint query_dname_len_loop (fuel : nat) (query : ldns_buffer) (len : Z)
    : option (Z * ldns_buffer) :=
  match fuel with
  | O => None
  | S fuel' =>
      if ldns_buffer_remaining query <? 1 then Some (0, query)
      else
        let '(labellen, q1) := ldns_buffer_read_u8 query in
        if negb (Z.land labellen 192 =? 0) then Some (0, q1)
        else
          let len' := len + (labellen + 1) in
          if LDNS_MAX_DOMAINLEN <? len' then Some (0, q1)
          else if labellen =? 0 then Some (len', q1)
          else if ldns_buffer_remaining q1 <? labellen then Some (0, q1)
          else query_dname_len_loop fuel' (ldns_buffer_skip q1 labellen) len'
  end.

(** determine length of a dname in buffer, no compression pointers allowed.
    Every iteration adds at least one octet to [len], so
    [LDNS_MAX_DOMAINLEN + 1] iterations reach a [return]. *)
Definition query_dname_len (query : ldns_buffer) : option (Z * ldns_buffer) :=
  query_dname_len_loop (Z.to_nat (LDNS_MAX_DOMAINLEN + 1)) query 0.

(** The name at [pos] is complete, has no compression pointer and takes [n]
    octets. *)
Inductive query_name (d : list Byte.byte) (lim : Z) : Z -> Z -> Prop :=
| qname_end pos :
    wire_item_at d lim pos = End_of_name -> query_name d lim pos 1
| qname_label pos b n :
    wire_item_at d lim pos = Label b ->
    query_name d lim (pos + 1 + b) n -> query_name d lim pos (1 + b + n).

(** Where reading the name at [pos] leaves the stream: behind the root
    label, or behind the first compression pointer. *)
Inductive wire_stop (d : list Byte.byte) (lim : Z) : Z -> Z -> Prop :=
| stop_end pos :
    wire_item_at d lim pos = End_of_name -> wire_stop d lim pos (pos + 1)
| stop_label pos b e :
    wire_item_at d lim pos = Label b ->
    wire_stop d lim (pos + 1 + b) e -> wire_stop d lim pos e
| stop_pointer pos t :
    wire_item_at d lim pos = Pointer t -> wire_stop d lim pos (pos + 2).

Lemma query_name_wire_name d lim pos n :
  query_name d lim pos n -> wire_name d lim pos n.
Proof.
  induction 1 as [pos H | pos b n H _ IH];
    [now apply name_end | now apply name_label].
Qed.

Lemma query_name_unique d lim pos n m :
  query_name d lim pos n -> query_name d lim pos m -> n = m.
Proof.
  intros Hn Hm. apply query_name_wire_name in Hn, Hm.
  exact (wire_name_unique _ _ _ _ Hn _ Hm).
Qed.

Lemma query_name_stop d lim pos n :
  query_name d lim pos n -> wire_stop d lim pos (pos + n).
Proof.
  induction 1 as [pos H | pos b n H _ IH]; [now apply stop_end|].
  apply stop_label with b; [exact H|].
  now replace (pos + (1 + b + n)) with (pos + 1 + b + n) by lia.
Qed.

Lemma wire_stop_unique d lim pos e :
  wire_stop d lim pos e -> forall e', wire_stop d lim pos e' -> e = e'.
Proof.
  induction 1 as [pos H | pos b e H _ IH | pos t H]; intros e' He';
    inversion He'; subst; try congruence.
  assert (b0 = b) by congruence. subst. now apply IH.
Qed.

Lemma wire_stop_bound d lim pos e :
  wire_stop d lim pos e -> 0 <= pos -> pos < e <= lim.
Proof.
  induction 1 as [pos H | pos b e H _ IH | pos t H]; intros Hp.
  - apply wire_item_at_end in H. lia.
  - apply wire_item_at_label in H as (H1 & _ & -> & _ & H5 & H6).
    pose proof (octet_bound d pos). lia.
  - apply wire_item_at_pointer in H. lia.
Qed.

(** What stands at [pos], by the tests the two loops make. *)
Lemma wire_item_at_tests d lim pos :
  wire_item_at d lim pos =
    if lim <=? pos then Malformed
    else if LABEL_IS_PTR (octet d pos) then
      if lim <=? pos + 1 then Malformed
      else if lim <=? PTR_OFFSET (octet d pos) (octet d (pos + 1))
           then Malformed
           else Pointer (PTR_OFFSET (octet d pos) (octet d (pos + 1)))
    else if 63 <? octet d pos then Malformed
    else if octet d pos =? 0 then End_of_name
    else if lim <? pos + 1 + octet d pos then Malformed
    else Label (octet d pos).
Proof. reflexivity. Qed.

Lemma query_dname_len_loop_spec fuel :
  forall query len,
    0 <= len <= LDNS_MAX_DOMAINLEN ->
    LDNS_MAX_DOMAINLEN + 1 - len <= Z.of_nat fuel ->
    exists n q',
      query_dname_len_loop fuel query len = Some (n, q') /\
      data q' = data query /\ limit q' = limit query /\
      ((exists m, query_name (data query) (limit query) (position query) m /\
                  n = len + m /\ n <= LDNS_MAX_DOMAINLEN /\
                  position q' = position query + m)
       \/
       (n = 0 /\
        forall m, query_name (data query) (limit query) (position query) m ->
                  LDNS_MAX_DOMAINLEN < len + m)).
Proof.
  induction fuel as [|fuel IH]; intros query len Hlen Hfuel.
  { exfalso. unfold LDNS_MAX_DOMAINLEN in *. lia. }
  cbn [query_dname_len_loop]. unfold LDNS_MAX_DOMAINLEN in *.
  unfold ldns_buffer_remaining, ldns_buffer_read_u8, ldns_buffer_skip,
    ldns_buffer_set_position, ldns_buffer_at.
  cbn [data position limit].
  fold (octet (data query) (position query)).
  set (pos := position query). set (lim := limit query). set (d := data query).
  pose proof (wire_item_at_tests d lim pos) as Hitem.
  pose proof (octet_bound d pos) as Hb.
  set (b := octet d pos) in *.
  destruct (lim - pos <? 1) eqn:E1.
  { apply Z.ltb_lt in E1.
    replace (lim <=? pos) with true in Hitem by (symmetry; apply Z.leb_le; lia).
    exists 0, query. repeat split. right. split; [reflexivity|].
    intros m Hm. inversion Hm; congruence. }
  apply Z.ltb_ge in E1.
  replace (lim <=? pos) with false in Hitem by (symmetry; apply Z.leb_gt; lia).
  rewrite land_192_zero by exact Hb.
  rewrite LABEL_IS_PTR_ge in Hitem by exact Hb.
  destruct (b <=? 63) eqn:E2; cbn [negb].
  2:{ apply Z.leb_gt in E2.
      eexists 0, _. repeat split. right. split; [reflexivity|].
      intros m Hm. exfalso.
      destruct (192 <=? b).
      - destruct (lim <=? pos + 1); [inversion Hm; congruence|].
        destruct (lim <=? _); inversion Hm; congruence.
      - replace (63 <? b) with true in Hitem by (symmetry; apply Z.ltb_lt; lia).
        inversion Hm; congruence. }
  apply Z.leb_le in E2.
  replace (192 <=? b) with false in Hitem by (symmetry; apply Z.leb_gt; lia).
  replace (63 <? b) with false in Hitem by (symmetry; apply Z.ltb_ge; lia).
  destruct (255 <? len + (b + 1)) eqn:E3.
  { apply Z.ltb_lt in E3.
    eexists 0, _. repeat split. right. split; [reflexivity|].
    intros m Hm. destruct (b =? 0) eqn:E0.
    - apply Z.eqb_eq in E0. inversion Hm; subst; [lia | congruence].
    - destruct (lim <? pos + 1 + b); [inversion Hm; congruence|].
      inversion Hm as [? H | ? b' n H Hn]; subst; [congruence|].
      assert (b' = b) by congruence. subst b'.
      apply query_name_wire_name, wire_name_pos in Hn. lia. }
  apply Z.ltb_ge in E3.
  destruct (b =? 0) eqn:E0.
  { apply Z.eqb_eq in E0.
    eexists _, _. split; [reflexivity|]. cbn [data limit position].
    repeat split. left. exists 1. repeat split; [now apply qname_end | lia | lia]. }
  apply Z.eqb_neq in E0.
  destruct (lim - (pos + 1) <? b) eqn:E4.
  { apply Z.ltb_lt in E4.
    replace (lim <? pos + 1 + b) with true in Hitem
      by (symmetry; apply Z.ltb_lt; lia).
    eexists 0, _. repeat split. right. split; [reflexivity|].
    intros m Hm. inversion Hm; congruence. }
  apply Z.ltb_ge in E4.
  replace (lim <? pos + 1 + b) with false in Hitem
    by (symmetry; apply Z.ltb_ge; lia).
  destruct (IH {| data := d; position := pos + 1 + b; limit := lim |}
              (len + (b + 1))) as (n & q' & Hr & Hd & Hl & Hcase); [lia | lia |].
  cbn [data position limit] in *.
  exists n, q'. repeat split; try assumption.
  destruct Hcase as [(m & Hm & -> & Hmax & Hpos) | (-> & Hnone)].
  - left. exists (1 + b + m). repeat split; [| lia | lia | lia].
    now apply qname_label.
  - right. split; [reflexivity|]. intros m Hm.
    inversion Hm as [? H | ? b' k H Hk]; subst; [congruence|].
    assert (b' = b) by congruence. subst b'.
    specialize (Hnone _ Hk). lia.
Qed.

Lemma query_dname_len_spec query :
  let d := data query in
  let lim := limit query in
  let pos := position query in
  exists n q',
    query_dname_len query = Some (n, q') /\
    data q' = d /\ limit q' = lim /\
    (n <> 0 ->
     query_name d lim pos n /\ n <= LDNS_MAX_DOMAINLEN /\
     position q' = pos + n) /\
    (forall m, query_name d lim pos m -> m <= LDNS_MAX_DOMAINLEN -> n = m).
Proof.
  intros d lim pos. unfold query_dname_len.
  destruct (query_dname_len_loop_spec (Z.to_nat (LDNS_MAX_DOMAINLEN + 1)) query 0)
    as (n & q' & Hr & Hd & Hl & Hcase);
    [unfold LDNS_MAX_DOMAINLEN; lia | unfold LDNS_MAX_DOMAINLEN; lia |].
  exists n, q'. fold d lim pos in Hcase.
  split; [exact Hr|]. split; [exact Hd|]. split; [exact Hl|]. split.
  - intros Hn. destruct Hcase as [(m & Hm & E & Hmax & Hp) | (E & _)];
      [|contradiction].
    cbn in E. subst m. auto.
  - intros m Hm Hmax.
    destruct Hcase as [(k & Hk & E & _) | (_ & Hnone)].
    + cbn in E. subst k. exact (query_name_unique _ _ _ _ _ Hk Hm).
    + specialize (Hnone _ Hm). lia.
Qed.

(** X1. [query_dname_len] returns on every buffer.  A non-zero result is the
    length of a complete name without compression pointers that starts at
    the buffer's position, it is at most [LDNS_MAX_DOMAINLEN], and the
    position has moved behind the name; every such name is measured, so the
    result is 0 exactly when there is none. *)
Theorem query_dname_len_measures query :
  let d := data query in
  let lim := limit query in
  let pos := position query in
  exists n q',
    query_dname_len query = Some (n, q') /\
    data q' = d /\ limit q' = lim /\
    (n <> 0 ->
     query_name d lim pos n /\ n <= LDNS_MAX_DOMAINLEN /\
     position q' = pos + n) /\
    (forall m, query_name d lim pos m -> m <= LDNS_MAX_DOMAINLEN -> n = m).
Proof. exact (query_dname_len_spec query). Qed.

(** *** Where pkt_dname_len leaves the buffer *)

Lemma pkt_dname_len_loop_stop fuel :
  forall pkt len loop endpos n pkt',
    0 <= position pkt -> 0 <= endpos ->
    pkt_dname_len_loop fuel pkt len loop endpos = Some (n, pkt') ->
    n <> 0 ->
    data pkt' = data pkt /\ limit pkt' = limit pkt /\
    if endpos =? 0
    then wire_stop (data pkt) (limit pkt) (position pkt) (position pkt')
    else position pkt' = endpos.
Proof.
  induction fuel as [|fuel IH]; intros pkt len loop endpos n pkt' Hp0 He0 Hr Hn;
    [discriminate|].
  cbn [pkt_dname_len_loop] in Hr.
  unfold ldns_buffer_remaining, ldns_buffer_read_u8, ldns_buffer_limit,
    ldns_buffer_position, ldns_buffer_skip, ldns_buffer_set_position,
    ldns_buffer_at in Hr.
  cbn [data position limit] in Hr.
  fold (octet (data pkt) (position pkt)) in Hr.
  fold (octet (data pkt) (position pkt + 1)) in Hr.
  set (pos := position pkt) in *. set (lim := limit pkt) in *.
  set (d := data pkt) in *.
  pose proof (wire_item_at_tests d lim pos) as Hitem.
  destruct (lim - pos <? 1) eqn:E1; [injection Hr as <- _; contradiction|].
  apply Z.ltb_ge in E1.
  replace (lim <=? pos) with false in Hitem by (symmetry; apply Z.leb_gt; lia).
  destruct (LABEL_IS_PTR (octet d pos)).
  - destruct (lim - (pos + 1) <? 1) eqn:E2; [injection Hr as <- _; contradiction|].
    apply Z.ltb_ge in E2.
    replace (lim <=? pos + 1) with false in Hitem
      by (symmetry; apply Z.leb_gt; lia).
    pose proof (PTR_OFFSET_range (octet d pos) (octet d (pos + 1))
                  (octet_bound _ _)) as Hptr.
    set (ptr := PTR_OFFSET (octet d pos) (octet d (pos + 1))) in *.
    destruct (loopcheck loop ptr) as [sn loop'].
    destruct (negb (sn =? 0)); [injection Hr as <- _; contradiction|].
    destruct (lim <=? ptr) eqn:E3; [injection Hr as <- _; contradiction|].
    destruct (endpos =? 0) eqn:Ee.
    + apply IH in Hr; [| cbn [position]; lia | lia | assumption].
      cbn [data position limit] in Hr.
      replace (pos + 1 + 1 =? 0) with false in Hr
        by (symmetry; apply Z.eqb_neq; lia).
      destruct Hr as (Hd & Hl & Hpos). repeat split; try assumption.
      rewrite Hpos. replace (pos + 1 + 1) with (pos + 2) by lia.
      now apply stop_pointer with ptr.
    + apply IH in Hr; [| cbn [position]; lia | lia | assumption].
      cbn [data position limit] in Hr. now rewrite Ee in Hr.
  - set (b := octet d pos) in *.
    destruct (63 <? b); [injection Hr as <- _; contradiction|].
    destruct (LDNS_MAX_DOMAINLEN <? len + (1 + b)) eqn:E4;
      [injection Hr as <- _; contradiction|].
    pose proof (octet_bound d pos) as Hb. fold b in Hb.
    destruct (b =? 0) eqn:E5.
    + assert (Ep : pkt' = if negb (endpos =? 0)
                          then {| data := d; position := endpos; limit := lim |}
                          else {| data := d; position := pos + 1; limit := lim |})
        by congruence.
      destruct (endpos =? 0); cbn [negb] in Ep; subst pkt';
        cbn [data position limit]; repeat split.
      now apply stop_end.
    + apply Z.eqb_neq in E5.
      destruct (lim - (pos + 1) <? b) eqn:E6; [injection Hr as <- _; contradiction|].
      apply Z.ltb_ge in E6.
      replace (lim <? pos + 1 + b) with false in Hitem
        by (symmetry; apply Z.ltb_ge; lia).
      apply IH in Hr; [| cbn [position]; lia | lia | assumption].
      cbn [data position limit] in Hr.
      destruct Hr as (Hd & Hl & Hpos). repeat split; try assumption.
      destruct (endpos =? 0); [|exact Hpos].
      now apply stop_label with b.
Qed.

Lemma pkt_dname_len_stop pkt n pkt' :
  buffer_ok pkt ->
  pkt_dname_len pkt = Some (n, pkt') -> n <> 0 ->
  data pkt' = data pkt /\ limit pkt' = limit pkt /\
  wire_stop (data pkt) (limit pkt) (position pkt) (position pkt') /\
  position pkt < position pkt' <= limit pkt /\
  buffer_ok pkt'.
Proof.
  intros [Hpos Hlim] Hr Hn. rewrite pkt_dname_len_unfold in Hr.
  pose proof (pkt_dname_len_loop_stop _ _ _ _ _ _ _
                (proj1 Hpos) (Z.le_refl 0) Hr Hn) as (Hd & Hl & Hs).
  cbn [Z.eqb] in Hs.
  pose proof (wire_stop_bound _ _ _ _ Hs (proj1 Hpos)) as Hb.
  unfold buffer_ok. rewrite Hl, Hd.
  repeat split; try assumption; lia.
Qed.

(** X2. After [pkt_dname_len] has returned a non-zero length, the buffer has
    the same octets and limit, and its position stands where the name ends
    in the stream: behind the root label when no compression pointer was
    met, and behind the first compression pointer otherwise, whatever was
    read at the pointer's target.  The position has moved forward and lies
    within the limit. *)
Theorem pkt_dname_len_position pkt n pkt' :
  buffer_ok pkt ->
  pkt_dname_len pkt = Some (n, pkt') -> n <> 0 ->
  data pkt' = data pkt /\ limit pkt' = limit pkt /\
  wire_stop (data pkt) (limit pkt) (position pkt) (position pkt') /\
  position pkt < position pkt' <= limit pkt /\
  buffer_ok pkt'.
Proof. exact (pkt_dname_len_stop pkt n pkt'). Qed.

Lemma message_buffer_ok octets pos :
  0 <= pos <= Z.of_nat (length octets) -> buffer_ok (message octets pos).
Proof.
  intros H. unfold buffer_ok, message. cbn [data position limit].
  rewrite length_map. lia.
Qed.

Lemma pkt_dname_len_position_witness :
  wire_stop (map byte_of_Z [1; 97; 0; 1; 98; 192; 0]) 7 3 7.
Proof.
  destruct (pkt_dname_len (message [1; 97; 0; 1; 98; 192; 0] 3))
    as [[n pkt']|] eqn:Hr; [|vm_compute in Hr; discriminate].
  assert (Hn : n <> 0) by (vm_compute in Hr; injection Hr as <- _; discriminate).
  pose proof (pkt_dname_len_position _ n pkt'
                (message_buffer_ok [1; 97; 0; 1; 98; 192; 0] 3 ltac:(cbn; lia))
                Hr Hn) as (_ & _ & Hs & _).
  assert (Ep : position pkt' = 7) by (vm_compute in Hr; now injection Hr as _ <-).
  rewrite Ep in Hs. exact Hs.
Defined.

(** X3. [pkt_dname_len] accepts exactly the complete names of at most
    [LDNS_MAX_DOMAINLEN] octets: for each of them it returns its
    uncompressed length, however many compression pointers lead through the
    message, and it returns 0 for everything else. *)
Theorem pkt_dname_len_accepts_complete_names pkt :
  exists n pkt',
    pkt_dname_len pkt = Some (n, pkt') /\
    (n <> 0 <->
     exists m, wire_name (data pkt) (limit pkt) (position pkt) m /\
               m <= LDNS_MAX_DOMAINLEN) /\
    (forall m, wire_name (data pkt) (limit pkt) (position pkt) m ->
               m <= LDNS_MAX_DOMAINLEN -> n = m).
Proof.
  destruct (pkt_dname_len_terminates pkt) as ([n pkt'] & Hr).
  exists n, pkt'. split; [exact Hr|].
  assert (Hall : forall m, wire_name (data pkt) (limit pkt) (position pkt) m ->
                           m <= LDNS_MAX_DOMAINLEN -> n = m).
  { intros m Hm Hmax.
    destruct (pkt_dname_len_complete pkt m Hm Hmax) as (pkt'' & Hr').
    congruence. }
  split; [split|exact Hall].
  - intros Hn. exists n. now apply (pkt_dname_len_sound pkt n pkt').
  - intros (m & Hm & Hmax). rewrite (Hall m Hm Hmax).
    pose proof (wire_name_pos _ _ _ _ Hm). lia.
Qed.

(** X4. On a name that [query_dname_len] accepts, [pkt_dname_len] returns
    the same length and leaves the buffer at the same position. *)
Theorem query_dname_len_agrees_with_pkt_dname_len query n q' :
  buffer_ok query ->
  query_dname_len query = Some (n, q') -> n <> 0 ->
  pkt_dname_len query = Some (n, q').
Proof.
  intros Hok Hq Hn.
  destruct (query_dname_len_spec query) as (n0 & q0 & Hr & Hd & Hl & Hsome & _).
  rewrite Hq in Hr. injection Hr as <- <-.
  destruct (Hsome Hn) as (Hname & Hmax & Hpos).
  destruct (pkt_dname_len_complete query n (query_name_wire_name _ _ _ _ Hname) Hmax)
    as (pkt' & Hr).
  rewrite Hr. f_equal. f_equal.
  destruct (pkt_dname_len_stop query n pkt' Hok Hr Hn) as (Hd' & Hl' & Hs & _).
  pose proof (wire_stop_unique _ _ _ _ Hs _ (query_name_stop _ _ _ _ Hname)) as E.
  destruct pkt' as [d1 p1 l1], q' as [d2 p2 l2]. cbn [data position limit] in *.
  congruence.
Qed.

Lemma query_dname_len_agrees_with_pkt_dname_len_witness :
  exists q', pkt_dname_len (message [1; 97; 1; 98; 0; 7] 0) = Some (5, q') /\
             position q' = 5.
Proof.
  destruct (query_dname_len (message [1; 97; 1; 98; 0; 7] 0))
    as [[n q']|] eqn:Hq; [|vm_compute in Hq; discriminate].
  assert (En : n = 5) by (vm_compute in Hq; now injection Hq as <- _).
  assert (Ep : position q' = 5) by (vm_compute in Hq; now injection Hq as _ <-).
  exists q'. split; [|exact Ep]. subst n.
  apply query_dname_len_agrees_with_pkt_dname_len;
    [apply message_buffer_ok; cbn; lia | exact Hq | discriminate].
Defined.

(** X5. [loopcheck] marks the position it is asked about and no other: a
    later call reports a position exactly when an earlier call reported or
    marked it, and the bitmap keeps its size. *)
Theorem loopcheck_marks_one_position loop p q :
  Z.of_nat (length loop) = LOOP_BITMAP_SIZE ->
  0 <= p < MAX_COMPRESS_POS -> 0 <= q < MAX_COMPRESS_POS ->
  length (snd (loopcheck loop p)) = length loop /\
  (fst (loopcheck (snd (loopcheck loop p)) q) <> 0 <->
   fst (loopcheck loop q) <> 0 \/ q = p).
Proof.
  intros Hl Hp Hq. split; [apply loopcheck_length|].
  assert (Hidx : (Z.to_nat (p / 8) < length loop)%nat).
  { unfold LOOP_BITMAP_SIZE, MAX_COMPRESS_POS in *.
    change (16384 / 8) with 2048 in Hl.
    assert (p / 8 < 2048) by (apply Z.div_lt_upper_bound; lia).
    pose proof (Z.div_pos p 8 ltac:(lia) ltac:(lia)). lia. }
  pose proof (loopcheck_seen loop p q ltac:(lia) ltac:(lia) Hidx) as Hs.
  unfold seen in Hs.
  destruct (fst (loopcheck (snd (loopcheck loop p)) q) =? 0) eqn:E1;
    destruct (fst (loopcheck loop q) =? 0) eqn:E2;
    destruct (q =? p) eqn:E3; cbn in Hs; try discriminate;
    rewrite ?Z.eqb_eq, ?Z.eqb_neq in *; split; intros; try tauto; try lia.
Qed.

Lemma loopcheck_marks_one_position_witness :
  fst (loopcheck (snd (loopcheck (repeat 0 2048) 12)) 13) <> 0 <->
  fst (loopcheck (repeat 0 2048) 13) <> 0 \/ 13 = 12.
Proof.
  apply (loopcheck_marks_one_position (repeat 0 2048) 12 13);
    [rewrite repeat_length; reflexivity | unfold MAX_COMPRESS_POS; lia ..].
Defined.

(** *** The order of query_dname_compare *)

(** A byte with its ASCII capital letter lowered, as [query_dname_tolower]
    stores it, and its value. *)
Definition lower (c : Byte.byte) : Z := tolower (u8 c).

Definition lower_byte (c : Byte.byte) : Byte.byte := byte_of_Z (lower c).

(** The octets that [query_dname_compare] looks at: of each label the
    length and the lowered bytes, up to the root label. *)
Inductive canonical : list Byte.byte -> list Z -> Prop :=
| canon_root l rest : u8 l = 0 -> canonical (l :: rest) [0]
| canon_label l label rest c :
    u8 l <> 0 -> Z.of_nat (length label) = u8 l -> canonical rest c ->
    canonical (l :: label ++ rest) (u8 l :: map lower label ++ c).

(** Lexicographic comparison of two lists of octets. *)
Fixpoint lex_compare (a b : list Z) : Z :=
  match a, b with
  | [], [] => 0
  | [], _ :: _ => -1
  | _ :: _, [] => 1
  | x :: a', y :: b' =>
      if negb (x =? y) then if x <? y then -1 else 1 else lex_compare a' b'
  end.

(** The name that [dname] starts with, without the memory behind it. *)
Inductive name_of : list Byte.byte -> list Byte.byte -> Prop :=
| name_root l rest : u8 l = 0 -> name_of (l :: rest) [l]
| name_label_of l label rest name :
    u8 l <> 0 -> Z.of_nat (length label) = u8 l -> name_of rest name ->
    name_of (l :: label ++ rest) (l :: label ++ name).

(** [d'] is [d] with the bytes of its labels lowered. *)
Inductive lowered : list Byte.byte -> list Byte.byte -> Prop :=
| lowered_root l rest : u8 l = 0 -> lowered (l :: rest) (l :: rest)
| lowered_label l label rest rest' :
    u8 l <> 0 -> Z.of_nat (length label) = u8 l -> lowered rest rest' ->
    lowered (l :: label ++ rest) (l :: map lower_byte label ++ rest').

Lemma u8_byte_of_Z z : 0 <= z < 256 -> u8 (byte_of_Z z) = z.
Proof.
  intros Hz. apply Z.eqb_eq.
  apply (u8_cases (fun z => u8 (byte_of_Z z) =? z));
    [vm_compute; reflexivity | exact Hz].
Qed.

Lemma u8_inj a b : u8 a = u8 b -> a = b.
Proof.
  unfold u8. intros H. apply N2Z.inj in H.
  pose proof (Byte.of_to_N a) as Ha. rewrite H, Byte.of_to_N in Ha.
  now injection Ha.
Qed.

Lemma tolower_range c : 0 <= c < 256 -> 0 <= tolower c < 256.
Proof.
  intros Hc. unfold tolower.
  destruct ((65 <=? c) && (c <=? 90)) eqn:E; [|exact Hc].
  apply andb_prop in E as [E1 E2]. apply Z.leb_le in E1, E2. lia.
Qed.

Lemma tolower_idem c : tolower (tolower c) = tolower c.
Proof.
  unfold tolower.
  destruct ((65 <=? c) && (c <=? 90)) eqn:E; [|now rewrite E].
  apply andb_prop in E as [E1 E2]. apply Z.leb_le in E1, E2.
  replace (c + 32 <=? 90) with false by (symmetry; apply Z.leb_gt; lia).
  now rewrite andb_false_r.
Qed.

Lemma lower_lower_byte c : lower (lower_byte c) = lower c.
Proof.
  unfold lower_byte, lower.
  rewrite u8_byte_of_Z by (apply tolower_range, u8_bound).
  apply tolower_idem.
Qed.

Lemma u8_lower_byte c : u8 (lower_byte c) = lower c.
Proof.
  unfold lower_byte, lower. apply u8_byte_of_Z, tolower_range, u8_bound.
Qed.

Lemma canonical_wf d c : canonical d c -> dname_wf d.
Proof. induction 1; [now apply wf_root | now apply wf_label]. Qed.

Lemma wf_canonical d : dname_wf d -> exists c, canonical d c.
Proof.
  induction 1 as [l rest Hl | l label rest Hl Hlen _ (c & Hc)].
  - exists [0]. now apply canon_root.
  - exists (u8 l :: map lower label ++ c). now apply canon_label.
Qed.

Lemma canonical_cons d c : canonical d c -> exists l rest, d = l :: rest.
Proof. intros [l rest _ | l label rest k _ _ _]; eauto. Qed.

Lemma lex_compare_app k : forall a b,
  lex_compare (k ++ a) (k ++ b) = lex_compare a b.
Proof.
  induction k as [|x k IH]; intros a b; [reflexivity|].
  cbn [app lex_compare]. rewrite Z.eqb_refl. cbn [negb]. apply IH.
Qed.

Lemma lex_compare_refl a : lex_compare a a = 0.
Proof.
  induction a as [|x a IH]; [reflexivity|].
  cbn [lex_compare]. rewrite Z.eqb_refl. cbn [negb]. exact IH.
Qed.

Lemma lex_compare_eq a : forall b, lex_compare a b = 0 -> a = b.
Proof.
  induction a as [|x a IH]; intros [|y b]; cbn [lex_compare]; try discriminate;
    [reflexivity|].
  destruct (Z.eqb_spec x y) as [-> | Hne]; cbn [negb].
  - intros H. f_equal. now apply IH.
  - destruct (x <? y); discriminate.
Qed.

Lemma lex_compare_range a : forall b,
  lex_compare a b = -1 \/ lex_compare a b = 0 \/ lex_compare a b = 1.
Proof.
  induction a as [|x a IH]; intros [|y b]; cbn [lex_compare]; auto.
  destruct (x =? y); cbn [negb]; [apply IH|].
  destruct (x <? y); auto.
Qed.

Lemma lex_compare_trans a : forall b c,
  lex_compare a b <= 0 -> lex_compare b c <= 0 ->
  lex_compare a c <= 0 /\
  (lex_compare a c = 0 -> lex_compare a b = 0 /\ lex_compare b c = 0).
Proof.
  induction a as [|x a IH]; intros [|y b] [|z c]; cbn [lex_compare];
    try lia.
  destruct (Z.eqb_spec x y) as [Exy | Exy]; cbn [negb];
    destruct (Z.eqb_spec y z) as [Eyz | Eyz]; cbn [negb];
    destruct (Z.eqb_spec x z) as [Exz | Exz]; cbn [negb];
    try (exfalso; lia);
    repeat match goal with
           | |- context [?u <? ?v] => destruct (Z.ltb_spec u v)
           end;
    try lia.
  apply IH.
Qed.

(** The inner loop on two labels of the same length compares their lowered
    bytes in order. *)
Lemma compare_label_lex label1 :
  forall label2 rest1 rest2 k1 k2,
    length label1 = length label2 ->
    (map lower label1 = map lower label2 /\
     compare_label (length label1) (label1 ++ rest1) (label2 ++ rest2)
       = Some (inr (rest1, rest2)))
    \/
    (exists r,
       compare_label (length label1) (label1 ++ rest1) (label2 ++ rest2)
         = Some (inl r) /\
       lex_compare (map lower label1 ++ k1) (map lower label2 ++ k2) = r).
Proof.
  induction label1 as [|c1 label1 IH]; intros [|c2 label2] rest1 rest2 k1 k2 Hl;
    try discriminate.
  - left. split; reflexivity.
  - injection Hl as Hl. cbn [length app compare_label map lex_compare].
    fold (lower c1). fold (lower c2).
    destruct (lower c1 =? lower c2) eqn:Ec; cbn [negb].
    + apply Z.eqb_eq in Ec.
      destruct (IH label2 rest1 rest2 k1 k2 Hl) as [(Hm & H1) | (r & H1 & H2)].
      * left. split; [now rewrite Ec, Hm | exact H1].
      * right. exists r. split; assumption.
    + right. destruct (lower c1 <? lower c2); eauto.
Qed.

(** The comparison loop on two names returns the lexicographic comparison of
    their canonical octets. *)
Lemma query_dname_compare_loop_lex d1 c1 :
  canonical d1 c1 ->
  forall d2 c2, canonical d2 c2 ->
  forall f l1 t1 l2 t2,
    d1 = l1 :: t1 -> d2 = l2 :: t2 -> (length d1 <= f)%nat ->
    query_dname_compare_loop f (u8 l1) (u8 l2) t1 t2
      = Some (lex_compare c1 c2).
Proof.
  induction 1 as [l rest Hl | l label rest c Hl Hlen Hrest IH];
    intros d2 c2 Hd2 f l1 t1 l2 t2 E1 E2 Hf;
    injection E1 as <- <-; subst d2;
    destruct f as [|f]; try (cbn in Hf; lia);
    cbn [query_dname_compare_loop].
  - rewrite Hl.
    inversion Hd2 as [? ? Hl2 | ? label2 rest2 k2 Hl2 Hlen2 Hrest2]; subst.
    + rewrite Hl2. reflexivity.
    + cbn [lex_compare]. pose proof (u8_nonneg l2).
      replace (u8 l2 =? 0) with false by (symmetry; apply Z.eqb_neq; lia).
      replace (0 =? u8 l2) with false by (symmetry; apply Z.eqb_neq; lia).
      cbn [negb orb Z.eqb]. destruct (0 <? u8 l2); reflexivity.
  - replace (u8 l =? 0) with false by (symmetry; apply Z.eqb_neq; lia).
    cbn [negb orb].
    inversion Hd2 as [? ? Hl2 | ? label2 rest2 k2 Hl2 Hlen2 Hrest2]; subst;
      cbn [lex_compare].
    + rewrite Hl2.
      replace (u8 l =? 0) with false by (symmetry; apply Z.eqb_neq; lia).
      cbn [negb]. destruct (u8 l <? 0); reflexivity.
    + destruct (u8 l =? u8 l2) eqn:El; cbn [negb];
        [|destruct (u8 l <? u8 l2); reflexivity].
      apply Z.eqb_eq in El.
      assert (Hll : length label = length label2) by lia.
      replace (Z.to_nat (u8 l)) with (length label) by lia.
      destruct (compare_label_lex label label2 rest rest2 c k2 Hll)
        as [(Hm & ->) | (r & -> & Hr)]; [|now rewrite Hr].
      destruct (canonical_cons _ _ Hrest) as (l1' & t1' & ->).
      destruct (canonical_cons _ _ Hrest2) as (l2' & t2' & ->).
      rewrite Hm, lex_compare_app.
      apply (IH _ _ Hrest2 f l1' t1' l2' t2' eq_refl eq_refl).
      cbn [length] in Hf. rewrite length_app in Hf. cbn [length] in *. lia.
Qed.

Lemma query_dname_compare_lex d1 c1 d2 c2 :
  canonical d1 c1 -> canonical d2 c2 ->
  query_dname_compare d1 d2 = Some (lex_compare c1 c2).
Proof.
  intros H1 H2.
  destruct (canonical_cons _ _ H1) as (l1 & t1 & E1).
  destruct (canonical_cons _ _ H2) as (l2 & t2 & E2).
  pose proof (query_dname_compare_loop_lex d1 c1 H1 d2 c2 H2 (length d1)
                l1 t1 l2 t2 E1 E2 (le_n _)) as H.
  subst d1 d2. exact H.
Qed.

(** X6. [query_dname_compare] orders the uncompressed names: when a first
    name is not above a second and the second not above a third, the first
    is not above the third, and the first and third compare equal only when
    all three do.  With the antisymmetry this makes the comparison fit to
    key a sorted tree. *)
Theorem query_dname_compare_transitive d1 d2 d3 r12 r23 :
  dname_wf d1 -> dname_wf d2 -> dname_wf d3 ->
  query_dname_compare d1 d2 = Some r12 ->
  query_dname_compare d2 d3 = Some r23 ->
  r12 <= 0 -> r23 <= 0 ->
  exists r13,
    query_dname_compare d1 d3 = Some r13 /\ r13 <= 0 /\
    (r13 = 0 -> r12 = 0 /\ r23 = 0).
Proof.
  intros H1 H2 H3 E12 E23 L12 L23.
  destruct (wf_canonical _ H1) as (c1 & C1).
  destruct (wf_canonical _ H2) as (c2 & C2).
  destruct (wf_canonical _ H3) as (c3 & C3).
  rewrite (query_dname_compare_lex _ _ _ _ C1 C2) in E12.
  rewrite (query_dname_compare_lex _ _ _ _ C2 C3) in E23.
  injection E12 as <-. injection E23 as <-.
  exists (lex_compare c1 c3).
  split; [apply (query_dname_compare_lex _ _ _ _ C1 C3)|].
  now apply lex_compare_trans.
Qed.

Lemma query_dname_compare_transitive_witness :
  exists r13,
    query_dname_compare name_A name_a = Some r13 /\ r13 <= 0 /\
    (r13 = 0 -> 0 = 0 /\ 0 = 0).
Proof.
  apply (query_dname_compare_transitive name_A name_a name_a 0 0);
    try apply name_wf; try reflexivity; lia.
Defined.

(** *** query_dname_tolower *)

Lemma label_split {A} (label label' rest rest' : list A) n :
  Z.of_nat (length label) = n -> Z.of_nat (length label') = n ->
  label ++ rest = label' ++ rest' -> label = label' /\ rest = rest'.
Proof. intros H1 H2 E. apply app_eq_same_length; [exact E | lia]. Qed.

Lemma canonical_unique d c1 :
  canonical d c1 -> forall c2, canonical d c2 -> c1 = c2.
Proof.
  induction 1 as [l rest Hl | l label rest c Hl Hlen Hrest IH]; intros c2 H2.
  - inversion H2; subst; [reflexivity | contradiction].
  - remember (l :: label ++ rest) as d eqn:Ed.
    destruct H2 as [l' rest' Hl' | l' label' rest' c' Hl' Hlen' Hrest'];
      injection Ed as -> Ed; [contradiction|].
    destruct (label_split _ _ _ _ _ Hlen' Hlen Ed) as [-> ->].
    f_equal. f_equal. now apply IH.
Qed.

Lemma name_of_unique d n1 :
  name_of d n1 -> forall n2, name_of d n2 -> n1 = n2.
Proof.
  induction 1 as [l rest Hl | l label rest n Hl Hlen Hrest IH]; intros n2 H2.
  - inversion H2; subst; [reflexivity | contradiction].
  - remember (l :: label ++ rest) as d eqn:Ed.
    destruct H2 as [l' rest' Hl' | l' label' rest' n' Hl' Hlen' Hrest'];
      injection Ed as -> Ed; [contradiction|].
    destruct (label_split _ _ _ _ _ Hlen' Hlen Ed) as [-> ->].
    f_equal. f_equal. now apply IH.
Qed.

Lemma tolower_label_app label : forall rest,
  tolower_label (length label) (label ++ rest) = (map lower_byte label, rest).
Proof.
  induction label as [|c label IH]; intros rest; cbn [length app tolower_label map].
  - now destruct rest.
  - now rewrite IH.
Qed.

Lemma query_dname_tolower_loop_lowered d :
  dname_wf d ->
  forall f, (length d <= f)%nat -> lowered d (query_dname_tolower_loop f d).
Proof.
  induction 1 as [l rest Hl | l label rest Hl Hlen Hrest IH]; intros f Hf;
    (destruct f as [|f]; [cbn in Hf; lia|]); cbn [query_dname_tolower_loop].
  - rewrite Hl. cbn [Z.eqb]. now apply lowered_root.
  - replace (u8 l =? 0) with false by (symmetry; apply Z.eqb_neq; assumption).
    replace (Z.to_nat (u8 l)) with (length label) by lia.
    rewrite tolower_label_app. apply lowered_label; try assumption.
    apply IH. cbn [length] in Hf. rewrite length_app in Hf. lia.
Qed.

Lemma query_dname_tolower_lowered d :
  dname_wf d -> lowered d (query_dname_tolower d).
Proof. intros H. now apply query_dname_tolower_loop_lowered. Qed.

Lemma map_lower_lower_byte label :
  map lower (map lower_byte label) = map lower label.
Proof.
  rewrite map_map. apply map_ext. intros c. apply lower_lower_byte.
Qed.

Lemma map_lower_byte_idem label :
  map lower_byte (map lower_byte label) = map lower_byte label.
Proof.
  rewrite map_map. apply map_ext. intros c.
  unfold lower_byte at 1. now rewrite lower_lower_byte.
Qed.

Lemma same_nocase_lower_byte label :
  Forall2 same_nocase label (map lower_byte label).
Proof.
  induction label as [|c label IH]; cbn [map]; constructor; [|exact IH].
  unfold same_nocase. symmetry. apply lower_lower_byte.
Qed.

(** What lowering keeps of a name. *)
Lemma lowered_facts d d' :
  lowered d d' ->
  length d' = length d /\ dname_eq_nocase d d' /\ lowered d' d' /\
  exists c n,
    canonical d c /\ canonical d' c /\ name_of d' n /\ map u8 n = c.
Proof.
  induction 1 as [l rest Hl | l label rest rest' Hl Hlen Hrest IH].
  - repeat split; [now apply eq_root | now apply lowered_root |].
    exists [0], [l]. repeat split;
      [now apply canon_root | now apply canon_root | now apply name_root |].
    cbn [map]. now rewrite Hl.
  - destruct IH as (IHlen & IHeq & IHlow & c & n & Hc & Hc' & Hn & Hmap).
    assert (Hlen' : Z.of_nat (length (map lower_byte label)) = u8 l)
      by now rewrite length_map.
    repeat split.
    + cbn [length]. rewrite !length_app, length_map. lia.
    + apply eq_label; auto. apply same_nocase_lower_byte.
    + rewrite <- (map_lower_byte_idem label) at 2. now apply lowered_label.
    + exists (u8 l :: map lower label ++ c), (l :: map lower_byte label ++ n).
      repeat split.
      * now apply canon_label.
      * rewrite <- (map_lower_lower_byte label). now apply canon_label.
      * now apply name_label_of.
      * cbn [map]. rewrite map_app, Hmap. f_equal. f_equal.
        rewrite map_map. apply map_ext. intros x. apply u8_lower_byte.
Qed.

Lemma lowered_unique d a :
  lowered d a -> forall b, lowered d b -> a = b.
Proof.
  induction 1 as [l rest Hl | l label rest rest' Hl Hlen Hrest IH]; intros b H2.
  - inversion H2; subst; [reflexivity | contradiction].
  - remember (l :: label ++ rest) as d eqn:Ed.
    destruct H2 as [l2 r2 Hl2 | l2 label2 r2 r2' Hl2 Hlen2 Hrest2];
      injection Ed as -> Ed; [contradiction|].
    destruct (label_split _ _ _ _ _ Hlen2 Hlen Ed) as [-> ->].
    f_equal. f_equal. now apply IH.
Qed.

Lemma lowered_wf d d' : lowered d d' -> dname_wf d'.
Proof.
  intros H. destruct (lowered_facts _ _ H) as (_ & _ & _ & c & _ & _ & Hc & _).
  exact (canonical_wf _ _ Hc).
Qed.

Lemma query_dname_compare_zero d1 d2 :
  dname_wf d1 -> dname_wf d2 ->
  (query_dname_compare d1 d2 = Some 0 <-> dname_eq_nocase d1 d2).
Proof.
  intros H1 H2.
  destruct (dname_wf_cons _ H1) as (l1 & t1 & E1).
  destruct (dname_wf_cons _ H2) as (l2 & t2 & E2).
  destruct (query_dname_compare_loop_wf d1 H1 d2 H2 (length d1) (length d2)
              l1 t1 l2 t2 E1 E2 (le_n _) (le_n _)) as (r & Hr1 & _ & _ & Hiff).
  assert (Hc : query_dname_compare d1 d2 = Some r) by (subst d1 d2; exact Hr1).
  rewrite Hc. split.
  - intros [= ->]. now apply Hiff.
  - intros Hq. f_equal. now apply Hiff.
Qed.

(** X7. [query_dname_tolower] changes an uncompressed name into a name
    that is equal to it up to case and has the same length, so that
    [query_dname_compare] finds the two equal; lowering once more changes
    nothing. *)
Theorem query_dname_tolower_same_name d :
  dname_wf d ->
  let d' := query_dname_tolower d in
  length d' = length d /\ dname_wf d' /\ dname_eq_nocase d d' /\
  query_dname_compare d d' = Some 0 /\
  query_dname_tolower d' = d'.
Proof.
  intros Hwf d'.
  pose proof (query_dname_tolower_lowered d Hwf) as Hlow. fold d' in Hlow.
  destruct (lowered_facts _ _ Hlow) as (Hlen & Heq & Hidem & _).
  pose proof (lowered_wf _ _ Hlow) as Hwf'.
  repeat split; try assumption.
  - now apply query_dname_compare_zero.
  - exact (lowered_unique _ _ (query_dname_tolower_lowered d' Hwf') _ Hidem).
Qed.

Lemma query_dname_tolower_same_name_witness :
  query_dname_compare name_A (query_dname_tolower name_A) = Some 0.
Proof. apply (query_dname_tolower_same_name name_A (name_wf 65)). Defined.

(** X8. Lowering either name, or both, leaves the result of
    [query_dname_compare] as it is. *)
Theorem query_dname_compare_ignores_tolower d1 d2 :
  dname_wf d1 -> dname_wf d2 ->
  query_dname_compare (query_dname_tolower d1) d2 = query_dname_compare d1 d2 /\
  query_dname_compare d1 (query_dname_tolower d2) = query_dname_compare d1 d2 /\
  query_dname_compare (query_dname_tolower d1) (query_dname_tolower d2)
    = query_dname_compare d1 d2.
Proof.
  intros H1 H2.
  destruct (lowered_facts _ _ (query_dname_tolower_lowered d1 H1))
    as (_ & _ & _ & c1 & _ & C1 & C1' & _).
  destruct (lowered_facts _ _ (query_dname_tolower_lowered d2 H2))
    as (_ & _ & _ & c2 & _ & C2 & C2' & _).
  rewrite (query_dname_compare_lex _ _ _ _ C1 C2),
    (query_dname_compare_lex _ _ _ _ C1' C2),
    (query_dname_compare_lex _ _ _ _ C1 C2'),
    (query_dname_compare_lex _ _ _ _ C1' C2').
  repeat split.
Qed.

Lemma query_dname_compare_ignores_tolower_witness :
  query_dname_compare (query_dname_tolower name_A) name_b = Some (-1).
Proof.
  rewrite (proj1 (query_dname_compare_ignores_tolower name_A name_b
                    (name_wf 65) (name_wf 98))).
  reflexivity.
Defined.

(** X9. After [query_dname_tolower] two names are the same bytes exactly
    when the names were equal up to case, that is exactly when
    [query_dname_compare] returns 0 on them. *)
Theorem query_dname_tolower_canonical d1 d2 n1 n2 :
  dname_wf d1 -> dname_wf d2 ->
  name_of (query_dname_tolower d1) n1 ->
  name_of (query_dname_tolower d2) n2 ->
  (n1 = n2 <-> dname_eq_nocase d1 d2) /\
  (n1 = n2 <-> query_dname_compare d1 d2 = Some 0).
Proof.
  intros H1 H2 N1 N2.
  destruct (lowered_facts _ _ (query_dname_tolower_lowered d1 H1))
    as (_ & _ & _ & c1 & m1 & C1 & _ & M1 & E1).
  destruct (lowered_facts _ _ (query_dname_tolower_lowered d2 H2))
    as (_ & _ & _ & c2 & m2 & C2 & _ & M2 & E2).
  rewrite (name_of_unique _ _ M1 _ N1) in E1.
  rewrite (name_of_unique _ _ M2 _ N2) in E2.
  assert (Hz : n1 = n2 <-> query_dname_compare d1 d2 = Some 0).
  { rewrite (query_dname_compare_lex _ _ _ _ C1 C2). split.
    - intros ->. rewrite <- E1, <- E2, lex_compare_refl. reflexivity.
    - intros [= Hlex]. apply lex_compare_eq in Hlex.
      rewrite <- E1, <- E2 in Hlex. clear - Hlex.
      revert n2 Hlex. induction n1 as [|x n1 IH]; intros [|y n2] E;
        try discriminate; [reflexivity|].
      injection E as Ex E. f_equal; [now apply u8_inj | now apply IH]. }
  split; [|exact Hz].
  rewrite Hz. now apply query_dname_compare_zero.
Qed.

Lemma name_of_lowered c :
  name_of (map byte_of_Z [1; c; 0]) (map byte_of_Z [1; c; 0]).
Proof.
  apply (name_label_of (byte_of_Z 1) [byte_of_Z c] [byte_of_Z 0] [byte_of_Z 0]).
  - vm_compute; discriminate.
  - reflexivity.
  - apply name_root. reflexivity.
Qed.

Lemma query_dname_tolower_canonical_witness :
  dname_eq_nocase name_A name_a.
Proof.
  apply (proj1 (query_dname_tolower_canonical name_A name_a name_a name_a
                  (name_wf 65) (name_wf 97)
                  (name_of_lowered 97) (name_of_lowered 97))).
  reflexivity.
Defined.

(** *** Names with compression pointers

    A [uint8_t*] into the packet is the list of the packet's bytes from the
    pointer on.  The loops that follow compression pointers have no guard
    of their own, so their models take the number of iterations allowed and
    return [None] when it is used up. *)

(** [ldns_buffer_current]: the pointer to the byte at the buffer's
    position. *)
Definition ldns_buffer_current (pkt : ldns_buffer) : list Byte.byte :=
  skipn (Z.to_nat (position pkt)) (data pkt).

(** [run] returns [v] when it is allowed enough iterations. *)
Definition returns {A} (run : nat -> option A) (v : A) : Prop :=
  exists f0, forall f, (f0 <= f)%nat -> run f = Some v.

(** [lablen] bytes read from [dname], and the pointer behind them. *)
Definition take_label (lablen : nat) (dname : list Byte.byte)
    : option (list Byte.byte * list Byte.byte) :=
  if (length dname <? lablen)%nat then None
  else Some (firstn lablen dname, skipn lablen dname).

(** An uncompressed name whose labels have at most 63 octets, with nothing
    behind it. *)
Inductive plain_name : list Byte.byte -> Prop :=
| plain_root l : u8 l = 0 -> plain_name [l]
| plain_label l label name :
    u8 l <> 0 -> u8 l <= 63 -> Z.of_nat (length label) = u8 l ->
    plain_name name -> plain_name (l :: label ++ name).

Section Compressed.

(** [LDNS_MAX_LABELLEN] of the ldns library, which is not among the sources;
    [pkt_dname_len] lets labels of up to 0x3f octets pass. *)
Variable LDNS_MAX_LABELLEN : Z.
Hypothesis labellen_fits : 63 <= LDNS_MAX_LABELLEN.

(** How the program is built.  [log_assert] of util/log.h and the [assert]
    in [ldns_buffer_at] of the ldns library are not among the sources: in a
    build with [log_asserts] a failed [log_assert] ends the program, and in
    a build without it [log_assert] does nothing; likewise [ldns_asserts]
    for the [assert] of ldns. *)
Variables log_asserts ldns_asserts : bool.

(** [log_assert(lablen <= LDNS_MAX_LABELLEN)] fails. *)
Definition label_assert_fails (lablen : Z) : bool :=
  log_asserts && (LDNS_MAX_LABELLEN <? lablen).

(** [ldns_buffer_at] as the pointer it returns: the bytes of the buffer from
    offset [at_] on; [None] when its [assert(at <= limit)] fails. *)
Definition ldns_buffer_at_ptr (pkt : ldns_buffer) (at_ : Z)
    : option (list Byte.byte) :=
  if ldns_asserts && (limit pkt <? at_) then None
  else Some (skipn (Z.to_nat at_) (data pkt)).

(** The name at [dname], with the compression pointers into [pkt] followed,
    is [name]: the walk that the loops below make, in the given build. *)
Inductive pkt_name (pkt : ldns_buffer)
    : list Byte.byte -> list Byte.byte -> Prop :=
| pkt_name_root l rest : u8 l = 0 -> pkt_name pkt (l :: rest) [l]
| pkt_name_ptr l c rest target name :
    LABEL_IS_PTR (u8 l) = true ->
    ldns_buffer_at_ptr pkt (PTR_OFFSET (u8 l) (u8 c)) = Some target ->
    pkt_name pkt target name ->
    pkt_name pkt (l :: c :: rest) name
| pkt_name_label l label rest name :
    u8 l <> 0 -> LABEL_IS_PTR (u8 l) = false ->
    label_assert_fails (u8 l) = false ->
    Z.of_nat (length label) = u8 l -> pkt_name pkt rest name ->
    pkt_name pkt (l :: label ++ rest) (l :: label ++ name).

(** The [while(lablen)] loop of [dname_pkt_copy], entered with the first
    length byte read; [to] holds the bytes written so far.  A failed
    assertion and a read behind the memory are faults ([None]); without
    [log_asserts] a label of any length that is not a pointer is copied. *)
Fixpoint dname_pkt_copy_loop (fuel : nat) (pkt : ldns_buffer) (lablen : Z)
    (dname : list Byte.byte) (to : list Byte.byte) : option (list Byte.byte) :=
  match fuel with
  | O => None
  | S fuel' =>
      if lablen =? 0 then Some (to ++ [Byte.x00])
      else if LABEL_IS_PTR lablen then
        match dname with
        | c :: _ =>
            match ldns_buffer_at_ptr pkt (PTR_OFFSET lablen (u8 c)) with
            | Some (l :: dname') =>
                dname_pkt_copy_loop fuel' pkt (u8 l) dname' to
            | _ => None
            end
        | [] => None
        end
      else if label_assert_fails lablen then None
      else
        match take_label (Z.to_nat lablen) dname with
        | Some (label, l :: dname') =>
            dname_pkt_copy_loop fuel' pkt (u8 l) dname'
              (to ++ byte_of_Z lablen :: label)
        | _ => None
        end
  end.

(** copy over the dname and decompress it at the same time: the bytes
    written to [to]. *)
Definition dname_pkt_copy (fuel : nat) (pkt : ldns_buffer)
    (dname : list Byte.byte) : option (list Byte.byte) :=
  match dname with
  | l :: dname' => dname_pkt_copy_loop fuel pkt (u8 l) dname' []
  | [] => None
  end.

Lemma firstn_label {A} (label rest : list A) :
  firstn (length label) (label ++ rest) = label.
Proof. induction label as [|x label IH]; cbn; [reflexivity | now rewrite IH]. Qed.

Lemma skipn_label {A} (label rest : list A) :
  skipn (length label) (label ++ rest) = rest.
Proof. induction label as [|x label IH]; cbn; [reflexivity | exact IH]. Qed.

Lemma take_label_app label rest :
  take_label (length label) (label ++ rest) = Some (label, rest).
Proof.
  unfold take_label.
  replace (length (label ++ rest) <? length label)%nat with false
    by (symmetry; apply Nat.ltb_ge; rewrite length_app; lia).
  now rewrite firstn_label, skipn_label.
Qed.

Lemma byte_of_Z_u8 b : byte_of_Z (u8 b) = b.
Proof. apply u8_inj, u8_byte_of_Z, u8_bound. Qed.

Lemma u8_zero l : u8 l = 0 -> l = Byte.x00.
Proof. intros H. apply u8_inj. rewrite H. reflexivity. Qed.

Lemma LABEL_IS_PTR_nonzero b : LABEL_IS_PTR b = true -> b <> 0.
Proof. intros H ->. discriminate. Qed.

(** A label that fits passes the assertion in every build. *)
Lemma label_assert_passes x :
  x <= LDNS_MAX_LABELLEN -> label_assert_fails x = false.
Proof.
  intros H. unfold label_assert_fails.
  replace (LDNS_MAX_LABELLEN <? x) with false by (symmetry; apply Z.ltb_ge; lia).
  apply andb_false_r.
Qed.

(** A pointer to an offset within the limit is followed in every build. *)
Lemma ldns_buffer_at_ptr_within pkt at_ :
  at_ <= limit pkt ->
  ldns_buffer_at_ptr pkt at_ = Some (skipn (Z.to_nat at_) (data pkt)).
Proof.
  intros H. unfold ldns_buffer_at_ptr.
  replace (limit pkt <? at_) with false by (symmetry; apply Z.ltb_ge; lia).
  now rewrite andb_false_r.
Qed.

Lemma ldns_buffer_at_ptr_some pkt at_ target :
  ldns_buffer_at_ptr pkt at_ = Some target ->
  target = skipn (Z.to_nat at_) (data pkt).
Proof.
  unfold ldns_buffer_at_ptr. destruct (ldns_asserts && _); congruence.
Qed.

Lemma pkt_name_cons pkt dname name :
  pkt_name pkt dname name -> exists l rest, dname = l :: rest.
Proof.
  intros [l rest _ | l c rest t n _ _ _ | l label rest n _ _ _ _ _]; eauto.
Qed.

Lemma returns_step {A} (run run' : nat -> option A) v :
  (forall f, run (S f) = run' f) -> returns run' v -> returns run v.
Proof.
  intros Hs (f0 & H). exists (S f0). intros [|f] Hf; [lia|].
  rewrite Hs. apply H. lia.
Qed.

Lemma returns_now {A} (run : nat -> option A) v :
  (forall f, run (S f) = Some v) -> returns run v.
Proof. intros H. exists 1%nat. intros [|f] Hf; [lia | apply H]. Qed.

Lemma dname_pkt_copy_loop_spec pkt dname name :
  pkt_name pkt dname name ->
  forall l rest to,
    dname = l :: rest ->
    returns (fun f => dname_pkt_copy_loop f pkt (u8 l) rest to) (to ++ name).
Proof.
  induction 1 as [l0 rest0 Hl | l0 c rest0 target name Hptr Ht Hn IH
                 | l0 label rest0 name Hl Hptr Hmax Hlen Hn IH];
    intros l rest to [= <- <-].
  - apply returns_now. intros f. cbn [dname_pkt_copy_loop].
    rewrite Hl. cbn [Z.eqb]. now rewrite (u8_zero _ Hl).
  - destruct (pkt_name_cons _ _ _ Hn) as (l' & rest' & E).
    eapply returns_step; [|apply (IH l' rest' to E)].
    intros f. cbn [dname_pkt_copy_loop].
    replace (u8 l0 =? 0) with false
      by (symmetry; apply Z.eqb_neq; now apply LABEL_IS_PTR_nonzero).
    now rewrite Hptr, Ht, E.
  - destruct (pkt_name_cons _ _ _ Hn) as (l' & rest' & E).
    replace (to ++ l0 :: label ++ name) with ((to ++ l0 :: label) ++ name)
      by (rewrite <- app_assoc; reflexivity).
    eapply returns_step; [|apply (IH l' rest' (to ++ l0 :: label) E)].
    intros f. cbn [dname_pkt_copy_loop].
    replace (u8 l0 =? 0) with false by (symmetry; apply Z.eqb_neq; assumption).
    rewrite Hptr, Hmax.
    replace (Z.to_nat (u8 l0)) with (length label) by lia.
    now rewrite take_label_app, E, byte_of_Z_u8.
Qed.

(** [dname_pkt_copy] writes the decompressed name. *)
Lemma dname_pkt_copy_spec pkt dname name :
  pkt_name pkt dname name ->
  returns (fun f => dname_pkt_copy f pkt dname) name.
Proof.
  intros Hn. destruct (pkt_name_cons _ _ _ Hn) as (l & rest & ->).
  exact (dname_pkt_copy_loop_spec _ _ _ Hn l rest [] eq_refl).
Qed.

(** *** Measuring, then copying *)

Lemma skipn_cons_nth {A} (d : list A) x : forall n,
  (n < length d)%nat -> skipn n d = nth n d x :: skipn (S n) d.
Proof.
  induction d as [|y d IH]; intros [|n] Hn; cbn in Hn; try lia;
    [reflexivity|].
  cbn [skipn nth]. rewrite IH by lia. reflexivity.
Qed.

Lemma skipn_take {A} (d : list A) n b :
  (n + b <= length d)%nat ->
  skipn n d = firstn b (skipn n d) ++ skipn (n + b) d /\
  length (firstn b (skipn n d)) = b.
Proof.
  intros H. split.
  - rewrite <- (firstn_skipn b (skipn n d)) at 1.
    now rewrite skipn_skipn, (Nat.add_comm b n).
  - rewrite length_firstn, length_skipn. lia.
Qed.

Lemma plain_name_wf name : plain_name name -> dname_wf name.
Proof. induction 1; [now apply wf_root | now apply wf_label]. Qed.

(** A complete name of the packet can be walked in every build, and is
    plain once its pointers are followed. *)
Lemma wire_name_pkt_name pkt lim pos n :
  wire_name (data pkt) lim pos n ->
  0 <= pos -> lim <= limit pkt -> lim <= Z.of_nat (length (data pkt)) ->
  exists name,
    pkt_name pkt (skipn (Z.to_nat pos) (data pkt)) name /\
    Z.of_nat (length name) = n /\ plain_name name.
Proof.
  set (d := data pkt).
  induction 1 as [pos H | pos b n H _ IH | pos t n H _ IH];
    intros Hpos Hlimit Hlim.
  - apply wire_item_at_end in H as (H1 & H2 & H3).
    rewrite (skipn_cons_nth d Byte.x00) by lia.
    exists [nth (Z.to_nat pos) d Byte.x00].
    repeat split; [now apply pkt_name_root | now apply plain_root].
  - apply wire_item_at_label in H as (H1 & H2 & -> & H4 & H5 & H6).
    pose proof (octet_bound d pos) as Hb.
    destruct IH as (name & Hn & Hlen & Hplain); [lia | assumption.. |].
    rewrite (skipn_cons_nth d Byte.x00) by lia.
    destruct (skipn_take d (S (Z.to_nat pos)) (Z.to_nat (octet d pos)))
      as [E Elen]; [lia|].
    rewrite E.
    replace (S (Z.to_nat pos) + Z.to_nat (octet d pos))%nat
      with (Z.to_nat (pos + 1 + octet d pos)) by lia.
    set (label := firstn _ _) in *.
    exists (nth (Z.to_nat pos) d Byte.x00 :: label ++ name).
    fold (octet d pos) in *. repeat split.
    + apply pkt_name_label; try assumption;
        [apply label_assert_passes|]; unfold octet in *; lia.
    + cbn [length]. rewrite length_app. lia.
    + apply plain_label; try assumption; unfold octet in *; lia.
  - apply wire_item_at_pointer in H as (H1 & H2 & -> & H4).
    pose proof (PTR_OFFSET_range (octet d pos) (octet d (pos + 1))
                  (octet_bound _ _)) as Ht.
    destruct IH as (name & Hn & Hlen & Hplain); [lia | assumption.. |].
    rewrite (skipn_cons_nth d Byte.x00) by lia.
    rewrite (skipn_cons_nth d Byte.x00 (S (Z.to_nat pos))) by lia.
    exists name. repeat split; try assumption.
    apply pkt_name_ptr
      with (skipn (Z.to_nat (PTR_OFFSET (octet d pos) (octet d (pos + 1)))) d);
      [exact H2 | | exact Hn].
    replace (S (Z.to_nat pos)) with (Z.to_nat (pos + 1)) by lia.
    apply ldns_buffer_at_ptr_within. unfold octet in *. lia.
Qed.

Lemma nth_middle_app {A} (pre : list A) x post y :
  nth (length pre) (pre ++ x :: post) y = x.
Proof. induction pre as [|z pre IH]; cbn; [reflexivity | exact IH]. Qed.

(** A plain name standing in a buffer is a name that [query_dname_len]
    accepts. *)
Lemma plain_name_query_name name :
  plain_name name ->
  forall pre,
    query_name (pre ++ name) (Z.of_nat (length (pre ++ name)))
      (Z.of_nat (length pre)) (Z.of_nat (length name)).
Proof.
  induction 1 as [l Hl | l label name Hl H63 Hlen Hname IH]; intros pre.
  - apply qname_end. rewrite wire_item_at_tests. unfold octet.
    rewrite Nat2Z.id, nth_middle_app, Hl, length_app. cbn [length].
    replace (Z.of_nat (length pre + 1) <=? Z.of_nat (length pre)) with false
      by (symmetry; apply Z.leb_gt; lia).
    reflexivity.
  - pose proof (u8_nonneg l) as Hnn.
    replace (Z.of_nat (length (l :: label ++ name)))
      with (1 + u8 l + Z.of_nat (length name))
      by (cbn [length]; rewrite length_app; lia).
    apply qname_label.
    + rewrite wire_item_at_tests. unfold octet.
      rewrite Nat2Z.id, nth_middle_app.
      rewrite LABEL_IS_PTR_ge by apply u8_bound.
      rewrite length_app. cbn [length]. rewrite length_app.
      replace (_ <=? Z.of_nat (length pre)) with false
        by (symmetry; apply Z.leb_gt; lia).
      replace (192 <=? u8 l) with false by (symmetry; apply Z.leb_gt; lia).
      replace (63 <? u8 l) with false by (symmetry; apply Z.ltb_ge; lia).
      replace (u8 l =? 0) with false by (symmetry; apply Z.eqb_neq; lia).
      replace (_ <? Z.of_nat (length pre) + 1 + u8 l) with false
        by (symmetry; apply Z.ltb_ge; lia).
      reflexivity.
    + specialize (IH (pre ++ l :: label)).
      replace ((pre ++ l :: label) ++ name) with (pre ++ l :: label ++ name) in IH
        by (rewrite <- app_assoc; reflexivity).
      replace (Z.of_nat (length (pre ++ l :: label)))
        with (Z.of_nat (length pre) + 1 + u8 l) in IH
        by (rewrite length_app; cbn [length]; lia).
      exact IH.
Qed.

(** What [pkt_dname_len] has accepted: a name that can be walked in every
    build and that is plain once its pointers are followed. *)
Lemma pkt_dname_len_pkt_name pkt n pkt' :
  buffer_ok pkt ->
  pkt_dname_len pkt = Some (n, pkt') -> n <> 0 ->
  exists name,
    pkt_name pkt (ldns_buffer_current pkt) name /\
    Z.of_nat (length name) = n /\ plain_name name /\
    n <= LDNS_MAX_DOMAINLEN.
Proof.
  intros [Hpos Hlim] Hr Hn.
  destruct (pkt_dname_len_sound pkt n pkt' Hr Hn) as [Hname Hmax].
  destruct (wire_name_pkt_name pkt _ _ _ Hname (proj1 Hpos) (Z.le_refl _) Hlim)
    as (name & Hpn & Hlen & Hplain).
  exists name. auto.
Qed.

(** X10. When [pkt_dname_len] has returned a non-zero length [n] for the
    name at the buffer's position, [dname_pkt_copy] of that name returns,
    and what it writes is [n] bytes: a name without compression pointers,
    for which [query_dname_len] returns [n] again. *)
Theorem dname_pkt_copy_after_pkt_dname_len pkt n pkt' :
  buffer_ok pkt ->
  pkt_dname_len pkt = Some (n, pkt') -> n <> 0 ->
  exists name,
    returns (fun f => dname_pkt_copy f pkt (ldns_buffer_current pkt)) name /\
    Z.of_nat (length name) = n /\
    dname_wf name /\
    exists q, query_dname_len (mk_buffer name 0 n) = Some (n, q).
Proof.
  intros Hok Hr Hn.
  destruct (pkt_dname_len_pkt_name pkt n pkt' Hok Hr Hn)
    as (name & Hpn & Hlen & Hplain & Hmax).
  exists name. split; [now apply dname_pkt_copy_spec|].
  split; [exact Hlen|]. split; [now apply plain_name_wf|].
  pose proof (plain_name_query_name name Hplain []) as Hq.
  cbn [app length] in Hq. rewrite Hlen in Hq.
  destruct (query_dname_len_spec (mk_buffer name 0 n))
    as (m & q & Hrq & _ & _ & _ & Hall).
  cbn [data limit position] in Hall.
  exists q. now rewrite Hrq, (Hall n Hq Hmax).
Qed.

(** *** dname_pkt_copy, read backwards *)

Lemma take_label_inv n dname label rest :
  take_label n dname = Some (label, rest) ->
  dname = label ++ rest /\ length label = n.
Proof.
  unfold take_label. destruct (length dname <? n)%nat eqn:E; [discriminate|].
  apply Nat.ltb_ge in E. intros [= <- <-]. split.
  - symmetry. apply firstn_skipn.
  - rewrite length_firstn. lia.
Qed.

(** What [dname_pkt_copy] has written, when it returns, is the name with
    the pointers followed. *)
Lemma dname_pkt_copy_loop_sound fuel :
  forall pkt l dname to out,
    dname_pkt_copy_loop fuel pkt (u8 l) dname to = Some out ->
    exists name, pkt_name pkt (l :: dname) name /\ out = to ++ name.
Proof.
  induction fuel as [|fuel IH]; intros pkt l dname to out Hr; [discriminate|].
  cbn [dname_pkt_copy_loop] in Hr.
  destruct (u8 l =? 0) eqn:E0.
  { apply Z.eqb_eq in E0. injection Hr as <-. exists [l].
    split; [now apply pkt_name_root | now rewrite (u8_zero _ E0)]. }
  apply Z.eqb_neq in E0.
  destruct (LABEL_IS_PTR (u8 l)) eqn:Eptr.
  { destruct dname as [|c rest]; [discriminate|].
    destruct (ldns_buffer_at_ptr pkt (PTR_OFFSET (u8 l) (u8 c)))
      as [[|l' dname']|] eqn:Et; try discriminate.
    apply IH in Hr as (name & Hn & ->). exists name. split; [|reflexivity].
    now apply pkt_name_ptr with (l' :: dname'). }
  destruct (label_assert_fails (u8 l)) eqn:Emax; [discriminate|].
  destruct (take_label (Z.to_nat (u8 l)) dname) as [[label [|l' dname']]|] eqn:Et;
    try discriminate.
  apply take_label_inv in Et as [-> Hlen].
  apply IH in Hr as (name & Hn & ->).
  exists (l :: label ++ name). split.
  - apply pkt_name_label; try assumption. pose proof (u8_nonneg l). lia.
  - rewrite byte_of_Z_u8, <- app_assoc. reflexivity.
Qed.

Lemma dname_pkt_copy_sound fuel pkt dname name :
  dname_pkt_copy fuel pkt dname = Some name -> pkt_name pkt dname name.
Proof.
  unfold dname_pkt_copy. destruct dname as [|l dname']; [discriminate|].
  intros Hr. apply dname_pkt_copy_loop_sound in Hr as (n & Hn & ->).
  exact Hn.
Qed.

Lemma pkt_name_wf pkt dname name : pkt_name pkt dname name -> dname_wf name.
Proof.
  induction 1 as [l rest Hl | l c rest target name _ _ _ IH
                 | l label rest name Hl _ _ Hlen _ IH];
    [now apply wf_root | exact IH | now apply wf_label].
Qed.

(** *** dname_pkt_compare *)

(** The [while( len1 != 0 || len2 != 0 )] loop of [dname_pkt_compare],
    entered with both length bytes read.  Its inner loop reads and compares
    the bytes as the inner loop of [query_dname_compare] does. *)
Fixpoint dname_pkt_compare_loop (fuel : nat) (pkt : ldns_buffer)
    (len1 len2 : Z) (d1 d2 : list Byte.byte) : option Z :=
  match fuel with
  | O => None
  | S fuel' =>
      if negb (len1 =? 0) || negb (len2 =? 0) then
        if LABEL_IS_PTR len1 then
          match d1 with
          | c :: _ =>
              match ldns_buffer_at_ptr pkt (PTR_OFFSET len1 (u8 c)) with
              | Some (l :: d1') =>
                  dname_pkt_compare_loop fuel' pkt (u8 l) len2 d1' d2
              | _ => None
              end
          | [] => None
          end
        else if LABEL_IS_PTR len2 then
          match d2 with
          | c :: _ =>
              match ldns_buffer_at_ptr pkt (PTR_OFFSET len2 (u8 c)) with
              | Some (l :: d2') =>
                  dname_pkt_compare_loop fuel' pkt len1 (u8 l) d1 d2'
              | _ => None
              end
          | [] => None
          end
        else if label_assert_fails len1 || label_assert_fails len2 then None
        else if negb (len1 =? len2) then
          if len1 <? len2 then Some (-1) else Some 1
        else
          match compare_label (Z.to_nat len1) d1 d2 with
          | None => None
          | Some (inl r) => Some r
          | Some (inr (l1 :: d1', l2 :: d2')) =>
              dname_pkt_compare_loop fuel' pkt (u8 l1) (u8 l2) d1' d2'
          | Some (inr _) => None
          end
      else Some 0
  end.

Definition dname_pkt_compare (fuel : nat) (pkt : ldns_buffer)
    (d1 d2 : list Byte.byte) : option Z :=
  match d1, d2 with
  | l1 :: d1', l2 :: d2' =>
      dname_pkt_compare_loop fuel pkt (u8 l1) (u8 l2) d1' d2'
  | _, _ => None
  end.

Lemma canonical_root_inv l rest c :
  u8 l = 0 -> canonical (l :: rest) c -> c = [0].
Proof. intros Hl H. inversion H; subst; [reflexivity | contradiction]. Qed.

Lemma canonical_label_inv l label rest c :
  u8 l <> 0 -> Z.of_nat (length label) = u8 l ->
  canonical (l :: label ++ rest) c ->
  exists c', c = u8 l :: map lower label ++ c' /\ canonical rest c'.
Proof.
  intros Hl Hlen H. remember (l :: label ++ rest) as d eqn:Ed.
  destruct H as [l' rest' Hl' | l' label' rest' c' Hl' Hlen' Hrest'];
    injection Ed as -> Ed; [contradiction|].
  destruct (label_split _ _ _ _ _ Hlen' Hlen Ed) as [-> ->]. eauto.
Qed.

Lemma label_assert_root : label_assert_fails 0 = false.
Proof. apply label_assert_passes. lia. Qed.

Lemma dname_pkt_compare_loop_lex pkt d1 n1 :
  pkt_name pkt d1 n1 ->
  forall d2 n2, pkt_name pkt d2 n2 ->
  forall c1 c2, canonical n1 c1 -> canonical n2 c2 ->
  forall l1 t1 l2 t2,
    d1 = l1 :: t1 -> d2 = l2 :: t2 ->
    returns (fun f => dname_pkt_compare_loop f pkt (u8 l1) (u8 l2) t1 t2)
      (lex_compare c1 c2).
Proof.
  induction 1 as [l rest Hl | l c rest target name Hptr Ht Hn IH
                 | l label rest name Hl Hptr Hmax Hlen Hn IH];
    intros d2 n2 H2.
  - (* the first name is at its root label *)
    induction H2 as [l' rest' Hl' | l' c' rest' target' name' Hptr' Ht' Hn' IH'
                    | l' label' rest' name' Hl' Hptr' Hmax' Hlen' Hn' IH'];
      intros c1 c2 C1 C2 l1 t1 l2 t2 [= <- <-] [= <- <-].
    + apply canonical_root_inv in C1, C2; try assumption. subst.
      apply returns_now. intros f. cbn [dname_pkt_compare_loop].
      now rewrite Hl, Hl'.
    + destruct (pkt_name_cons _ _ _ Hn') as (l2 & t2 & E).
      eapply returns_step;
        [|apply (IH' c1 c2 C1 C2 l rest l2 t2 eq_refl E)].
      intros f. cbn [dname_pkt_compare_loop]. rewrite Hl.
      replace (u8 l' =? 0) with false
        by (symmetry; apply Z.eqb_neq; now apply LABEL_IS_PTR_nonzero).
      change (0 =? 0) with true. cbn [negb orb].
      change (LABEL_IS_PTR 0) with false. cbn iota.
      now rewrite Hptr', Ht', E.
    + apply canonical_root_inv in C1; [|assumption]. subst c1.
      apply canonical_label_inv in C2 as (c' & -> & _); try assumption.
      apply returns_now. intros f. cbn [dname_pkt_compare_loop lex_compare].
      rewrite Hl.
      replace (u8 l' =? 0) with false by (symmetry; apply Z.eqb_neq; assumption).
      change (0 =? 0) with true. cbn [negb orb].
      change (LABEL_IS_PTR 0) with false. cbn iota.
      rewrite Hptr', label_assert_root, Hmax'. cbn [orb].
      replace (0 =? u8 l') with false by (symmetry; apply Z.eqb_neq; lia).
      cbn [negb]. destruct (0 <? u8 l'); reflexivity.
  - (* the first name is at a compression pointer *)
    intros c1 c2 C1 C2 l1 t1 l2 t2 [= <- <-] E2.
    destruct (pkt_name_cons _ _ _ Hn) as (l1 & t1 & E).
    eapply returns_step;
      [|apply (IH d2 n2 H2 c1 c2 C1 C2 l1 t1 l2 t2 E E2)].
    intros f. cbn [dname_pkt_compare_loop].
    replace (u8 l =? 0) with false
      by (symmetry; apply Z.eqb_neq; now apply LABEL_IS_PTR_nonzero).
    cbn [negb orb]. now rewrite Hptr, Ht, E.
  - (* the first name is at a label *)
    induction H2 as [l' rest' Hl' | l' c' rest' target' name' Hptr' Ht' Hn' IH'
                    | l' label' rest' name' Hl' Hptr' Hmax' Hlen' Hn' IH'];
      intros c1 c2 C1 C2 l1 t1 l2 t2 [= <- <-] [= <- <-].
    + apply canonical_root_inv in C2; [|assumption]. subst c2.
      apply canonical_label_inv in C1 as (c' & -> & _); try assumption.
      apply returns_now. intros f. cbn [dname_pkt_compare_loop lex_compare].
      rewrite Hl'.
      replace (u8 l =? 0) with false by (symmetry; apply Z.eqb_neq; assumption).
      cbn [negb orb]. rewrite Hptr. change (LABEL_IS_PTR 0) with false.
      cbn iota. rewrite Hmax, label_assert_root. cbn [orb].
      replace (u8 l =? 0) with false
        by (symmetry; apply Z.eqb_neq; assumption).
      cbn [negb]. destruct (u8 l <? 0); reflexivity.
    + destruct (pkt_name_cons _ _ _ Hn') as (l2 & t2 & E).
      eapply returns_step;
        [|apply (IH' c1 c2 C1 C2 l (label ++ rest) l2 t2 eq_refl E)].
      intros f. cbn [dname_pkt_compare_loop].
      replace (u8 l =? 0) with false by (symmetry; apply Z.eqb_neq; assumption).
      cbn [negb orb]. now rewrite Hptr, Hptr', Ht', E.
    + apply canonical_label_inv in C1 as (k1 & -> & K1); try assumption.
      apply canonical_label_inv in C2 as (k2 & -> & K2); try assumption.
      cbn [lex_compare].
      assert (Hhead : forall f,
                dname_pkt_compare_loop (S f) pkt (u8 l) (u8 l')
                  (label ++ rest) (label' ++ rest') =
                if negb (u8 l =? u8 l')
                then if u8 l <? u8 l' then Some (-1) else Some 1
                else match compare_label (Z.to_nat (u8 l))
                             (label ++ rest) (label' ++ rest') with
                     | None => None
                     | Some (inl r) => Some r
                     | Some (inr (l1 :: d1', l2 :: d2')) =>
                         dname_pkt_compare_loop f pkt (u8 l1) (u8 l2) d1' d2'
                     | Some (inr _) => None
                     end).
      { intros f. cbn [dname_pkt_compare_loop].
        replace (u8 l =? 0) with false by (symmetry; apply Z.eqb_neq; assumption).
        cbn [negb orb]. rewrite Hptr, Hptr', Hmax, Hmax'. reflexivity. }
      destruct (u8 l =? u8 l') eqn:El; cbn [negb].
      2:{ apply returns_now. intros f. rewrite Hhead.
          destruct (u8 l <? u8 l'); reflexivity. }
      apply Z.eqb_eq in El.
      assert (Hll : length label = length label') by lia.
      destruct (compare_label_lex label label' rest rest' k1 k2 Hll)
        as [(Hm & Hc) | (r & Hc & Hr)].
      * destruct (pkt_name_cons _ _ _ Hn) as (a1 & b1 & E1).
        destruct (pkt_name_cons _ _ _ Hn') as (a2 & b2 & E2).
        rewrite Hm, lex_compare_app.
        eapply returns_step;
          [|apply (IH _ _ Hn' k1 k2 K1 K2 a1 b1 a2 b2 E1 E2)].
        intros f. rewrite Hhead.
        replace (Z.to_nat (u8 l)) with (length label) by lia.
        now rewrite Hc, E1, E2.
      * apply returns_now. intros f. rewrite Hhead.
        replace (Z.to_nat (u8 l)) with (length label) by lia.
        now rewrite Hc, Hr.
Qed.

(** X11. [dname_pkt_compare] on two names of a packet, compressed or not,
    returns what [query_dname_compare] returns on the copies that
    [dname_pkt_copy] makes of them. *)
Theorem dname_pkt_compare_decompressed pkt d1 d2 f1 f2 n1 n2 :
  dname_pkt_copy f1 pkt d1 = Some n1 ->
  dname_pkt_copy f2 pkt d2 = Some n2 ->
  exists r,
    query_dname_compare n1 n2 = Some r /\
    returns (fun f => dname_pkt_compare f pkt d1 d2) r.
Proof.
  intros H1 H2.
  apply dname_pkt_copy_sound in H1, H2.
  destruct (wf_canonical _ (pkt_name_wf _ _ _ H1)) as (c1 & C1).
  destruct (wf_canonical _ (pkt_name_wf _ _ _ H2)) as (c2 & C2).
  exists (lex_compare c1 c2).
  split; [apply (query_dname_compare_lex _ _ _ _ C1 C2)|].
  destruct (pkt_name_cons _ _ _ H1) as (l1 & t1 & E1).
  destruct (pkt_name_cons _ _ _ H2) as (l2 & t2 & E2).
  pose proof (dname_pkt_compare_loop_lex _ _ _ H1 _ _ H2 _ _ C1 C2
                l1 t1 l2 t2 E1 E2) as H.
  subst d1 d2. exact H.
Qed.

(** *** dname_query_hash and dname_pkt_hash *)

Section Hash.

(** [hashlittle] of util/storage/lookup3.c, which is not among the sources:
    the hash of the first [length] bytes of [key], from the value
    [initval]. *)
Variable hashlittle : list Byte.byte -> Z -> Z -> Z.

(** The [while(lablen)] loop of [dname_query_hash], entered at a length
    byte; [labuf] is the length byte and the lowered label.  [labuf] has
    [LDNS_MAX_LABELLEN+1] bytes: a longer label fails the [log_assert], or
    is written behind the end of [labuf] in a build without it, and there
    is no result either way. *)
Fixpoint dname_query_hash_loop (fuel : nat) (dname : list Byte.byte) (h : Z)
    : option Z :=
  match fuel, dname with
  | S fuel', l :: rest =>
      if u8 l =? 0 then Some h
      else if LDNS_MAX_LABELLEN <? u8 l then None
      else
        match take_label (Z.to_nat (u8 l)) rest with
        | Some (label, after) =>
            let labuf := l :: map lower_byte label in
            dname_query_hash_loop fuel' after (hashlittle labuf (u8 l + 1) h)
        | None => None
        end
  | _, _ => None
  end.

(** Every iteration moves [dname] forward, so the loop has returned or
    faulted after [length dname] iterations. *)
Definition dname_query_hash (dname : list Byte.byte) (h : Z) : option Z :=
  dname_query_hash_loop (length dname) dname h.

(** The [while(lablen)] loop of [dname_pkt_hash], entered with the length
    byte read; [labuf] as in [dname_query_hash]. *)
Fixpoint dname_pkt_hash_loop (fuel : nat) (pkt : ldns_buffer) (lablen : Z)
    (dname : list Byte.byte) (h : Z) : option Z :=
  match fuel with
  | O => None
  | S fuel' =>
      if lablen =? 0 then Some h
      else if LABEL_IS_PTR lablen then
        match dname with
        | c :: _ =>
            match ldns_buffer_at_ptr pkt (PTR_OFFSET lablen (u8 c)) with
            | Some (l :: dname') =>
                dname_pkt_hash_loop fuel' pkt (u8 l) dname' h
            | _ => None
            end
        | [] => None
        end
      else if LDNS_MAX_LABELLEN <? lablen then None
      else
        match take_label (Z.to_nat lablen) dname with
        | Some (label, l :: dname') =>
            let labuf := byte_of_Z lablen :: map lower_byte label in
            dname_pkt_hash_loop fuel' pkt (u8 l) dname'
              (hashlittle labuf (lablen + 1) h)
        | _ => None
        end
  end.

Definition dname_pkt_hash (fuel : nat) (pkt : ldns_buffer)
    (dname : list Byte.byte) (h : Z) : option Z :=
  match dname with
  | l :: dname' => dname_pkt_hash_loop fuel pkt (u8 l) dname' h
  | [] => None
  end.

Lemma same_nocase_lower_bytes label1 label2 :
  Forall2 same_nocase label1 label2 ->
  map lower_byte label1 = map lower_byte label2.
Proof.
  induction 1 as [|c1 c2 label1 label2 Hc _ IH]; [reflexivity|].
  cbn [map]. rewrite IH. f_equal. unfold lower_byte, lower. now rewrite Hc.
Qed.

Lemma dname_query_hash_loop_nocase d1 d2 :
  dname_eq_nocase d1 d2 ->
  forall f1 f2 h,
    (length d1 <= f1)%nat -> (length d2 <= f2)%nat ->
    dname_query_hash_loop f1 d1 h = dname_query_hash_loop f2 d2 h.
Proof.
  induction 1 as [l1 l2 rest1 rest2 H1 H2
                 | l1 l2 label1 label2 rest1 rest2 Hl Hll Hlen Hf Hq IH];
    intros f1 f2 h Hf1 Hf2;
    (destruct f1 as [|f1]; [cbn in Hf1; lia|]);
    (destruct f2 as [|f2]; [cbn in Hf2; lia|]);
    cbn [dname_query_hash_loop].
  - now rewrite H1, H2.
  - pose proof (Forall2_length Hf) as Hlen2.
    assert (l2 = l1) by (apply u8_inj; congruence). subst l2.
    replace (u8 l1 =? 0) with false by (symmetry; apply Z.eqb_neq; assumption).
    destruct (LDNS_MAX_LABELLEN <? u8 l1); [reflexivity|].
    replace (Z.to_nat (u8 l1)) with (length label1) at 1 by lia.
    replace (Z.to_nat (u8 l1)) with (length label2) by lia.
    rewrite !take_label_app, (same_nocase_lower_bytes _ _ Hf).
    cbn [length] in Hf1, Hf2. rewrite length_app in Hf1, Hf2.
    apply IH; lia.
Qed.

(** X12. [dname_query_hash] does not see the case of the letters: two
    uncompressed names on which [query_dname_compare] returns 0 get the
    same hash value from the same initial value, and a name gets the hash
    value of its lowered form. *)
Theorem dname_query_hash_nocase d1 d2 h :
  dname_wf d1 -> dname_wf d2 ->
  query_dname_compare d1 d2 = Some 0 ->
  dname_query_hash d1 h = dname_query_hash d2 h /\
  dname_query_hash (query_dname_tolower d1) h = dname_query_hash d1 h.
Proof.
  intros H1 H2 Hc. apply query_dname_compare_zero in Hc; try assumption.
  split.
  - now apply dname_query_hash_loop_nocase.
  - destruct (lowered_facts _ _ (query_dname_tolower_lowered d1 H1))
      as (_ & Heq & _).
    symmetry. now apply dname_query_hash_loop_nocase.
Qed.

Lemma plain_name_label_inv l label name :
  u8 l <> 0 -> Z.of_nat (length label) = u8 l ->
  plain_name (l :: label ++ name) ->
  u8 l <= 63 /\ plain_name name.
Proof.
  intros Hl Hlen H. remember (l :: label ++ name) as d eqn:Ed.
  destruct H as [l' Hl' | l' label' name' Hl' H63 Hlen' Hname'];
    injection Ed as -> Ed; [contradiction|].
  destruct (label_split _ _ _ _ _ Hlen' Hlen Ed) as [-> ->]. auto.
Qed.

(** On a name that is plain once its pointers are followed, the labels fit
    [labuf], and [dname_pkt_hash] hashes what [dname_query_hash] hashes. *)
Lemma dname_pkt_hash_loop_spec pkt dname name :
  pkt_name pkt dname name -> plain_name name ->
  forall l rest h fq,
    dname = l :: rest -> (length name <= fq)%nat ->
    exists v,
      dname_query_hash_loop fq name h = Some v /\
      returns (fun f => dname_pkt_hash_loop f pkt (u8 l) rest h) v.
Proof.
  induction 1 as [l0 rest0 Hl | l0 c rest0 target name Hptr Ht Hn IH
                 | l0 label rest0 name Hl Hptr Hmax Hlen Hn IH];
    intros Hplain l rest h fq [= <- <-] Hfq.
  - destruct fq as [|fq]; [cbn in Hfq; lia|].
    exists h. cbn [dname_query_hash_loop]. rewrite Hl. split; [reflexivity|].
    apply returns_now. intros f. reflexivity.
  - destruct (pkt_name_cons _ _ _ Hn) as (l' & rest' & E).
    destruct (IH Hplain l' rest' h fq E Hfq) as (v & Hq & Hp).
    exists v. split; [exact Hq|].
    eapply returns_step; [|exact Hp].
    intros f. cbn [dname_pkt_hash_loop].
    replace (u8 l0 =? 0) with false
      by (symmetry; apply Z.eqb_neq; now apply LABEL_IS_PTR_nonzero).
    now rewrite Hptr, Ht, E.
  - destruct fq as [|fq]; [cbn in Hfq; lia|].
    destruct (plain_name_label_inv _ _ _ Hl Hlen Hplain) as [H63 Hplain'].
    destruct (pkt_name_cons _ _ _ Hn) as (l' & rest' & E).
    cbn [length] in Hfq. rewrite length_app in Hfq.
    destruct (IH Hplain' l' rest'
                (hashlittle (l0 :: map lower_byte label) (u8 l0 + 1) h) fq E)
      as (v & Hq & Hp); [lia|].
    exists v. split.
    + cbn [dname_query_hash_loop].
      replace (u8 l0 =? 0) with false by (symmetry; apply Z.eqb_neq; assumption).
      replace (LDNS_MAX_LABELLEN <? u8 l0) with false
        by (symmetry; apply Z.ltb_ge; lia).
      replace (Z.to_nat (u8 l0)) with (length label) by lia.
      now rewrite take_label_app.
    + eapply returns_step; [|exact Hp].
      intros f. cbn [dname_pkt_hash_loop].
      replace (u8 l0 =? 0) with false by (symmetry; apply Z.eqb_neq; assumption).
      rewrite Hptr.
      replace (LDNS_MAX_LABELLEN <? u8 l0) with false
        by (symmetry; apply Z.ltb_ge; lia).
      replace (Z.to_nat (u8 l0)) with (length label) by lia.
      now rewrite take_label_app, E, byte_of_Z_u8.
Qed.

(** X13. When [pkt_dname_len] has returned a non-zero length for the name
    at the buffer's position, then in every build [dname_pkt_copy] of that
    name returns, [dname_pkt_hash] of it returns, and the hash value is the
    one that [dname_query_hash] returns for the copy. *)
Theorem dname_pkt_hash_decompressed pkt n pkt' h :
  buffer_ok pkt ->
  pkt_dname_len pkt = Some (n, pkt') -> n <> 0 ->
  exists name v,
    returns (fun f => dname_pkt_copy f pkt (ldns_buffer_current pkt)) name /\
    dname_query_hash name h = Some v /\
    returns (fun f => dname_pkt_hash f pkt (ldns_buffer_current pkt) h) v.
Proof.
  intros Hok Hr Hn.
  destruct (pkt_dname_len_pkt_name pkt n pkt' Hok Hr Hn)
    as (name & Hpn & _ & Hplain & _).
  destruct (pkt_name_cons _ _ _ Hpn) as (l & rest & E).
  destruct (dname_pkt_hash_loop_spec _ _ _ Hpn Hplain l rest h (length name)
              E (le_n _)) as (v & Hq & Hp).
  exists name, v. split; [now apply dname_pkt_copy_spec|].
  split; [exact Hq|]. rewrite E. exact Hp.
Qed.

(** *** Names without compression pointers *)

Lemma plain_name_pkt_name pkt name rest :
  plain_name name -> pkt_name pkt (name ++ rest) name.
Proof.
  induction 1 as [l Hl | l label name Hl H63 Hlen Hname IH].
  - now apply pkt_name_root.
  - cbn [app]. rewrite <- app_assoc. apply pkt_name_label; try assumption.
    + rewrite LABEL_IS_PTR_ge by apply u8_bound. apply Z.leb_gt. lia.
    + apply label_assert_passes. lia.
Qed.

Lemma plain_name_canonical name rest :
  plain_name name -> exists c, canonical name c /\ canonical (name ++ rest) c.
Proof.
  induction 1 as [l Hl | l label name Hl H63 Hlen Hname (c & C1 & C2)].
  - exists [0]. split; now apply canon_root.
  - exists (u8 l :: map lower label ++ c). split; [now apply canon_label|].
    cbn [app]. rewrite <- app_assoc. now apply canon_label.
Qed.

Lemma plain_name_eq_nocase name rest :
  plain_name name -> dname_eq_nocase name (name ++ rest).
Proof.
  induction 1 as [l Hl | l label name Hl H63 Hlen Hname IH].
  - now apply eq_root.
  - cbn [app]. rewrite <- app_assoc. apply eq_label; auto.
    clear. induction label; constructor; [reflexivity | assumption].
Qed.

(** X26. On names without compression pointers the functions for names in
    packets do what the functions for uncompressed names do, whatever the
    packet holds and whatever memory lies behind the names:
    [dname_pkt_copy] writes the name itself, [dname_pkt_compare] returns
    what [query_dname_compare] returns, and [dname_pkt_hash] what
    [dname_query_hash] returns. *)
Theorem pkt_functions_on_plain_names pkt n1 n2 rest1 rest2 h :
  plain_name n1 -> plain_name n2 ->
  returns (fun f => dname_pkt_copy f pkt (n1 ++ rest1)) n1 /\
  (exists r,
     query_dname_compare (n1 ++ rest1) (n2 ++ rest2) = Some r /\
     returns (fun f => dname_pkt_compare f pkt (n1 ++ rest1) (n2 ++ rest2)) r) /\
  (exists v,
     dname_query_hash (n1 ++ rest1) h = Some v /\
     returns (fun f => dname_pkt_hash f pkt (n1 ++ rest1) h) v).
Proof.
  intros P1 P2.
  pose proof (plain_name_pkt_name pkt n1 rest1 P1) as N1.
  pose proof (plain_name_pkt_name pkt n2 rest2 P2) as N2.
  destruct (plain_name_canonical n1 rest1 P1) as (c1 & C1 & C1').
  destruct (plain_name_canonical n2 rest2 P2) as (c2 & C2 & C2').
  destruct (pkt_name_cons _ _ _ N1) as (l1 & t1 & E1).
  destruct (pkt_name_cons _ _ _ N2) as (l2 & t2 & E2).
  split; [now apply dname_pkt_copy_spec|]. split.
  - exists (lex_compare c1 c2).
    split; [apply (query_dname_compare_lex _ _ _ _ C1' C2')|].
    pose proof (dname_pkt_compare_loop_lex _ _ _ N1 _ _ N2 _ _ C1 C2
                  l1 t1 l2 t2 E1 E2) as H.
    rewrite E1, E2. exact H.
  - destruct (dname_pkt_hash_loop_spec _ _ _ N1 P1 l1 t1 h (length n1) E1
                (le_n _)) as (v & Hq & Hp).
    exists v. split; [|rewrite E1; exact Hp].
    rewrite <- Hq. symmetry.
    apply dname_query_hash_loop_nocase;
      [now apply plain_name_eq_nocase | lia | lia].
Qed.

End Hash.

(** *** dname_print *)

(** The text ["??compressionptr??"]. *)
Definition compressionptr_text : list Byte.byte :=
  map byte_of_Z
    [63; 63; 99; 111; 109; 112; 114; 101; 115; 115; 105; 111; 110; 112; 116;
     114; 63; 63].

(** The text ["??extendedlabel??"]. *)
Definition extendedlabel_text : list Byte.byte :=
  map byte_of_Z
    [63; 63; 101; 120; 116; 101; 110; 100; 101; 100; 108; 97; 98; 101; 108;
     63; 63].

(** The character ['.']. *)
Definition dot : Byte.byte := byte_of_Z 46.

(** The [while(lablen)] loop of [dname_print], entered with the first length
    byte read; [pkt] is [None] for a NULL packet and [out] is the text
    written so far. *)
Fixpoint dname_print_loop (fuel : nat) (pkt : option ldns_buffer) (lablen : Z)
    (dname : list Byte.byte) (out : list Byte.byte) : option (list Byte.byte) :=
  match fuel with
  | O => None
  | S fuel' =>
      if lablen =? 0 then Some out
      else if LABEL_IS_PTR lablen then
        match pkt with
        | None => Some (out ++ compressionptr_text)
        | Some p =>
            match dname with
            | c :: _ =>
                match ldns_buffer_at_ptr p (PTR_OFFSET lablen (u8 c)) with
                | Some (l :: dname') =>
                    dname_print_loop fuel' pkt (u8 l) dname' out
                | _ => None
                end
            | [] => None
            end
        end
      else if LDNS_MAX_LABELLEN <? lablen then Some (out ++ extendedlabel_text)
      else
        match take_label (Z.to_nat lablen) dname with
        | Some (label, l :: dname') =>
            dname_print_loop fuel' pkt (u8 l) dname' (out ++ label ++ [dot])
        | _ => None
        end
  end.

(** [dname_print] of a name that is not NULL: the text written to [out]. *)
Definition dname_print (fuel : nat) (pkt : option ldns_buffer)
    (dname : list Byte.byte) : option (list Byte.byte) :=
  match dname with
  | l :: dname' =>
      dname_print_loop fuel pkt (u8 l) dname'
        (if u8 l =? 0 then [dot] else [])
  | [] => None
  end.

Lemma dname_print_loop_spec pkt dname name :
  pkt_name pkt dname name -> plain_name name ->
  forall l rest ln nrest out fq,
    dname = l :: rest -> name = ln :: nrest -> (length name <= fq)%nat ->
    exists text,
      dname_print_loop fq None (u8 ln) nrest out = Some (out ++ text) /\
      returns (fun f => dname_print_loop f (Some pkt) (u8 l) rest out)
        (out ++ text) /\
      S (length text) = length name.
Proof.
  induction 1 as [l0 rest0 Hl | l0 c rest0 target name Hptr Ht Hn IH
                 | l0 label rest0 name Hl Hptr Hmax Hlen Hn IH];
    intros Hplain l rest ln nrest out fq [= <- <-] En Hfq.
  - injection En as <- <-. destruct fq as [|fq]; [cbn in Hfq; lia|].
    exists []. rewrite app_nil_r. cbn [dname_print_loop]. rewrite Hl.
    repeat split. apply returns_now. intros f. reflexivity.
  - destruct (pkt_name_cons _ _ _ Hn) as (l' & rest' & E).
    destruct (IH Hplain l' rest' ln nrest out fq E En Hfq)
      as (text & Hq & Hp & Hlen).
    exists text. repeat split; try assumption.
    eapply returns_step; [|exact Hp].
    intros f. cbn [dname_print_loop].
    replace (u8 l0 =? 0) with false
      by (symmetry; apply Z.eqb_neq; now apply LABEL_IS_PTR_nonzero).
    now rewrite Hptr, Ht, E.
  - injection En as <- <-. destruct fq as [|fq]; [cbn in Hfq; lia|].
    destruct (plain_name_label_inv _ _ _ Hl Hlen Hplain) as [H63 Hplain'].
    destruct (pkt_name_cons _ _ _ Hn) as (l' & rest' & E).
    destruct (dname_wf_cons _ (pkt_name_wf _ _ _ Hn)) as (ln' & nrest' & En').
    cbn [length] in Hfq. rewrite length_app in Hfq.
    destruct (IH Hplain' l' rest' ln' nrest' (out ++ label ++ [dot]) fq E En')
      as (text & Hq & Hp & Hlen'); [lia|].
    exists (label ++ [dot] ++ text).
    replace (out ++ label ++ [dot] ++ text)
      with ((out ++ label ++ [dot]) ++ text)
      by (rewrite <- !app_assoc; reflexivity).
    repeat split.
    + cbn [dname_print_loop].
      replace (u8 l0 =? 0) with false by (symmetry; apply Z.eqb_neq; assumption).
      rewrite Hptr.
      replace (LDNS_MAX_LABELLEN <? u8 l0) with false
        by (symmetry; apply Z.ltb_ge; lia).
      replace (Z.to_nat (u8 l0)) with (length label) by lia.
      now rewrite take_label_app, En'.
    + eapply returns_step; [|exact Hp].
      intros f. cbn [dname_print_loop].
      replace (u8 l0 =? 0) with false by (symmetry; apply Z.eqb_neq; assumption).
      rewrite Hptr.
      replace (LDNS_MAX_LABELLEN <? u8 l0) with false
        by (symmetry; apply Z.ltb_ge; lia).
      replace (Z.to_nat (u8 l0)) with (length label) by lia.
      now rewrite take_label_app, E.
    + cbn [length]. rewrite !length_app. cbn [length]. lia.
Qed.

Lemma pkt_name_head_nonzero pkt l rest name :
  pkt_name pkt (l :: rest) name -> (1 < length name)%nat -> u8 l <> 0.
Proof.
  intros H Hlen. remember (l :: rest) as d eqn:Ed.
  destruct H as [l0 rest0 Hl | l0 c rest0 target name Hptr Ht Hn
                | l0 label rest0 name Hl Hptr Hmax Hlen' Hn];
    injection Ed as -> _.
  - cbn in Hlen. lia.
  - now apply LABEL_IS_PTR_nonzero.
  - exact Hl.
Qed.

Lemma pkt_name_name_head pkt dname ln nrest :
  pkt_name pkt dname (ln :: nrest) -> (1 < length (ln :: nrest))%nat ->
  u8 ln <> 0.
Proof.
  remember (ln :: nrest) as name eqn:En.
  induction 1 as [l0 rest0 Hl | l0 c rest0 target name Hptr Ht Hn IH
                 | l0 label rest0 name Hl Hptr Hmax Hlen' Hn IH]; intros Hlen.
  - cbn in Hlen. lia.
  - now apply IH.
  - now injection En as <- _.
Qed.

(** X14. When [pkt_dname_len] has returned a length [n] above 1 for the
    name at the buffer's position, then in every build [dname_print] of
    that name with the packet returns and writes the text that
    [dname_print] without a packet writes for the copy made by
    [dname_pkt_copy]: the bytes of each label and a dot behind each, [n-1]
    characters. *)
Theorem dname_print_decompressed pkt n pkt' :
  buffer_ok pkt ->
  pkt_dname_len pkt = Some (n, pkt') -> 1 < n ->
  exists name text,
    returns (fun f => dname_pkt_copy f pkt (ldns_buffer_current pkt)) name /\
    returns (fun f => dname_print f (Some pkt) (ldns_buffer_current pkt))
      text /\
    dname_print (length name) None name = Some text /\
    Z.of_nat (S (length text)) = n.
Proof.
  intros Hok Hr Hn.
  destruct (pkt_dname_len_pkt_name pkt n pkt' Hok Hr ltac:(lia))
    as (name & Hpn & Hlen & Hplain & _).
  destruct (pkt_name_cons _ _ _ Hpn) as (l & rest & E).
  destruct (dname_wf_cons _ (pkt_name_wf _ _ _ Hpn)) as (ln & nrest & En).
  destruct (dname_print_loop_spec _ _ _ Hpn Hplain l rest ln nrest []
              (length name) E En (le_n _)) as (text & Hq & Hp & Ht).
  cbn [app] in Hq, Hp. exists name, text.
  split; [now apply dname_pkt_copy_spec|].
  assert (Hlong : (1 < length name)%nat) by lia.
  rewrite E in Hpn |- *.
  pose proof (pkt_name_head_nonzero _ _ _ _ Hpn Hlong) as Hl.
  subst name.
  pose proof (pkt_name_name_head _ _ _ _ Hpn Hlong) as Hln.
  unfold dname_print.
  replace (u8 l =? 0) with false by (symmetry; apply Z.eqb_neq; assumption).
  replace (u8 ln =? 0) with false by (symmetry; apply Z.eqb_neq; assumption).
  repeat split; try assumption. lia.
Qed.

(** *** Copying, then measuring *)

Lemma skipn_cons_inv {A} (d : list A) x r dflt : forall n,
  skipn n d = x :: r ->
  (n < length d)%nat /\ nth n d dflt = x /\ skipn (S n) d = r.
Proof.
  induction d as [|y d IH]; intros [|n] H; cbn [skipn] in H; try discriminate.
  - injection H as -> ->. cbn. repeat split. lia.
  - destruct (IH n H) as (H1 & H2 & H3). cbn [length nth]. repeat split;
      [lia | exact H2 | exact H3].
Qed.

(** A name that [query_dname_len] accepts has labels of at most 63 octets:
    when it is what the pointer-following loops have walked, it is plain. *)
Lemma query_name_plain pkt dname name :
  pkt_name pkt dname name ->
  forall pre lim n,
    query_name (pre ++ name) lim (Z.of_nat (length pre)) n ->
    plain_name name.
Proof.
  induction 1 as [l rest Hl | l c rest target name Hptr Ht Hn IH
                 | l label rest name Hl Hptr Hmax Hlen Hn IH];
    intros pre lim n Hq.
  - now apply plain_root.
  - exact (IH pre lim n Hq).
  - assert (Ho : octet (pre ++ l :: label ++ name) (Z.of_nat (length pre))
                 = u8 l)
      by (unfold octet; now rewrite Nat2Z.id, nth_middle_app).
    remember (Z.of_nat (length pre)) as pos eqn:Epos.
    remember (pre ++ l :: label ++ name) as d eqn:Ed.
    destruct Hq as [pos H | pos b m H Hq'].
    + apply wire_item_at_end in H as (_ & _ & H0). congruence.
    + apply wire_item_at_label in H as (_ & _ & -> & H63 & _ & _).
      rewrite Ho in *.
      apply plain_label; try assumption.
      apply (IH (pre ++ l :: label) lim m).
      replace ((pre ++ l :: label) ++ name) with d
        by (subst d; rewrite <- app_assoc; reflexivity).
      replace (Z.of_nat (length (pre ++ l :: label))) with (pos + 1 + u8 l)
        by (rewrite length_app; cbn [length]; lia).
      exact Hq'.
Qed.

(** A plain name that the pointer-following loops can walk in a packet
    whose limit is the end of its data is a complete name of that
    packet. *)
Lemma pkt_name_wire_name pkt dname name :
  pkt_name pkt dname name -> plain_name name ->
  forall pos,
    0 <= pos -> dname = skipn (Z.to_nat pos) (data pkt) ->
    wire_name (data pkt) (Z.of_nat (length (data pkt))) pos
      (Z.of_nat (length name)).
Proof.
  set (d := data pkt).
  induction 1 as [l rest Hl | l c rest target name Hptr Ht Hn IH
                 | l label rest name Hl Hptr Hmax Hlen Hn IH];
    intros Hplain pos Hpos E; symmetry in E.
  - destruct (skipn_cons_inv d l rest Byte.x00 _ E) as (H1 & H2 & _).
    apply name_end. rewrite wire_item_at_tests. unfold octet. rewrite H2, Hl.
    replace (Z.of_nat (length d) <=? pos) with false
      by (symmetry; apply Z.leb_gt; lia).
    reflexivity.
  - destruct (skipn_cons_inv d l (c :: rest) Byte.x00 _ E) as (H1 & H2 & E').
    destruct (skipn_cons_inv d c rest Byte.x00 _ E') as (H3 & H4 & _).
    pose proof (PTR_OFFSET_range (u8 l) (u8 c) (u8_bound c)) as Hrange.
    destruct (pkt_name_cons _ _ _ Hn) as (l' & rest' & Et).
    apply ldns_buffer_at_ptr_some in Ht. fold d in Ht.
    rewrite Et in Ht.
    destruct (skipn_cons_inv d l' rest' Byte.x00 _ (eq_sym Ht)) as (H5 & _).
    apply name_pointer with (PTR_OFFSET (u8 l) (u8 c)).
    + rewrite wire_item_at_tests. unfold octet. rewrite H2, Hptr.
      replace (Z.to_nat (pos + 1)) with (S (Z.to_nat pos)) by lia.
      rewrite H4.
      replace (Z.of_nat (length d) <=? pos) with false
        by (symmetry; apply Z.leb_gt; lia).
      replace (Z.of_nat (length d) <=? pos + 1) with false
        by (symmetry; apply Z.leb_gt; lia).
      replace (Z.of_nat (length d) <=? PTR_OFFSET (u8 l) (u8 c)) with false
        by (symmetry; apply Z.leb_gt; lia).
      reflexivity.
    + apply IH; [assumption | lia | now rewrite Et].
  - destruct (plain_name_label_inv _ _ _ Hl Hlen Hplain) as [H63 Hplain'].
    destruct (skipn_cons_inv d l (label ++ rest) Byte.x00 _ E) as (H1 & H2 & E').
    pose proof (u8_nonneg l) as Hnn.
    assert (Hrest : skipn (Z.to_nat (pos + 1 + u8 l)) d = rest).
    { replace (Z.to_nat (pos + 1 + u8 l))
        with (length label + S (Z.to_nat pos))%nat by lia.
      now rewrite <- skipn_skipn, E', skipn_label. }
    assert (Hfit : pos + 1 + u8 l <= Z.of_nat (length d)).
    { pose proof (f_equal (@length _) E') as El.
      rewrite length_skipn, length_app in El. lia. }
    replace (Z.of_nat (length (l :: label ++ name)))
      with (1 + u8 l + Z.of_nat (length name))
      by (cbn [length]; rewrite length_app; lia).
    apply name_label.
    + rewrite wire_item_at_tests. unfold octet. rewrite H2, Hptr.
      replace (Z.of_nat (length d) <=? pos) with false
        by (symmetry; apply Z.leb_gt; lia).
      replace (63 <? u8 l) with false by (symmetry; apply Z.ltb_ge; lia).
      replace (u8 l =? 0) with false by (symmetry; apply Z.eqb_neq; lia).
      replace (Z.of_nat (length d) <? pos + 1 + u8 l) with false
        by (symmetry; apply Z.ltb_ge; lia).
      reflexivity.
    + apply IH; [assumption | lia | now symmetry].
Qed.

(** X24. In a packet whose limit is the end of its data, in every build:
    whenever [dname_pkt_copy] returns for the name at the buffer's position
    and [query_dname_len] returns for the bytes written their number, the
    copy being a whole name of at most [LDNS_MAX_DOMAINLEN] octets with
    labels of at most 63, [pkt_dname_len] returns that number for the name
    in the packet. *)
Theorem dname_pkt_copy_returns_measured pkt f name q :
  buffer_ok pkt -> limit pkt = Z.of_nat (length (data pkt)) ->
  dname_pkt_copy f pkt (ldns_buffer_current pkt) = Some name ->
  query_dname_len (mk_buffer name 0 (Z.of_nat (length name)))
    = Some (Z.of_nat (length name), q) ->
  exists pkt', pkt_dname_len pkt = Some (Z.of_nat (length name), pkt').
Proof.
  intros [Hpos _] Hlim Hc Hq.
  apply dname_pkt_copy_sound in Hc.
  destruct (dname_wf_cons _ (pkt_name_wf _ _ _ Hc)) as (ln & nrest & En).
  destruct (query_dname_len_spec (mk_buffer name 0 (Z.of_nat (length name))))
    as (m & q' & Hrq & _ & _ & Hsome & _).
  cbn [data limit position] in Hsome.
  rewrite Hq in Hrq. injection Hrq as <- <-.
  destruct Hsome as (Hqn & Hmax & _); [subst name; cbn [length]; lia|].
  pose proof (query_name_plain _ _ _ Hc [] _ _ Hqn) as Hplain.
  apply pkt_dname_len_complete; [|exact Hmax].
  rewrite Hlim.
  apply (pkt_name_wire_name _ _ _ Hc Hplain); [lia | reflexivity].
Qed.

End Compressed.

Lemma dname_pkt_copy_after_pkt_dname_len_witness :
  exists name,
    returns (fun f => dname_pkt_copy 63 false true f
                        (message [1; 97; 0; 192; 0] 3)
                        (ldns_buffer_current (message [1; 97; 0; 192; 0] 3)))
      name /\
    Z.of_nat (length name) = 3 /\
    dname_wf name /\
    exists q, query_dname_len (mk_buffer name 0 3) = Some (3, q).
Proof.
  apply (dname_pkt_copy_after_pkt_dname_len 63 (Z.le_refl 63) false true
           (message [1; 97; 0; 192; 0] 3) 3 (message [1; 97; 0; 192; 0] 5)).
  - apply message_buffer_ok. cbn. lia.
  - vm_compute. reflexivity.
  - discriminate.
Defined.

(** The names "A." at offset 0 and "a." at offset 5, and a pointer to the
    first at offset 3. *)
Definition message_Aa : ldns_buffer := message [1; 65; 0; 192; 0; 1; 97; 0] 0.

(** The same message, read from the pointer on. *)
Definition message_Aa_ptr : ldns_buffer :=
  message [1; 65; 0; 192; 0; 1; 97; 0] 3.

Lemma dname_pkt_copy_returns_measured_witness :
  exists pkt',
    pkt_dname_len message_Aa_ptr = Some (Z.of_nat (length name_A), pkt').
Proof.
  apply (dname_pkt_copy_returns_measured 63 false true message_Aa_ptr 5
           name_A (mk_buffer name_A 3 3)).
  - apply message_buffer_ok. cbn. lia.
  - reflexivity.
  - vm_compute. reflexivity.
  - vm_compute. reflexivity.
Defined.

Lemma dname_pkt_compare_decompressed_witness :
  exists r,
    query_dname_compare name_A name_a = Some r /\
    returns (fun f => dname_pkt_compare 63 false true f message_Aa
                        (skipn 3 (data message_Aa))
                        (skipn 5 (data message_Aa))) r.
Proof.
  apply (dname_pkt_compare_decompressed 63 (Z.le_refl 63) false true message_Aa
           (skipn 3 (data message_Aa)) (skipn 5 (data message_Aa))
           5 5 name_A name_a);
    vm_compute; reflexivity.
Defined.

(** A stand-in for [hashlittle], to run the hash functions on an example. *)
Definition sum_hash (key : list Byte.byte) (len : Z) (initval : Z) : Z :=
  (initval * 33 + len + fold_right (fun b acc => u8 b + 2 * acc) 0 key)
    mod 2 ^ 32.

Lemma dname_query_hash_nocase_witness :
  dname_query_hash 63 sum_hash name_A 7 = dname_query_hash 63 sum_hash name_a 7 /\
  dname_query_hash 63 sum_hash (query_dname_tolower name_A) 7
    = dname_query_hash 63 sum_hash name_A 7.
Proof.
  apply (dname_query_hash_nocase 63 sum_hash name_A name_a 7
           (name_wf 65) (name_wf 97)).
  reflexivity.
Defined.

Lemma dname_pkt_hash_decompressed_witness :
  exists name v,
    returns (fun f => dname_pkt_copy 63 false true f message_Aa_ptr
                        (ldns_buffer_current message_Aa_ptr)) name /\
    dname_query_hash 63 sum_hash name 7 = Some v /\
    returns (fun f => dname_pkt_hash 63 true sum_hash f message_Aa_ptr
                        (ldns_buffer_current message_Aa_ptr) 7) v.
Proof.
  apply (dname_pkt_hash_decompressed 63 (Z.le_refl 63) false true sum_hash
           message_Aa_ptr 3 (message [1; 65; 0; 192; 0; 1; 97; 0] 5) 7).
  - apply message_buffer_ok. cbn. lia.
  - vm_compute. reflexivity.
  - discriminate.
Defined.

Lemma name_plain c : 0 <= c < 256 -> plain_name (map byte_of_Z [1; c; 0]).
Proof.
  intros Hc.
  apply (plain_label (byte_of_Z 1) [byte_of_Z c] [byte_of_Z 0]).
  - vm_compute; discriminate.
  - vm_compute; discriminate.
  - reflexivity.
  - apply plain_root. reflexivity.
Qed.

Lemma pkt_functions_on_plain_names_witness :
  returns (fun f => dname_pkt_copy 63 false true f message_loop
                      (name_A ++ name_b)) name_A /\
  (exists r,
     query_dname_compare (name_A ++ name_b) (name_b ++ []) = Some r /\
     returns (fun f => dname_pkt_compare 63 false true f message_loop
                         (name_A ++ name_b) (name_b ++ [])) r) /\
  (exists v,
     dname_query_hash 63 sum_hash (name_A ++ name_b) 7 = Some v /\
     returns (fun f => dname_pkt_hash 63 true sum_hash f message_loop
                         (name_A ++ name_b) 7) v).
Proof.
  apply (pkt_functions_on_plain_names 63 (Z.le_refl 63) false true sum_hash
           message_loop name_A name_b name_b [] 7); apply name_plain; lia.
Defined.

Lemma dname_print_decompressed_witness :
  exists name text,
    returns (fun f => dname_pkt_copy 63 false true f message_Aa_ptr
                        (ldns_buffer_current message_Aa_ptr)) name /\
    returns (fun f => dname_print 63 true f (Some message_Aa_ptr)
                        (ldns_buffer_current message_Aa_ptr)) text /\
    dname_print 63 true (length name) None name = Some text /\
    Z.of_nat (S (length text)) = 3.
Proof.
  apply (dname_print_decompressed 63 (Z.le_refl 63) false true message_Aa_ptr
           3 (message [1; 65; 0; 192; 0; 1; 97; 0] 5)).
  - apply message_buffer_ok. cbn. lia.
  - vm_compute. reflexivity.
  - lia.
Defined.

Example dname_print_A :
  dname_print 63 true 3 None name_A = Some (map byte_of_Z [65; 46]).
Proof. vm_compute. reflexivity. Qed.

(** A pointer to the root label prints nothing, the root label itself a
    dot. *)
Example dname_print_root :
  dname_print 63 true 3 (Some (message [0; 192; 0] 0)) (map byte_of_Z [192; 0])
    = Some [] /\
  dname_print 63 true 3 None (map byte_of_Z [0]) = Some [dot].
Proof. split; vm_compute; reflexivity. Qed.

(** A name with a label of 64 octets, which [pkt_dname_len] refuses. *)
Definition long_label : list Z := 64 :: repeat 97 64 ++ [0].

Example pkt_dname_len_long_label :
  option_map fst (pkt_dname_len (message long_label 0)) = Some 0.
Proof. vm_compute. reflexivity. Qed.

(** In a build without [log_assert], [dname_pkt_copy] copies the label of 64
    octets and returns; in a build with it the assertion fails.
    [dname_print] writes its own text for such a label, and the hash
    functions have no result. *)
Example dname_pkt_copy_long_label :
  option_map (@length _)
    (dname_pkt_copy 63 false true 3 (message long_label 0)
       (map byte_of_Z long_label)) = Some 66%nat /\
  dname_pkt_copy 63 true true 3 (message long_label 0)
    (map byte_of_Z long_label) = None /\
  dname_print 63 true 3 (Some (message long_label 0))
    (map byte_of_Z long_label) = Some extendedlabel_text /\
  dname_pkt_hash 63 true sum_hash 3 (message long_label 0)
    (map byte_of_Z long_label) 7 = None /\
  dname_query_hash 63 sum_hash (map byte_of_Z long_label) 7 = None.
Proof. repeat split; vm_compute; reflexivity. Qed.

(** A compression pointer to offset 5 in a buffer whose limit is 2: the
    [assert] in [ldns_buffer_at] fails where it is compiled in. *)
Example ldns_buffer_at_behind_limit :
  let pkt := mk_buffer (map byte_of_Z [192; 5; 7; 7; 7; 0]) 0 2 in
  dname_pkt_copy 63 false true 3 pkt (data pkt) = None /\
  dname_pkt_copy 63 false false 3 pkt (data pkt) = Some [byte_of_Z 0].
Proof. split; vm_compute; reflexivity. Qed.

End DnameMore.

(** ** iterator/iter_utils.c: the other functions *)

Module IterMore.
Import Iter.

Section Targets.
Context {K : iter_constants}.

(** *** iter_ns_probability *)

(** [iter_ns_probability]: the result and the random state; [None] is the
    division by zero of [ub_random(rnd) % m] with [m] zero. *)
Definition iter_ns_probability (rnd : ub_randstate) (n m : Z)
    : option (Z * ub_randstate) :=
  if n =? m then Some (1, rnd)
  else if m =? 0 then None
  else
    let '(r, rnd') := ub_random rnd in
    let sel := Z.rem r m in
    Some (if sel <? n then 1 else 0, rnd').

(** X15. [iter_ns_probability] with [0 <= n <= m] and [m] positive returns
    1 exactly when the draw modulo [m] is below [n], so for [n] of the [m]
    residues; with [n = m] it returns 1 without drawing, with [n = 0] it
    returns 0, and otherwise it takes one draw from the random state. *)
Theorem iter_ns_probability_residues rnd n m :
  0 < m -> 0 <= n <= m ->
  exists b rnd',
    iter_ns_probability rnd n m = Some (b, rnd') /\
    (b = 0 \/ b = 1) /\
    (b = 1 <-> fst (ub_random rnd) mod m < n) /\
    (n = 0 -> b = 0) /\
    (n = m -> rnd' = rnd) /\
    (n <> m -> rnd' = snd (ub_random rnd) /\ consumed rnd' = S (consumed rnd)).
Proof.
  intros Hm Hn. unfold iter_ns_probability.
  assert (Hr : 0 <= fst (ub_random rnd)) by apply N2Z.is_nonneg.
  pose proof (Z.mod_pos_bound (fst (ub_random rnd)) m Hm) as Hb.
  destruct (n =? m) eqn:Enm.
  - apply Z.eqb_eq in Enm. exists 1, rnd. repeat split; auto; try lia.
  - apply Z.eqb_neq in Enm.
    replace (m =? 0) with false by (symmetry; apply Z.eqb_neq; lia).
    destruct (ub_random rnd) as [r rnd'] eqn:Er. cbn [fst snd] in *.
    rewrite Z.rem_mod_nonneg by lia.
    assert (Hc : consumed rnd' = S (consumed rnd))
      by (unfold ub_random in Er; now injection Er as _ <-).
    destruct (r mod m <? n) eqn:El.
    + apply Z.ltb_lt in El. exists 1, rnd'. repeat split; auto; try lia.
    + apply Z.ltb_ge in El. exists 0, rnd'.
      repeat split; auto; try lia; try discriminate.
Qed.

Lemma iter_ns_probability_residues_witness :
  exists b rnd',
    iter_ns_probability (mk_rand (fun _ => 7%N) 0) 2 5 = Some (b, rnd') /\
    (b = 0 \/ b = 1) /\
    (b = 1 <-> fst (ub_random (mk_rand (fun _ => 7%N) 0)) mod 5 < 2) /\
    (2 = 0 -> b = 0) /\
    (2 = 5 -> rnd' = mk_rand (fun _ => 7%N) 0) /\
    (2 <> 5 -> rnd' = snd (ub_random (mk_rand (fun _ => 7%N) 0)) /\
               consumed rnd' = S (consumed (mk_rand (fun _ => 7%N) 0))).
Proof.
  apply (iter_ns_probability_residues (mk_rand (fun _ => 7%N) 0) 2 5); lia.
Defined.

(** *** The fastest RTT of iter_fill_rtt *)

(** X16. [iter_fill_rtt] returns 1 exactly when some candidate is left with
    a [sel_rtt] other than -1.  Then [*best_rtt] is the lowest such
    [sel_rtt], and some candidate has it; otherwise [*best_rtt] is left as
    it was. *)
Theorem iter_fill_rtt_fastest ie env name qtype t dp best0 :
  let got_it := fst (fst (iter_fill_rtt ie env name qtype t dp best0)) in
  let dp' := snd (fst (iter_fill_rtt ie env name qtype t dp best0)) in
  let best := snd (iter_fill_rtt ie env name qtype t dp best0) in
  (got_it = true <->
   exists a, In a (result_list dp') /\ sel_rtt a <> -1) /\
  (got_it = false -> best = best0) /\
  (got_it = true ->
   (exists a, In a (result_list dp') /\ sel_rtt a <> -1 /\ sel_rtt a = best) /\
   (forall a, In a (result_list dp') -> sel_rtt a <> -1 -> best <= sel_rtt a)).
Proof.
  unfold iter_fill_rtt. rewrite iter_fill_rtt_loop_spec.
  cbn [fst snd result_list orb].
  set (f := filled ie env name qtype t (result_list dp)).
  assert (Hsuit : forall a, suitable a = true <-> sel_rtt a <> -1).
  { intros a. unfold suitable. rewrite negb_true_iff. apply Z.eqb_neq. }
  rewrite existsb_suitable_low.
  destruct (low_rtt_of f) as [m|] eqn:El.
  - repeat split; try discriminate.
    + intros _. destruct (low_rtt_of_attained _ _ El) as (a & Ha & Hs & _).
      exists a. split; [exact Ha | now apply Hsuit].
    + destruct (low_rtt_of_attained _ _ El) as (a & Ha & Hs & Hm).
      exists a. repeat split; [exact Ha | now apply Hsuit | exact Hm].
    + intros a Ha Hs. apply (low_rtt_of_lower _ _ El a Ha). now apply Hsuit.
  - repeat split; try discriminate.
    intros (a & Ha & Hs). exfalso.
    assert (H : existsb suitable f = true).
    { apply existsb_exists. exists a. split; [exact Ha | now apply Hsuit]. }
    rewrite existsb_suitable_low, El in H. discriminate.
Qed.

(** *** What iter_server_selection reads and writes *)

Lemma filled_agree ie env name qtype t l1 l2 :
  Forall2 (fun a b => node a = node b /\ addr a = addr b /\
                      attempts a = attempts b) l1 l2 ->
  filled ie env name qtype t l1 = filled ie env name qtype t l2.
Proof.
  induction 1 as [|a b l1 l2 (Hn & Ha & Ht) _ IH]; [reflexivity|].
  unfold filled in *. cbn [map]. rewrite IH. f_equal.
  unfold set_sel_rtt, iter_filter_unsuitable. now rewrite Hn, Ha, Ht.
Qed.

Lemma iter_filter_order_filled ie env name qtype t dp :
  iter_filter_order ie env name qtype t dp =
  let f := filled ie env name qtype t (result_list dp) in
  match low_rtt_of f with
  | Some low =>
      let '(l, got_num) := iter_filter_order_loop low [] f 0 in
      (got_num, mk_dp l, Some low)
  | None => (0, mk_dp f, None)
  end.
Proof.
  unfold iter_filter_order, iter_fill_rtt.
  rewrite iter_fill_rtt_loop_spec. cbn [orb result_list].
  rewrite existsb_suitable_low.
  destruct (low_rtt_of _); reflexivity.
Qed.

(** X17. [sel_rtt] is scratch space of the selection: the values that
    earlier calls left in the candidates have no influence on what
    [iter_server_selection] returns and leaves behind. *)
Theorem iter_server_selection_ignores_stale_sel_rtt
    ie env dp1 dp2 name qtype d :
  Forall2 (fun a b => node a = node b /\ addr a = addr b /\
                      attempts a = attempts b)
    (result_list dp1) (result_list dp2) ->
  iter_server_selection ie env dp1 name qtype d
    = iter_server_selection ie env dp2 name qtype d.
Proof.
  intros H. unfold iter_server_selection.
  rewrite !iter_filter_order_filled.
  now rewrite (filled_agree ie env name qtype (now env) _ _ H).
Qed.

Lemma in_filled ie env name qtype t l b :
  In b (filled ie env name qtype t l) ->
  exists a0, In a0 l /\ node a0 = node b /\ addr a0 = addr b /\
             attempts a0 = attempts b.
Proof.
  unfold filled. intros H. apply in_map_iff in H as (a0 & <- & Hin).
  exists a0. repeat split. exact Hin.
Qed.

(** X18. A call of [iter_server_selection] changes the attempt counter of
    the candidate it returns and of no other: every other candidate left
    in the result list has the node, the address and the counter of a
    candidate of the list before the call.  The call takes one draw from
    the random state when the best set has two or more members, and none
    otherwise. *)
Theorem iter_server_selection_leaves_others ie env dp name qtype d s :
  constants_ok -> infra_ok env ->
  Z.of_nat (length (result_list dp)) <= INT_MAX ->
  iter_server_selection ie env dp name qtype d = Some s ->
  let n := length (best_set (filled ie env name qtype (now env) (result_list dp))) in
  (forall b, In b (result_list (sel_dp s)) ->
     sel_ret s = Some b \/
     exists a0, In a0 (result_list dp) /\ node a0 = node b /\
                addr a0 = addr b /\ attempts a0 = attempts b) /\
  sel_rnd s = (if (2 <=? n)%nat then snd (ub_random (rnd env)) else rnd env) /\
  consumed (sel_rnd s)
    = (consumed (rnd env) + if (2 <=? n)%nat then 1 else 0)%nat.
Proof.
  intros Hc Hi Hlen Hs n.
  assert (Hrnd : sel_rnd s
                 = if (2 <=? n)%nat then snd (ub_random (rnd env)) else rnd env).
  { rewrite (iter_server_selection_spec ie env dp name qtype d Hc Hi Hlen) in Hs.
    set (f := filled ie env name qtype (now env) (result_list dp)) in *.
    fold n in Hs.
    destruct (nth_error (rev (best_set f)) _) as [b|] eqn:Eb;
      injection Hs as <-; cbn [sel_rnd].
    - destruct (Z.of_nat n =? 1) eqn:E1.
      + apply Z.eqb_eq in E1.
        replace (2 <=? n)%nat with false
          by (symmetry; apply Nat.leb_gt; lia).
        reflexivity.
      + apply Z.eqb_neq in E1.
        assert (Hn : n <> 0%nat).
        { intros E0. apply length_zero_iff_nil in E0.
          rewrite E0 in Eb. cbn [rev] in Eb.
          now destruct (chosen_index _ _) in Eb. }
        replace (2 <=? n)%nat with true
          by (symmetry; apply Nat.leb_le; lia).
        reflexivity.
    - apply nth_error_None in Eb. rewrite length_rev in Eb. fold n in Eb.
      destruct (Nat.eq_dec n 0) as [E0 | E0].
      + rewrite E0. reflexivity.
      + pose proof (chosen_index_lt n (fst (ub_random (rnd env)))
                      ltac:(lia) (N2Z.is_nonneg _)). lia. }
  split; [|split; [exact Hrnd|]].
  - intros b Hb.
    pose proof (iter_server_selection_shape _ _ _ _ _ _ _ Hs) as Hsh.
    pose proof (iter_filter_order_perm ie env name qtype (now env) dp) as Hp.
    assert (Hold : forall x,
              In x (result_list (snd (fst (iter_filter_order ie env name qtype
                                             (now env) dp)))) ->
              exists a0, In a0 (result_list dp) /\ node a0 = node x /\
                         addr a0 = addr x /\ attempts a0 = attempts x).
    { intros x Hx. apply (in_filled ie env name qtype (now env)).
      eapply Permutation_in; [exact Hp | exact Hx]. }
    destruct Hsh as [Hr Hl | before a next Hl Hr Ha Hl' | before a next Hl Hr Ha Hl'].
    + right. apply Hold. now rewrite <- Hl.
    + rewrite Hl' in Hb. apply in_app_or in Hb as [Hb | [Hb | Hb]].
      * right. apply Hold. rewrite Hl. apply in_or_app. now left.
      * left. now rewrite Hr, Hb.
      * right. apply Hold. rewrite Hl. apply in_or_app. right. now right.
    + rewrite Hl' in Hb. apply in_app_or in Hb as [Hb | Hb].
      * right. apply Hold. rewrite Hl. apply in_or_app. now left.
      * right. apply Hold. rewrite Hl. apply in_or_app. right. now right.
  - rewrite Hrnd. destruct (2 <=? n)%nat; cbn [ub_random snd consumed]; lia.
Qed.

(** *** Servers that are lame for DNSSEC *)

(** X25. Among the servers that [iter_filter_unsuitable] lets pass and that
    the infra cache knows, one that is lame for DNSSEC gets a value of at
    least [USEFUL_SERVER_TOP_TIMEOUT] and one that is not gets a value
    below it: however fast it answers, a server lame for DNSSEC ranks
    behind every known server that is not. *)
Theorem dnssec_lame_ranks_behind ie env name qtype t a b ia ib :
  constants_ok -> infra_ok env ->
  iter_filter_unsuitable ie env name qtype t a <> -1 ->
  iter_filter_unsuitable ie env name qtype t b <> -1 ->
  infra_get_lame_rtt (infra_cache env) (addr a) name qtype t = Some ia ->
  dnsseclame ia = true ->
  infra_get_lame_rtt (infra_cache env) (addr b) name qtype t = Some ib ->
  dnsseclame ib = false ->
  iter_filter_unsuitable ie env name qtype t b < USEFUL_SERVER_TOP_TIMEOUT /\
  USEFUL_SERVER_TOP_TIMEOUT <= iter_filter_unsuitable ie env name qtype t a /\
  iter_filter_unsuitable ie env name qtype t a
    = rtt ia + USEFUL_SERVER_TOP_TIMEOUT.
Proof.
  intros [HU HN] Hi. unfold iter_filter_unsuitable.
  intros Ha Hb Eia Hla Eib Hlb. revert Ha Hb.
  destruct (donotq_lookup (donotq ie) (addr a)); [congruence|].
  destruct (donotq_lookup (donotq ie) (addr b)); [congruence|].
  destruct (negb (supports_ipv6 ie) && addr_is_ip6 (addr a)); [congruence|].
  destruct (negb (supports_ipv6 ie) && addr_is_ip6 (addr b)); [congruence|].
  rewrite Eia, Eib, Hla, Hlb.
  pose proof (Hi _ _ _ _ _ Eia) as Hra. pose proof (Hi _ _ _ _ _ Eib) as Hrb.
  destruct (lame ia); [congruence|]. destruct (lame ib); [congruence|].
  destruct (USEFUL_SERVER_TOP_TIMEOUT <=? rtt ia) eqn:Ea; [congruence|].
  destruct (USEFUL_SERVER_TOP_TIMEOUT <=? rtt ib) eqn:Eb; [congruence|].
  apply Z.leb_gt in Ea, Eb. intros _ _.
  rewrite wrap_int_id by (unfold int_range, INT_MIN, INT_MAX in *; lia).
  lia.
Qed.

End Targets.

(** Candidates 1, 2 and 3 as an earlier call could have left them. *)
Definition dp_stale : delegpt :=
  mk_dp [mk_addr 1 (ip4 1 53) 0 999; mk_addr 2 (ip4 2 53) 0 (-1);
         mk_addr 3 (ip4 3 53) 0 7].

Lemma iter_server_selection_ignores_stale_sel_rtt_witness :
  iter_server_selection (K := scenario_constants) scenario_ie (scenario_env 1)
    dp_abc [] 1 1
  = iter_server_selection (K := scenario_constants) scenario_ie (scenario_env 1)
      dp_stale [] 1 1.
Proof.
  apply (iter_server_selection_ignores_stale_sel_rtt (K := scenario_constants)).
  repeat constructor.
Defined.

Lemma iter_server_selection_leaves_others_witness :
  exists s,
    iter_server_selection (K := scenario_constants) scenario_ie (scenario_env 1)
      dp_abc [] 1 1 = Some s /\
    consumed (sel_rnd s) = 1%nat.
Proof.
  destruct (iter_server_selection (K := scenario_constants) scenario_ie
              (scenario_env 1) dp_abc [] 1 1) as [s|] eqn:Hs;
    [|vm_compute in Hs; discriminate].
  exists s. split; [reflexivity|].
  destruct (iter_server_selection_leaves_others (K := scenario_constants)
              scenario_ie (scenario_env 1) dp_abc [] 1 1 s
              scenario_constants_ok (scenario_infra_ok 1) dp_abc_len Hs)
    as (_ & _ & Hc).
  rewrite Hc. vm_compute. reflexivity.
Defined.

(** *** Dependency cycles and useless delegation points *)

(** [struct delegpt_ns]: the name of a nameserver and whether its addresses
    have been dealt with. *)
Record delegpt_ns := mk_ns {
  ns_name : list Z;
  resolved : Z
}.

Definition set_resolved (ns : delegpt_ns) (v : Z) : delegpt_ns :=
  {| ns_name := ns_name ns; resolved := v |}.

(** [struct delegpt] with the fields that [iter_mark_cycle_targets] and
    [iter_dp_is_useless] read; [dp_results] holds the result list as
    modelled for the selection. *)
Record delegpt_targets := mk_targets {
  dp_name : list Z;
  nslist : list delegpt_ns;
  usable_list : list delegpt_addr;
  dp_results : delegpt
}.

Definition set_nslist (dp : delegpt_targets) (l : list delegpt_ns)
    : delegpt_targets :=
  {| dp_name := dp_name dp; nslist := l; usable_list := usable_list dp;
     dp_results := dp_results dp |}.

(** [struct query_info]; the length of the name goes with the name. *)
Record query_info := mk_query_info {
  qname : list Z;
  qtype : Z;
  qclass : Z
}.

(** [struct module_qstate], the fields read here. *)
Record module_qstate := mk_qstate {
  qinfo : query_info;
  query_flags : Z;
  is_priming : Z
}.

Section Delegation.

(** The flag bits and record types come from headers that are not among
    the sources. *)
Variables BIT_RD BIT_CD LDNS_RR_TYPE_A LDNS_RR_TYPE_AAAA : Z.

(** The callback [env->detect_cycle] of the module environment; it looks at
    the dependencies of the query state, not at the delegation point. *)
Variable detect_cycle : module_qstate -> query_info -> Z -> Z -> Z.

(** [dname_subdomain_c] and [delegpt_find_ns], which are not among the
    sources; a NULL result is [None]. *)
Variable dname_subdomain_c : list Z -> list Z -> Z.
Variable delegpt_find_ns : delegpt_targets -> list Z -> option delegpt_ns.

(** detect dependency cycle for query and target *)
Definition causes_cycle (qstate : module_qstate) (name : list Z) (t c : Z) : Z :=
  let qinf := mk_query_info name t c in
  detect_cycle qstate qinf (Z.lor BIT_RD BIT_CD mod 65536) (is_priming qstate).

(** The [for] loop of [iter_mark_cycle_targets] from [ns] on; the message
    it logs is left out. *)
Fixpoint iter_mark_cycle_targets_loop (qstate : module_qstate)
    (ns : list delegpt_ns) : list delegpt_ns :=
  match ns with
  | [] => []
  | n :: next =>
      (if negb (resolved n =? 0) then n
       else if (if negb (causes_cycle qstate (ns_name n) LDNS_RR_TYPE_AAAA
                           (qclass (qinfo qstate)) =? 0)
                then true
                else negb (causes_cycle qstate (ns_name n) LDNS_RR_TYPE_A
                             (qclass (qinfo qstate)) =? 0))
            then set_resolved n 1
            else n)
      :: iter_mark_cycle_targets_loop qstate next
  end.

Definition iter_mark_cycle_targets (qstate : module_qstate)
    (dp : delegpt_targets) : delegpt_targets :=
  set_nslist dp (iter_mark_cycle_targets_loop qstate (nslist dp)).

(** The [for] loop of [iter_dp_is_useless]. *)
Fixpoint iter_dp_is_useless_loop (name : list Z) (ns : list delegpt_ns) : Z :=
  match ns with
  | [] => 1
  | n :: next =>
      if negb (resolved n =? 0) then iter_dp_is_useless_loop name next
      else if dname_subdomain_c (ns_name n) name =? 0 then 0
      else iter_dp_is_useless_loop name next
  end.

Definition iter_dp_is_useless (qstate : module_qstate) (dp : delegpt_targets)
    : Z :=
  if Z.land (query_flags qstate) BIT_RD =? 0 then 0
  else
    match usable_list dp, result_list (dp_results dp) with
    | [], [] =>
        if ((qtype (qinfo qstate) =? LDNS_RR_TYPE_A) ||
            (qtype (qinfo qstate) =? LDNS_RR_TYPE_AAAA)) &&
           negb (dname_subdomain_c (qname (qinfo qstate)) (dp_name dp) =? 0) &&
           match delegpt_find_ns dp (qname (qinfo qstate)) with
           | Some _ => true
           | None => false
           end
        then 1
        else iter_dp_is_useless_loop (dp_name dp) (nslist dp)
    | _, _ => 0
    end.

(** A target whose lookup would depend on the query itself. *)
Definition cyclic (qstate : module_qstate) (n : delegpt_ns) : Prop :=
  causes_cycle qstate (ns_name n) LDNS_RR_TYPE_A (qclass (qinfo qstate)) <> 0 \/
  causes_cycle qstate (ns_name n) LDNS_RR_TYPE_AAAA (qclass (qinfo qstate)) <> 0.

Lemma iter_mark_cycle_targets_loop_spec qstate ns :
  Forall2 (fun n n' =>
             ns_name n' = ns_name n /\
             (resolved n <> 0 -> n' = n) /\
             (resolved n = 0 -> cyclic qstate n -> resolved n' = 1) /\
             (resolved n = 0 -> ~ cyclic qstate n -> n' = n))
    ns (iter_mark_cycle_targets_loop qstate ns).
Proof.
  induction ns as [|n next IH]; cbn [iter_mark_cycle_targets_loop];
    constructor; [|exact IH].
  unfold cyclic.
  destruct (resolved n =? 0) eqn:Er; cbn [negb].
  - apply Z.eqb_eq in Er.
    destruct (causes_cycle qstate (ns_name n) LDNS_RR_TYPE_AAAA _ =? 0) eqn:E6;
      cbn [negb];
      [destruct (causes_cycle qstate (ns_name n) LDNS_RR_TYPE_A _ =? 0) eqn:E4;
       cbn [negb]|];
      rewrite ?Z.eqb_eq, ?Z.eqb_neq in *; cbn [set_resolved ns_name resolved];
      repeat split; auto; try tauto; try lia.
  - apply Z.eqb_neq in Er. repeat split; auto; tauto.
Qed.

(** X19. [iter_mark_cycle_targets] keeps the nameservers, their names and
    their order, and changes nothing but the [resolved] mark of the
    unresolved targets whose A or AAAA lookup would cause a dependency
    cycle, which it sets to 1.  Afterwards no unresolved target causes a
    cycle, and marking again changes nothing. *)
Theorem iter_mark_cycle_targets_marks qstate dp :
  let dp' := iter_mark_cycle_targets qstate dp in
  dp_name dp' = dp_name dp /\ usable_list dp' = usable_list dp /\
  dp_results dp' = dp_results dp /\
  Forall2 (fun n n' =>
             ns_name n' = ns_name n /\
             (resolved n <> 0 -> n' = n) /\
             (resolved n = 0 -> cyclic qstate n -> resolved n' = 1) /\
             (resolved n = 0 -> ~ cyclic qstate n -> n' = n))
    (nslist dp) (nslist dp') /\
  (forall n', In n' (nslist dp') -> resolved n' = 0 -> ~ cyclic qstate n') /\
  iter_mark_cycle_targets qstate dp' = dp'.
Proof.
  intros dp'. subst dp'. unfold iter_mark_cycle_targets. cbn [dp_name
    usable_list dp_results nslist set_nslist].
  pose proof (iter_mark_cycle_targets_loop_spec qstate (nslist dp)) as Hspec.
  repeat split; try exact Hspec.
  - intros n' Hin Hr.
    clear - Hspec Hin Hr. induction Hspec as [|n m l l' (Hname & H1 & H2 & H3) _ IH];
      [destruct Hin|].
    destruct Hin as [<- | Hin]; [|now apply IH].
    destruct (Z.eq_dec (resolved n) 0) as [E | E].
    + intros Hc. assert (Hc' : cyclic qstate n)
        by (unfold cyclic in *; now rewrite <- Hname).
      specialize (H2 E Hc'). lia.
    + rewrite (H1 E) in Hr. contradiction.
  - unfold set_nslist. cbn [dp_name usable_list dp_results nslist]. f_equal.
    clear Hspec. induction (nslist dp) as [|n next IH];
      cbn [iter_mark_cycle_targets_loop]; [reflexivity|].
    rewrite IH. f_equal.
    destruct (resolved n =? 0) eqn:Er; cbn [negb]; [|now rewrite Er].
    destruct (causes_cycle qstate (ns_name n) LDNS_RR_TYPE_AAAA _ =? 0) eqn:E6;
      cbn [negb];
      [destruct (causes_cycle qstate (ns_name n) LDNS_RR_TYPE_A _ =? 0) eqn:E4;
       cbn [negb]|];
      cbn [set_resolved resolved ns_name Z.eqb negb];
      rewrite ?Er, ?E6, ?E4; reflexivity.
Qed.

Lemma iter_dp_is_useless_loop_resolved name ns :
  Forall (fun n => resolved n <> 0) ns -> iter_dp_is_useless_loop name ns = 1.
Proof.
  induction 1 as [|n next Hn _ IH]; cbn [iter_dp_is_useless_loop];
    [reflexivity|].
  replace (resolved n =? 0) with false by (symmetry; now apply Z.eqb_neq).
  exact IH.
Qed.

(** X20. [iter_dp_is_useless] returns 0 while the RD flag of the query is
    clear or the delegation point has an address in its usable or result
    list.  With RD set and no address left, a delegation point whose
    unresolved nameservers all cause a dependency cycle is useless once
    [iter_mark_cycle_targets] has marked them. *)
Theorem iter_dp_is_useless_after_marking qstate dp :
  (Z.land (query_flags qstate) BIT_RD = 0 \/ usable_list dp <> [] \/
   result_list (dp_results dp) <> [] ->
   iter_dp_is_useless qstate dp = 0 /\
   iter_dp_is_useless qstate (iter_mark_cycle_targets qstate dp) = 0) /\
  (Z.land (query_flags qstate) BIT_RD <> 0 ->
   usable_list dp = [] -> result_list (dp_results dp) = [] ->
   (forall n, In n (nslist dp) -> resolved n = 0 -> cyclic qstate n) ->
   iter_dp_is_useless qstate (iter_mark_cycle_targets qstate dp) = 1).
Proof.
  split.
  - intros H. unfold iter_dp_is_useless, iter_mark_cycle_targets.
    cbn [usable_list dp_results set_nslist].
    destruct (Z.land (query_flags qstate) BIT_RD =? 0) eqn:E; [now split|].
    apply Z.eqb_neq in E.
    destruct (usable_list dp) as [|u us];
      destruct (result_list (dp_results dp)) as [|r rs]; auto.
    destruct H as [H | [H | H]]; contradiction.
  - intros Hrd Hu Hr Hall. unfold iter_dp_is_useless.
    replace (Z.land (query_flags qstate) BIT_RD =? 0) with false
      by (symmetry; now apply Z.eqb_neq).
    unfold iter_mark_cycle_targets at 1 2.
    cbn [usable_list dp_results set_nslist]. rewrite Hu, Hr.
    match goal with |- (if ?c then _ else _) = _ => destruct c end;
      [reflexivity|].
    apply iter_dp_is_useless_loop_resolved.
    unfold iter_mark_cycle_targets. cbn [nslist set_nslist].
    pose proof (iter_mark_cycle_targets_loop_spec qstate (nslist dp)) as Hspec.
    revert Hall. induction Hspec as [|n m l l' (Hname & H1 & H2 & H3) _ IH];
      intros Hall; constructor.
    + destruct (Z.eq_dec (resolved n) 0) as [E | E].
      * rewrite (H2 E (Hall n (or_introl eq_refl) E)). discriminate.
      * now rewrite (H1 E).
    + apply IH. intros x Hx. apply Hall. now right.
Qed.

End Delegation.

Lemma dnssec_lame_ranks_behind_witness :
  iter_filter_unsuitable (K := scenario_constants) scenario_ie (scenario_env 0)
    [] 1 0 (cand 5) < 376 /\
  376 <= iter_filter_unsuitable (K := scenario_constants) scenario_ie
           (scenario_env 0) [] 1 0 (cand 4) /\
  iter_filter_unsuitable (K := scenario_constants) scenario_ie (scenario_env 0)
    [] 1 0 (cand 4) = 0 + 376.
Proof.
  apply (dnssec_lame_ranks_behind (K := scenario_constants) scenario_ie
           (scenario_env 0) [] 1 0 (cand 4) (cand 5)
           (mk_lame_rtt false true 0) (mk_lame_rtt false false 370)
           scenario_constants_ok (scenario_infra_ok 0));
    try reflexivity; vm_compute; discriminate.
Defined.

(** Every lookup of a target depends on the query, and no nameserver lies
    below the delegation point. *)
Definition example_qstate : module_qstate :=
  mk_qstate (mk_query_info [3] 1 1) 256 0.

Definition example_targets : delegpt_targets :=
  mk_targets [] [mk_ns [1] 0; mk_ns [2] 1] [] (mk_dp []).

Example iter_dp_is_useless_before_marking :
  iter_dp_is_useless 256 1 28 (fun _ _ => 0) (fun _ _ => None)
    example_qstate example_targets = 0.
Proof. reflexivity. Qed.

Lemma iter_dp_is_useless_after_marking_witness :
  iter_dp_is_useless 256 1 28 (fun _ _ => 0) (fun _ _ => None) example_qstate
    (iter_mark_cycle_targets 256 16 1 28 (fun _ _ _ _ => 1)
       example_qstate example_targets) = 1.
Proof.
  apply (proj2 (iter_dp_is_useless_after_marking 256 16 1 28
                  (fun _ _ _ _ => 1) (fun _ _ => 0) (fun _ _ => None)
                  example_qstate example_targets));
    try reflexivity; try discriminate.
  intros n _ _. left. discriminate.
Defined.

(** *** iter_msg_has_dnssec *)

(** [struct reply_info], the fields read here: the numbers of rrsets in the
    answer and in the authority section, and for each rrset of the array
    [rrsets] the [rrsig_count] of its data. *)
Record reply_info := mk_reply {
  an_numrrsets : nat;
  ns_numrrsets : nat;
  rrsets : list Z
}.

(** [struct dns_msg]; a NULL [rep] is [None]. *)
Record dns_msg := mk_msg { rep : option reply_info }.

(** The [for] loop of [iter_msg_has_dnssec] at index [i], with [todo]
    indices to go; reading behind the array is a fault. *)
Fixpoint iter_msg_has_dnssec_loop (rrsets : list Z) (i todo : nat)
    : option Z :=
  match todo with
  | O => Some 0
  | S todo' =>
      match nth_error rrsets i with
      | None => None
      | Some rrsig_count =>
          if 0 <? rrsig_count then Some 1
          else iter_msg_has_dnssec_loop rrsets (S i) todo'
      end
  end.

(** [iter_msg_has_dnssec]; a NULL [msg] is [None]. *)
Definition iter_msg_has_dnssec (msg : option dns_msg) : option Z :=
  match msg with
  | None => Some 0
  | Some m =>
      match rep m with
      | None => Some 0
      | Some r =>
          iter_msg_has_dnssec_loop (rrsets r) 0
            (an_numrrsets r + ns_numrrsets r)
      end
  end.

Lemma iter_msg_has_dnssec_loop_spec l : forall todo i,
  (i + todo <= length l)%nat ->
  exists v,
    iter_msg_has_dnssec_loop l i todo = Some v /\ (v = 0 \/ v = 1) /\
    (v = 1 <-> exists j c, (i <= j < i + todo)%nat /\
                           nth_error l j = Some c /\ 0 < c).
Proof.
  induction todo as [|todo IH]; intros i Hi; cbn [iter_msg_has_dnssec_loop].
  - exists 0. repeat split; auto; try discriminate.
    intros (j & c & Hj & _). lia.
  - destruct (nth_error l i) as [c|] eqn:Ec;
      [|apply nth_error_None in Ec; lia].
    destruct (0 <? c) eqn:Epos.
    + apply Z.ltb_lt in Epos. exists 1. repeat split; auto.
      intros _. exists i, c. repeat split; auto; lia.
    + apply Z.ltb_ge in Epos.
      destruct (IH (S i) ltac:(lia)) as (v & Hv & Hr & Hiff).
      exists v. repeat split; auto.
      * intros E. apply Hiff in E as (j & c' & Hj & Hc & Hp).
        exists j, c'. repeat split; auto; lia.
      * intros (j & c' & Hj & Hc & Hp). apply Hiff.
        destruct (Nat.eq_dec j i) as [-> | Hne]; [|exists j, c'; repeat split; auto; lia].
        rewrite Ec in Hc. injection Hc as <-. lia.
Qed.

(** X21. [iter_msg_has_dnssec] returns 0 for a NULL message and for a
    message without reply.  Otherwise it returns 1 exactly when an rrset of
    the answer or of the authority section has a signature; the rrsets
    behind these two sections are not looked at. *)
Theorem iter_msg_has_dnssec_sections r :
  (an_numrrsets r + ns_numrrsets r <= length (rrsets r))%nat ->
  iter_msg_has_dnssec None = Some 0 /\
  iter_msg_has_dnssec (Some (mk_msg None)) = Some 0 /\
  exists v,
    iter_msg_has_dnssec (Some (mk_msg (Some r))) = Some v /\
    (v = 0 \/ v = 1) /\
    (v = 1 <-> exists j c, (j < an_numrrsets r + ns_numrrsets r)%nat /\
                           nth_error (rrsets r) j = Some c /\ 0 < c).
Proof.
  intros Hlen. split; [reflexivity|]. split; [reflexivity|].
  destruct (iter_msg_has_dnssec_loop_spec (rrsets r)
              (an_numrrsets r + ns_numrrsets r) 0 Hlen) as (v & Hv & Hr & Hiff).
  exists v. split; [exact Hv|]. split; [exact Hr|].
  rewrite Hiff. cbn [Nat.add]. split; intros (j & c & Hj & H); exists j, c;
    (split; [lia | exact H]).
Qed.

Lemma iter_msg_has_dnssec_sections_witness :
  iter_msg_has_dnssec (Some (mk_msg (Some (mk_reply 1 1 [0; 0; 2])))) = Some 0.
Proof.
  destruct (iter_msg_has_dnssec_sections (mk_reply 1 1 [0; 0; 2])
              ltac:(cbn; lia)) as (_ & _ & v & Hv & _).
  rewrite Hv. vm_compute in Hv. symmetry. exact Hv.
Defined.

End IterMore.

(** ** util/log.c: the hex dump *)

Module Log.
Import Dname.

(** The priorities that log.c defines when syslog.h is absent. *)
Definition LOG_NOTICE : Z := 5.
Definition LOG_INFO : Z := 6.
Definition LOG_DEBUG : Z := 7.

(** The type that [verbose] passes to [log_vmsg]: ["notice"], ["info"] or
    ["debug"]. *)
Inductive log_type : Type := notice | info | debug.

(** The arguments that [log_hex_f] gives to the formats ["%s[%u]"] and
    ["%s[%u:%u] %.*s"]: the message, the length, the offset of the block
    and the hex characters of the block. *)
Record hex_message := mk_hex_message {
  hex_msg : list Byte.byte;
  hex_length : Z;
  hex_offset : option Z;
  hex_chars : list Byte.byte
}.

(** The characters ["0123456789ABCDEF"]. *)
Definition hexchar : list Byte.byte :=
  map byte_of_Z [48; 49; 50; 51; 52; 53; 54; 55; 56; 57; 65; 66; 67; 68; 69; 70].

(** [(unsigned)x] of a [size_t]. *)
Definition to_unsigned (x : Z) : Z := x mod 2 ^ 32.

(** The two characters written to [buf] for one byte. *)
Definition hex_pair (b : Byte.byte) : list Byte.byte :=
  [nth (Z.to_nat (Z.shiftr (u8 b) 4)) hexchar Byte.x00;
   nth (Z.to_nat (Z.land (u8 b) 15)) hexchar Byte.x00].

(** The loop over [j]: the contents of [buf] for the [len] bytes from
    [data8 + i]; reading behind the data is a fault. *)
Fixpoint hex_block (data8 : list Byte.byte) (i len : nat)
    : option (list Byte.byte) :=
  match len with
  | O => Some []
  | S len' =>
      match nth_error data8 i with
      | None => None
      | Some b => option_map (app (hex_pair b)) (hex_block data8 (S i) len')
      end
  end.

Section Verbosity.

(** [VERB_OPS] and [VERB_DETAIL] of [enum verbosity_value] in util/log.h,
    which is not among the sources. *)
Variables VERB_OPS VERB_DETAIL : Z.

(** [verbose]: the calls of [log_vmsg] it makes, with their priority and
    type, when the global [verbosity] has the given value. *)
Definition verbose (verbosity level : Z) (m : hex_message)
    : list (Z * log_type * hex_message) :=
  if level <=? verbosity then
    if level =? VERB_OPS then [(LOG_NOTICE, notice, m)]
    else if level =? VERB_DETAIL then [(LOG_INFO, info, m)]
    else [(LOG_DEBUG, debug, m)]
  else [].

(** The loop over [i] of [log_hex_f], in blocks of [blocksize/2] bytes. *)
Fixpoint log_hex_f_loop (fuel : nat) (verbosity v : Z) (msg : list Byte.byte)
    (data8 : list Byte.byte) (length i : Z)
    : option (list (Z * log_type * hex_message)) :=
  match fuel with
  | O => if i <? length then None else Some []
  | S fuel' =>
      if i <? length then
        let len := if length - i <? 256 then length - i else 256 in
        match hex_block data8 (Z.to_nat i) (Z.to_nat len) with
        | None => None
        | Some buf =>
            option_map
              (app (verbose verbosity v
                      (mk_hex_message msg (to_unsigned length)
                         (Some (to_unsigned i)) buf)))
              (log_hex_f_loop fuel' verbosity v msg data8 length (i + 256))
        end
      else Some []
  end.

(** [log_hex_f]; every block moves [i] forward, so [length] iterations are
    enough. *)
Definition log_hex_f (verbosity v : Z) (msg : list Byte.byte)
    (data8 : list Byte.byte) (length : Z)
    : option (list (Z * log_type * hex_message)) :=
  if length =? 0 then
    Some (verbose verbosity v (mk_hex_message msg (to_unsigned length) None []))
  else log_hex_f_loop (Z.to_nat length) verbosity v msg data8 length 0.

Definition log_hex (verbosity : Z) (msg data8 : list Byte.byte) (length : Z)
    : option (list (Z * log_type * hex_message)) :=
  log_hex_f verbosity verbosity msg data8 length.

(** [log_buf] on a buffer: its data from the beginning, up to the limit. *)
Definition log_buf (verbosity level : Z) (msg : list Byte.byte)
    (buf : ldns_buffer) : option (list (Z * log_type * hex_message)) :=
  if verbosity <? level then Some []
  else log_hex_f verbosity level msg (data buf) (ldns_buffer_limit buf).

End Verbosity.

(** *** Reading a dump back *)

(** The value of a hex character. *)
Definition hex_value (c : Byte.byte) : option Z :=
  let v := u8 c in
  if (48 <=? v) && (v <=? 57) then Some (v - 48)
  else if (65 <=? v) && (v <=? 70) then Some (v - 55)
  else None.

(** The bytes that a string of hex characters stands for. *)
Fixpoint unhex (chars : list Byte.byte) : option (list Byte.byte) :=
  match chars with
  | [] => Some []
  | hi :: lo :: rest =>
      match hex_value hi, hex_value lo, unhex rest with
      | Some h, Some l, Some bytes => Some (byte_of_Z (16 * h + l) :: bytes)
      | _, _, _ => None
      end
  | _ => None
  end.

Lemma hex_value_pair b :
  hex_value (nth (Z.to_nat (Z.shiftr (u8 b) 4)) hexchar Byte.x00)
    = Some (u8 b / 16) /\
  hex_value (nth (Z.to_nat (Z.land (u8 b) 15)) hexchar Byte.x00)
    = Some (u8 b mod 16).
Proof. destruct b; split; vm_compute; reflexivity. Qed.

Lemma unhex_hex_pair b rest :
  unhex (hex_pair b ++ rest) = option_map (cons b) (unhex rest).
Proof.
  unfold hex_pair. cbn [app unhex].
  destruct (hex_value_pair b) as [-> ->].
  replace (16 * (u8 b / 16) + u8 b mod 16) with (u8 b)
    by (apply Z.div_mod; lia).
  rewrite DnameMore.byte_of_Z_u8. now destruct (unhex rest).
Qed.

Lemma unhex_dump data : unhex (flat_map hex_pair data) = Some data.
Proof.
  induction data as [|b data IH]; [reflexivity|].
  cbn [flat_map]. now rewrite unhex_hex_pair, IH.
Qed.

Lemma hex_dump_length data :
  length (flat_map hex_pair data) = (2 * length data)%nat.
Proof.
  induction data as [|b data IH]; [reflexivity|].
  cbn [flat_map length app hex_pair]. rewrite IH. lia.
Qed.

Lemma hex_block_spec data8 : forall len i,
  (i + len <= length data8)%nat ->
  hex_block data8 i len = Some (flat_map hex_pair (firstn len (skipn i data8))).
Proof.
  induction len as [|len IH]; intros i Hi; [reflexivity|].
  cbn [hex_block].
  destruct (nth_error data8 i) as [b|] eqn:Eb;
    [|apply nth_error_None in Eb; lia].
  rewrite (Iter.skipn_nth_error _ _ _ Eb). cbn [firstn flat_map].
  rewrite IH by lia. reflexivity.
Qed.

Lemma firstn_add {A} (l : list A) : forall a b,
  firstn (a + b) l = firstn a l ++ firstn b (skipn a l).
Proof.
  induction l as [|x l IH]; intros [|a] b; cbn [Nat.add firstn skipn app];
    try reflexivity.
  - now rewrite firstn_nil.
  - now rewrite IH.
Qed.

Lemma block_split {A} (data : list A) (n i len : nat) :
  (i + len <= n)%nat -> (len <= 256)%nat -> (len < 256 -> i + len = n)%nat ->
  firstn len (skipn i data) ++ skipn (i + 256) (firstn n data)
    = skipn i (firstn n data).
Proof.
  intros H1 H2 H3. rewrite !skipn_firstn_comm.
  replace (i + 256)%nat with (256 + i)%nat by lia.
  rewrite <- skipn_skipn.
  destruct (Nat.eq_dec len 256) as [-> | Hne].
  - replace (n - i)%nat with (256 + (n - (256 + i)))%nat by lia.
    now rewrite firstn_add.
  - replace (n - (256 + i))%nat with 0%nat by lia.
    replace (n - i)%nat with len by lia.
    cbn [firstn]. apply app_nil_r.
Qed.

(** The blocks that the loop of [log_hex_f] hands to [verbose] from offset
    [i] on. *)
Lemma log_hex_f_loop_spec VERB_OPS VERB_DETAIL verbosity v msg data8 n :
  0 <= n <= Z.of_nat (length data8) ->
  forall fuel i,
    0 <= i <= n + 255 -> n - i <= Z.of_nat fuel ->
    exists lines,
      log_hex_f_loop VERB_OPS VERB_DETAIL fuel verbosity v msg data8 n i
        = Some (flat_map (verbose VERB_OPS VERB_DETAIL verbosity v) lines) /\
      concat (map hex_chars lines)
        = flat_map hex_pair (skipn (Z.to_nat i) (firstn (Z.to_nat n) data8)) /\
      Forall (fun l => hex_msg l = msg /\ hex_length l = to_unsigned n /\
                       (length (hex_chars l) <= 512)%nat) lines /\
      (forall k l, nth_error lines k = Some l ->
         hex_offset l = Some (to_unsigned (i + 256 * Z.of_nat k))) /\
      Z.of_nat (length lines) = (n - i + 255) / 256.
Proof.
  intros Hn. induction fuel as [|fuel IH]; intros i Hi Hfuel.
  - exists []. cbn [log_hex_f_loop].
    replace (i <? n) with false by (symmetry; apply Z.ltb_ge; lia).
    repeat split; auto.
    + rewrite skipn_all2; [reflexivity|]. rewrite length_firstn. lia.
    + intros [|k] l H; discriminate.
    + cbn [length]. symmetry. apply Z.div_small. lia.
  - cbn [log_hex_f_loop]. destruct (i <? n) eqn:Elt.
    2:{ apply Z.ltb_ge in Elt. exists []. repeat split; auto.
        + rewrite skipn_all2; [reflexivity|]. rewrite length_firstn. lia.
        + intros [|k] l H; discriminate.
        + cbn [length]. symmetry. apply Z.div_small. lia. }
    apply Z.ltb_lt in Elt.
    set (len := if n - i <? 256 then n - i else 256).
    assert (Hlen : 0 < len <= 256 /\ i + len <= n /\
                   (len < 256 -> i + len = n)).
    { subst len. destruct (n - i <? 256) eqn:E;
        [apply Z.ltb_lt in E | apply Z.ltb_ge in E]; lia. }
    rewrite hex_block_spec by lia.
    destruct (IH (i + 256) ltac:(lia) ltac:(lia))
      as (lines & Hr & Hcat & Hall & Hoff & Hcount).
    rewrite Hr. cbn [option_map].
    set (block := firstn (Z.to_nat len) (skipn (Z.to_nat i) data8)).
    exists (mk_hex_message msg (to_unsigned n) (Some (to_unsigned i))
              (flat_map hex_pair block) :: lines).
    assert (Hblock : (length block <= 256)%nat)
      by (subst block; rewrite length_firstn; lia).
    repeat split.
    + cbn [map concat hex_chars]. rewrite Hcat, <- flat_map_app. f_equal.
      subst block.
      replace (Z.to_nat (i + 256)) with (Z.to_nat i + 256)%nat by lia.
      apply block_split; lia.
    + constructor; [|exact Hall]. cbn [hex_msg hex_length hex_chars].
      repeat split. rewrite hex_dump_length. lia.
    + intros [|k] l Hl; cbn [nth_error] in Hl.
      * injection Hl as <-. cbn [hex_offset]. do 2 f_equal. lia.
      * rewrite (Hoff k l Hl). do 2 f_equal. lia.
    + cbn [length]. rewrite Nat2Z.inj_succ, Hcount.
      replace (n - i + 255) with (n - (i + 256) + 255 + 1 * 256) by lia.
      rewrite Z.div_add by lia. lia.
Qed.

Lemma log_hex_f_lines VERB_OPS VERB_DETAIL verbosity v msg data8 n :
  0 <= n <= Z.of_nat (length data8) ->
  exists lines,
    log_hex_f VERB_OPS VERB_DETAIL verbosity v msg data8 n
      = Some (flat_map (verbose VERB_OPS VERB_DETAIL verbosity v) lines) /\
    unhex (concat (map hex_chars lines)) = Some (firstn (Z.to_nat n) data8) /\
    Forall (fun l => hex_msg l = msg /\ hex_length l = to_unsigned n /\
                     (length (hex_chars l) <= 512)%nat) lines /\
    Z.of_nat (length lines) = Z.max 1 ((n + 255) / 256) /\
    (n <> 0 ->
     forall k l, nth_error lines k = Some l ->
       hex_offset l = Some (to_unsigned (256 * Z.of_nat k))).
Proof.
  intros Hn. unfold log_hex_f. destruct (n =? 0) eqn:E0.
  - apply Z.eqb_eq in E0. subst n.
    exists [mk_hex_message msg (to_unsigned 0) None []].
    cbn [flat_map app]. rewrite app_nil_r.
    repeat split; try reflexivity; try (intros; contradiction).
    repeat constructor.
  - apply Z.eqb_neq in E0.
    destruct (log_hex_f_loop_spec VERB_OPS VERB_DETAIL verbosity v msg data8 n
                Hn (Z.to_nat n) 0 ltac:(lia) ltac:(lia))
      as (lines & Hr & Hcat & Hall & Hoff & Hcount).
    exists lines. split; [exact Hr|].
    cbn [Z.to_nat skipn] in Hcat.
    split; [rewrite Hcat; apply unhex_dump|]. split; [exact Hall|].
    rewrite Z.sub_0_r in Hcount.
    assert (1 <= (n + 255) / 256)
      by (apply Z.div_le_lower_bound; lia).
    split; [lia|]. intros _ k l Hl. now rewrite (Hoff k l Hl).
Qed.

(** X22. [log_hex_f] on [length] bytes of data hands them to [verbose] in
    blocks of at most 256 bytes, as at most 512 hex characters each, one
    call for every 256 bytes begun, and a single call without hex
    characters when the length is 0.  Block [k] is printed with offset
    [256 k], and the hex characters of the blocks, put together in order,
    read back as exactly the bytes of the data. *)
Theorem log_hex_f_dump VERB_OPS VERB_DETAIL verbosity v msg data8 n :
  0 <= n <= Z.of_nat (length data8) ->
  exists lines,
    log_hex_f VERB_OPS VERB_DETAIL verbosity v msg data8 n
      = Some (flat_map (verbose VERB_OPS VERB_DETAIL verbosity v) lines) /\
    unhex (concat (map hex_chars lines)) = Some (firstn (Z.to_nat n) data8) /\
    Forall (fun l => hex_msg l = msg /\ hex_length l = to_unsigned n /\
                     (length (hex_chars l) <= 512)%nat) lines /\
    Z.of_nat (length lines) = Z.max 1 ((n + 255) / 256) /\
    (n <> 0 ->
     forall k l, nth_error lines k = Some l ->
       hex_offset l = Some (to_unsigned (256 * Z.of_nat k))).
Proof. exact (log_hex_f_lines VERB_OPS VERB_DETAIL verbosity v msg data8 n). Qed.

(** 300 bytes of value 171. *)
Definition data_300 : list Byte.byte := repeat (byte_of_Z 171) 300.

Lemma log_hex_f_dump_witness :
  exists lines,
    log_hex_f 1 2 4 4 [] data_300 300
      = Some (flat_map (verbose 1 2 4 4) lines) /\
    unhex (concat (map hex_chars lines)) = Some (firstn 300 data_300) /\
    Z.of_nat (length lines) = 2.
Proof.
  destruct (log_hex_f_dump 1 2 4 4 [] data_300 300
              ltac:(unfold data_300; rewrite repeat_length; lia))
    as (lines & Hr & Hback & _ & Hcount & _).
  exists lines. split; [exact Hr|]. split; [exact Hback|].
  rewrite Hcount. reflexivity.
Defined.

(** X23. [log_buf] logs nothing when the verbosity is below the level of
    the message.  Otherwise it dumps the buffer from its beginning up to
    its limit, wherever the read position stands: the hex characters it
    hands to [verbose] read back as these bytes. *)
Theorem log_buf_dumps_to_limit VERB_OPS VERB_DETAIL verbosity level msg buf :
  buffer_ok buf ->
  (verbosity < level ->
   log_buf VERB_OPS VERB_DETAIL verbosity level msg buf = Some []) /\
  (level <= verbosity ->
   exists entries,
     log_buf VERB_OPS VERB_DETAIL verbosity level msg buf = Some entries /\
     unhex (concat (map (fun e => hex_chars (snd e)) entries))
       = Some (firstn (Z.to_nat (limit buf)) (data buf)) /\
     forall pos,
       log_buf VERB_OPS VERB_DETAIL verbosity level msg
         (ldns_buffer_set_position buf pos) = Some entries).
Proof.
  intros [Hpos Hlim]. unfold log_buf. split.
  - intros H. now replace (verbosity <? level) with true
      by (symmetry; apply Z.ltb_lt; lia).
  - intros H. replace (verbosity <? level) with false
      by (symmetry; apply Z.ltb_ge; lia).
    destruct (log_hex_f_lines VERB_OPS VERB_DETAIL verbosity level msg
                (data buf) (limit buf) ltac:(lia))
      as (lines & Hr & Hback & _).
    unfold ldns_buffer_limit. rewrite Hr. eexists. split; [reflexivity|].
    split; [|intros pos; cbn [data limit ldns_buffer_set_position];
             now rewrite Hr].
    rewrite <- Hback. f_equal.
    assert (Hv : forall m, verbose VERB_OPS VERB_DETAIL verbosity level m
                           = [(fst (fst (hd (0, debug, m)
                                 (verbose VERB_OPS VERB_DETAIL verbosity level m))),
                               snd (fst (hd (0, debug, m)
                                 (verbose VERB_OPS VERB_DETAIL verbosity level m))),
                               m)]).
    { intros m. unfold verbose.
      replace (level <=? verbosity) with true by (symmetry; apply Z.leb_le; lia).
      destruct (level =? VERB_OPS); [reflexivity|].
      destruct (level =? VERB_DETAIL); reflexivity. }
    clear - Hv. induction lines as [|l lines IH]; [reflexivity|].
    cbn [flat_map map]. rewrite map_app, concat_app, IH. f_equal.
    rewrite (Hv l). cbn [map snd concat]. now rewrite app_nil_r.
Qed.

Lemma log_buf_dumps_to_limit_witness :
  log_buf 1 2 1 3 [] (message [1; 97; 0] 2) = Some [].
Proof.
  apply (proj1 (log_buf_dumps_to_limit 1 2 1 3 [] (message [1; 97; 0] 2)
                  ltac:(unfold buffer_ok; cbn; lia))).
  lia.
Defined.

End Log.
